(** * fix-lint.py: regular-expression rewriting of a fixed list of files

    A shallow embedding of [fix-lint.py].  The script reads each file as
    text, applies [re.sub] rewrites in three passes, and writes the file
    back after every pass that changed the text.

    Text is a list of Unicode code points (Python [str]).  The part of
    Python's [re] module the script relies on is modelled by a small
    backtracking matcher: literals, character classes, greedy repetition of
    a class, an optional item, alternation, one capture group, a lookahead
    on one character, and the MULTILINE anchors. *)

From Stdlib Require Import List String Ascii NArith Arith Bool Lia DecimalString
  Permutation.
Import ListNotations.

Local Open Scope list_scope.

(** ** Text *)

Definition char := N.
Definition text := list char.

Definition code (a : ascii) : char := N_of_ascii a.

Fixpoint codes (s : string) : text :=
  match s with
  | EmptyString => []
  | String a s' => code a :: codes s'
  end.

Definition NL : char := 10%N.

(** Python's [\s] on [str] patterns: the code points for which
    [str.isspace] holds. *)
Definition is_space (c : char) : bool :=
  ((9 <=? c) && (c <=? 13) || (28 <=? c) && (c <=? 32)
   || (c =? 133) || (c =? 160) || (c =? 5760)
   || (8192 <=? c) && (c <=? 8202)
   || (c =? 8232) || (c =? 8233) || (c =? 8239) || (c =? 8287)
   || (c =? 12288))%N.

Definition is_chr (a : ascii) (c : char) : bool := N.eqb c (code a).
Definition not_chr (a : ascii) (c : char) : bool := negb (is_chr a c).
Definition one_of (a b : ascii) (c : char) : bool := is_chr a c || is_chr b c.

Fixpoint text_eqb (s t : text) : bool :=
  match s, t with
  | [], [] => true
  | c :: s', d :: t' => N.eqb c d && text_eqb s' t'
  | _, _ => false
  end.

(** [needle in haystack] on Python strings. *)
Fixpoint prefixb (p s : text) : bool :=
  match p, s with
  | [], _ => true
  | c :: p', d :: s' => N.eqb c d && prefixb p' s'
  | _ :: _, [] => false
  end.

Fixpoint contains (p s : text) : bool :=
  prefixb p s ||
  match s with
  | [] => false
  | _ :: s' => contains p s'
  end.

(** ** Regular expressions *)

Inductive re : Type :=
| Eps
| Chr (c : char)                    (* one literal character *)
| Cls (p : char -> bool)            (* one character of a class *)
| Star (p : char -> bool)           (* greedy [class*] *)
| Plus (p : char -> bool)           (* greedy [class+] *)
| Opt (r : re)                      (* greedy [r?] *)
| Alt (r1 r2 : re)                  (* [r1|r2], left first *)
| Cat (r1 r2 : re)
| Grp (r : re)                      (* capture group 1 *)
| Ahead (p : char -> bool)          (* [(?=[class])] *)
| Bol                               (* [^] under MULTILINE *)
| Eol.                              (* [$] under MULTILINE *)

Fixpoint lit (s : text) : re :=
  match s with
  | [] => Eps
  | c :: s' => Cat (Chr c) (lit s')
  end.

Definition str (s : string) : re := lit (codes s).

Fixpoint cat (rs : list re) : re :=
  match rs with
  | [] => Eps
  | r :: rs' => Cat r (cat rs')
  end.

(** The matcher runs in continuation-passing style so that a failure of
    the continuation makes the engine try the next alternative, as the
    backtracking engine of [re] does.  [prev] is the character before the
    current position (for [^]); [g] is the text of group 1 so far. *)
Section Matcher.
Context {A : Type}.

Definition kont := option char -> text -> option text -> option A.

Fixpoint star_m (p : char -> bool) (prev : option char) (s : text)
         (g : option text) (k : kont) : option A :=
  match s with
  | c :: s' =>
      if p c then
        match star_m p (Some c) s' g k with
        | Some a => Some a
        | None => k prev s g
        end
      else k prev s g
  | [] => k prev s g
  end.

Definition at_bol (prev : option char) : bool :=
  match prev with
  | None => true
  | Some c => N.eqb c NL
  end.

Definition at_eol (s : text) : bool :=
  match s with
  | [] => true
  | c :: _ => N.eqb c NL
  end.

Fixpoint m (r : re) (prev : option char) (s : text) (g : option text)
         (k : kont) : option A :=
  match r with
  | Eps => k prev s g
  | Chr c =>
      match s with
      | d :: s' => if N.eqb d c then k (Some d) s' g else None
      | [] => None
      end
  | Cls p =>
      match s with
      | d :: s' => if p d then k (Some d) s' g else None
      | [] => None
      end
  | Star p => star_m p prev s g k
  | Plus p =>
      match s with
      | d :: s' => if p d then star_m p (Some d) s' g k else None
      | [] => None
      end
  | Opt r1 =>
      match m r1 prev s g k with
      | Some a => Some a
      | None => k prev s g
      end
  | Alt r1 r2 =>
      match m r1 prev s g k with
      | Some a => Some a
      | None => m r2 prev s g k
      end
  | Cat r1 r2 => m r1 prev s g (fun prev' s' g' => m r2 prev' s' g' k)
  | Grp r1 =>
      m r1 prev s g
        (fun prev' s' _ =>
           k prev' s' (Some (firstn (List.length s - List.length s') s)))
  | Ahead p =>
      match s with
      | d :: _ => if p d then k prev s g else None
      | [] => None
      end
  | Bol => if at_bol prev then k prev s g else None
  | Eol => if at_eol s then k prev s g else None
  end.
End Matcher.

(** [match_at r prev s]: the match of [r] starting exactly here, as the
    unconsumed rest of the text and the text of group 1. *)
Definition match_at (r : re) (prev : option char) (s : text)
  : option (text * option text) :=
  m r prev s None (fun _ s' g => Some (s', g)).

(** ** Replacement templates and [re.sub] *)

Inductive tok : Type :=
| Txt (t : text)
| G1.

Definition template := list tok.

Fixpoint expand (tpl : template) (g : option text) : text :=
  match tpl with
  | [] => []
  | Txt t :: tpl' => t ++ expand tpl' g
  | G1 :: tpl' =>
      match g with Some t => t | None => [] end ++ expand tpl' g
  end.

(** [re.sub(r, tpl, s)]: scan left to right; at each position not inside
    the previous match try [r]; a match is replaced and scanning resumes
    after it, otherwise the character is copied.  [skip] counts the
    characters of the current match still to be dropped. *)
Fixpoint sub_go (r : re) (tpl : template) (prev : option char) (s : text)
         (skip : nat) : text :=
  match s with
  | [] =>
      match skip with
      | 0 =>
          match match_at r prev [] with
          | Some (_, g) => expand tpl g
          | None => []
          end
      | S _ => []
      end
  | c :: s' =>
      match skip with
      | S n => sub_go r tpl (Some c) s' n
      | 0 =>
          match match_at r prev s with
          | Some (rest, g) =>
              match List.length s - List.length rest with
              | 0 => expand tpl g ++ c :: sub_go r tpl (Some c) s' 0
              | S n => expand tpl g ++ sub_go r tpl (Some c) s' n
              end
          | None => c :: sub_go r tpl (Some c) s' 0
          end
      end
  end.

Definition sub (r : re) (tpl : template) (s : text) : text :=
  sub_go r tpl None s 0.

(** ** The patterns of the script *)

Definition ws : re := Star is_space.            (* [\s*] *)
Definition ws1 : re := Plus is_space.           (* [\s+] *)
Definition space_or_nl (c : char) : bool := is_space c || N.eqb c NL.
Definition wsn1 : re := Plus space_or_nl.       (* [[\s\n]+] *)
Definition no_rparen : re := Star (not_chr ")").  (* [[^)]*] *)
Definition txt (s : string) : template := [Txt (codes s)].
Definition nl : text := [NL].

(** [^\s*console\.(log|error|warn|info)\([^)]*\);\s*$], MULTILINE *)
Definition re_console_line : re :=
  cat [Bol; ws; str "console.";
       Grp (Alt (str "log") (Alt (str "error") (Alt (str "warn") (str "info"))));
       str "("; no_rparen; str ");"; ws; Eol].

(** [\s*if\s*\(shouldLog\(\)\)\s*{\s*console\.log\([^)]*\);\s*}] *)
Definition re_should_log : re :=
  cat [ws; str "if"; ws; str "(shouldLog())"; ws; str "{"; ws;
       str "console.log("; no_rparen; str ");"; ws; str "}"].

(** [onClick=\{\(\)\s*=>\s*console\.log\([^)]*\)\}] *)
Definition re_onclick : re :=
  cat [str "onClick={()"; ws; str "=>"; ws; str "console.log(";
       no_rparen; str ")}"].

(** [\.then\(\([^)]*\)\s*=>\s*console\.log\([^)]*\)\)] *)
Definition re_then : re :=
  cat [str ".then(("; no_rparen; str ")"; ws; str "=>"; ws;
       str "console.log("; no_rparen; str "))"].

(** [testNotif\.onshow\s*=\s*\(\)\s*=>\s*console\.log\([^)]*\);] *)
Definition re_onshow : re :=
  cat [str "testNotif.onshow"; ws; str "="; ws; str "()"; ws; str "=>"; ws;
       str "console.log("; no_rparen; str ");"].

(** [testNotif\.onclick\s*=\s*\(\)\s*=>\s*{\s*console\.log\([^)]*\);] *)
Definition re_onclick_notif : re :=
  cat [str "testNotif.onclick"; ws; str "="; ws; str "()"; ws; str "=>"; ws;
       str "{"; ws; str "console.log("; no_rparen; str ");"].

(** [testNotif\.onerror\s*=\s*\(e\)\s*=>\s*console\.error\([^)]*\);] *)
Definition re_onerror : re :=
  cat [str "testNotif.onerror"; ws; str "="; ws; str "(e)"; ws; str "=>"; ws;
       str "console.error("; no_rparen; str ");"].

(** [\n\n\n+] *)
Definition re_blank_lines : re :=
  cat [Chr NL; Chr NL; Plus (N.eqb NL)].

(** The body of [remove_console_logs] between the read and the
    comparison with [original]. *)
Definition remove_console_logs_text (content : text) : text :=
  let content := sub re_console_line [] content in
  let content := sub re_should_log [] content in
  let content := sub re_onclick (txt "onClick={() => {}}") content in
  let content := sub re_then [] content in
  let content := sub re_onshow (txt "testNotif.onshow = () => {};") content in
  let content := sub re_onclick_notif (txt "testNotif.onclick = () => {") content in
  let content := sub re_onerror [] content in
  sub re_blank_lines [Txt [NL; NL]] content.

(** [,\s*NAME\s*(?=[,}])] *)
Definition re_trailing (name : string) : re :=
  cat [str ","; ws; str name; ws; Ahead (one_of "," "}")].

(** [{\s*NAME,\s*] *)
Definition re_leading_brace (name : string) : re :=
  cat [str "{"; ws; str name; str ","; ws].

(** [NAME,\s*] *)
Definition re_leading (name : string) : re :=
  cat [str name; str ","; ws].

(** [import\s+{\s*Tags\s*}\s+from\s+'lucide-react';\s*\n?] *)
Definition re_import_tags : re :=
  cat [str "import"; ws1; str "{"; ws; str "Tags"; ws; str "}"; ws1;
       str "from"; ws1; str "'lucide-react';"; ws; Opt (Chr NL)].

(** [import\s+{\s*NAME\s*}\s+from[^;]+;\s*\n?] *)
Definition re_import_only (name : string) : re :=
  cat [str "import"; ws1; str "{"; ws; str name; ws; str "}"; ws1;
       str "from"; Plus (not_chr ";"); str ";"; ws; Opt (Chr NL)].

(** [const\s+\[A,\s+B\]\s+=\s+useState\([^)]*\);\s*\n?] *)
Definition re_use_state (a b : string) : re :=
  cat [str "const"; ws1; str "["; str a; str ","; ws1; str b; str "]"; ws1;
       str "="; ws1; str "useState("; no_rparen; str ");"; ws; Opt (Chr NL)].

Definition imports_to_remove : list string :=
  ["Popover"; "PopoverContent"; "PopoverTrigger"; "Checkbox"; "Label"]%string.

Definition remove_import (content : text) (imp : string) : text :=
  let content := sub (re_trailing imp) [] content in
  let content := sub (re_leading imp) [] content in
  sub (re_import_only imp) [] content.

Definition in_path (fragment : string) (file_path : text) : bool :=
  contains (codes fragment) file_path.

(** The body of [fix_unused_imports]. *)
Definition fix_unused_imports_text (file_path content : text) : text :=
  let content :=
    if in_path "tokens-table.tsx" file_path then
      let content := sub re_import_tags [] content in
      let content := sub (re_trailing "Tags") [] content in
      let content := sub (re_leading_brace "Tags") (txt "{ ") content in
      let content := fold_left remove_import imports_to_remove content in
      let content := sub (re_use_state "isDeleting" "setIsDeleting") [] content in
      sub (re_use_state "isLoadingDetails" "setIsLoadingDetails") [] content
    else content in
  let content :=
    if in_path "token-details-modal.tsx" file_path then
      let content := sub (re_trailing "X") [] content in
      sub (re_leading_brace "X") (txt "{ ") content
    else content in
  if in_path "additional-tags.tsx" file_path then
    let content := sub (re_trailing "onTagsChange") [] content in
    let content := sub (re_leading "onTagsChange") [] content in
    sub (re_use_state "isLoading" "setIsLoading") [] content
  else content.

(** [setPollsSinceLastActive\(pollsSinceLastActive \+ 1\)] *)
Definition re_polls : re :=
  str "setPollsSinceLastActive(pollsSinceLastActive + 1)".

(** [useMemo\(\(\)\s*=>\s*\{[^}]+return\s+columns;[\s\n]+},\s*\[(onDelete|sortedData)\]\)] *)
Definition re_use_memo : re :=
  cat [str "useMemo(()"; ws; str "=>"; ws; str "{"; Plus (not_chr "}");
       str "return"; ws1; str "columns;"; wsn1; str "},"; ws; str "[";
       Grp (Alt (str "onDelete") (str "sortedData")); str "])"].

Definition tpl_use_memo : template :=
  [Txt (codes "useMemo(() => {" ++ nl ++ codes "    return columns;" ++ nl
        ++ codes "  }, [");
   G1; Txt (codes ", handleDelete])")].

(** [useEffect\(\(\)\s*=>\s*\{[\s\n]+checkBotTag\(\);[\s\n]+},\s*\[\]\)] *)
Definition re_check_bot_tag : re :=
  cat [str "useEffect(()"; ws; str "=>"; ws; str "{"; wsn1;
       str "checkBotTag();"; wsn1; str "},"; ws; str "[])"].

Definition tpl_check_bot_tag : template :=
  [Txt (codes "useEffect(() => {" ++ nl ++ codes "    checkBotTag();" ++ nl
        ++ codes "  }, [checkBotTag])")].

(** [useEffect\(\(\)\s*=>\s*\{[\s\n]+if\s*\([^)]+\)\s*\{[\s\n]+fetchTags\(\);[\s\n]+}[\s\n]+},\s*\[([^\]]+)\]\)] *)
Definition re_fetch_tags : re :=
  cat [str "useEffect(()"; ws; str "=>"; ws; str "{"; wsn1; str "if"; ws;
       str "("; Plus (not_chr ")"); str ")"; ws; str "{"; wsn1;
       str "fetchTags();"; wsn1; str "}"; wsn1; str "},"; ws; str "[";
       Grp (Plus (not_chr "]")); str "])"].

Definition tpl_fetch_tags : template :=
  [Txt (codes "useEffect(() => {" ++ nl ++ codes "    if (");
   G1;
   Txt (codes ") {" ++ nl ++ codes "      fetchTags();" ++ nl
        ++ codes "    }" ++ nl ++ codes "  }, [");
   G1; Txt (codes ", fetchTags])")].

(** The body of [fix_hook_dependencies]. *)
Definition fix_hook_dependencies_text (file_path content : text) : text :=
  let content :=
    if in_path "tokens/page.tsx" file_path then
      sub re_polls (txt "setPollsSinceLastActive((prev) => prev + 1)") content
    else content in
  let content :=
    if in_path "tokens-table.tsx" file_path then
      sub re_use_memo tpl_use_memo content
    else content in
  let content :=
    if in_path "additional-tags.tsx" file_path then
      sub re_check_bot_tag tpl_check_bot_tag content
    else content in
  if in_path "WalletTagsContext.tsx" file_path then
    sub re_fetch_tags tpl_fetch_tags content
  else content.

(** ** Files and console *)

Inductive event : Type :=
| EvRead (path : text)
| EvWrite (path : text) (content : text)
| EvPrint (line : text).

(** What a path names when it exists: a regular file, with the text that
    [read()] returns and whether it may be opened for writing, or
    something that cannot be read as UTF-8 text (a directory, bytes that
    are not UTF-8, a file without read permission). *)
Inductive node : Type :=
| File (content : text) (writable : bool)
| Unreadable.

Record world : Type := World {
  fs : text -> option node;        (* what exists, by path *)
  trace : list event               (* what happened so far, oldest first *)
}.

(** A call returns a value, or an exception leaves it; the script catches
    none, so an exception ends the run in the world it was raised in. *)
Inductive result (A : Type) : Type :=
| Ok (a : A) (w : world)
| Raised (w : world).
Arguments Ok {A} a w.
Arguments Raised {A} w.

Definition fs_write (f : text -> option node) (path content : text)
  : text -> option node :=
  fun p => if text_eqb p path then Some (File content true) else f p.

Definition log (e : event) (w : world) : world :=
  World (fs w) (trace w ++ [e]).

Definition print (line : text) (w : world) : world := log (EvPrint line) w.

(** [open(path, 'r', encoding='utf-8').read()]: raises on a missing path
    and on one that cannot be read. *)
Definition read_file (path : text) (w : world) : result text :=
  match fs w path with
  | Some (File content _) => Ok content (log (EvRead path) w)
  | Some Unreadable => Raised w
  | None => Raised w
  end.

(** [open(path, 'w', encoding='utf-8').write(content)]: the whole content
    is replaced (a missing file would be created); opening raises when
    the path may not be written. *)
Definition write_file (path content : text) (w : world) : result unit :=
  match fs w path with
  | Some (File _ false) => Raised w
  | Some Unreadable => Raised w
  | _ =>
      Ok tt (World (fs_write (fs w) path content)
                   (trace w ++ [EvWrite path content]))
  end.

(** The shape shared by the three functions: read, transform, write back
    when the text changed, and return whether it did. *)
Definition run_pass (f : text -> text) (file_path : text) (w : world)
  : result bool :=
  match read_file file_path w with
  | Ok content w1 =>
      let original := content in
      let content := f content in
      if negb (text_eqb content original)
      then
        match write_file file_path content w1 with
        | Ok _ w2 => Ok true w2
        | Raised w2 => Raised w2
        end
      else Ok false w1
  | Raised w1 => Raised w1
  end.

Definition remove_console_logs (file_path : text) :=
  run_pass remove_console_logs_text file_path.
Definition fix_unused_imports (file_path : text) :=
  run_pass (fix_unused_imports_text file_path) file_path.
Definition fix_hook_dependencies (file_path : text) :=
  run_pass (fix_hook_dependencies_text file_path) file_path.

Definition files_to_process : list string :=
  ["app/dashboard/tokens/page.tsx";
   "app/dashboard/tokens/token-details-modal.tsx";
   "app/dashboard/tokens/tokens-table.tsx";
   "app/dashboard/trash/page.tsx";
   "components/additional-tags.tsx";
   "components/kbar/use-token-search.tsx";
   "contexts/ApiSettingsContext.tsx";
   "contexts/WalletTagsContext.tsx";
   "hooks/useAnalysisNotifications.ts"]%string.

(** [BASE_DIR / file_rel_path] as a string. *)
Definition join (base_dir : text) (rel : string) : text :=
  base_dir ++ codes "/" ++ codes rel.

(** The three calls on one existing file; the result is [fixed]. *)
Definition process_file (file_path : text) (w : world) : result bool :=
  match remove_console_logs file_path w with
  | Ok b1 w1 =>
      match fix_unused_imports file_path w1 with
      | Ok b2 w2 =>
          match fix_hook_dependencies file_path w2 with
          | Ok b3 w3 => Ok (false || b1 || b2 || b3) w3
          | Raised w3 => Raised w3
          end
      | Raised w2 => Raised w2
      end
  | Raised w1 => Raised w1
  end.

(** The per-file console lines. *)
Definition skip_line (rel : string) : text :=
  codes "  Skipping " ++ codes rel ++ codes " (not found)".
Definition ok_line (rel : string) : text :=
  codes "  [OK] Fixed " ++ codes rel.
Definition no_change_line (rel : string) : text :=
  codes "  [SKIP] No changes needed for " ++ codes rel.

(** The [for] loop, with [fixed_count] threaded through.  [exists()]
    holds of whatever the path names, readable or not. *)
Fixpoint process_files (base_dir : text) (files : list string)
         (fixed_count : nat) (w : world) : result nat :=
  match files with
  | [] => Ok fixed_count w
  | file_rel_path :: rest =>
      let file_path := join base_dir file_rel_path in
      match fs w file_path with
      | None =>
          process_files base_dir rest fixed_count
            (print (skip_line file_rel_path) w)
      | Some _ =>
          match process_file file_path w with
          | Ok true w' =>
              process_files base_dir rest (S fixed_count)
                (print (ok_line file_rel_path) w')
          | Ok false w' =>
              process_files base_dir rest fixed_count
                (print (no_change_line file_rel_path) w')
          | Raised w' => Raised w'
          end
      end
  end.

(** [re.search(r, s) is not None], from a position with left context
    [prev]. *)
Fixpoint search_go (r : re) (prev : option char) (s : text) : bool :=
  match match_at r prev s with
  | Some _ => true
  | None =>
      match s with
      | [] => false
      | c :: s' => search_go r (Some c) s'
      end
  end.

Definition search (r : re) (s : text) : bool := search_go r None s.

(** Every pattern of the script, whatever the file it is tied to. *)
Definition console_rules : list re :=
  [re_console_line; re_should_log; re_onclick; re_then; re_onshow;
   re_onclick_notif; re_onerror; re_blank_lines].

Definition import_rules (imp : string) : list re :=
  [re_trailing imp; re_leading imp; re_import_only imp].

Definition unused_rules : list re :=
  [re_import_tags; re_trailing "Tags"; re_leading_brace "Tags"]
  ++ flat_map import_rules imports_to_remove
  ++ [re_use_state "isDeleting" "setIsDeleting";
      re_use_state "isLoadingDetails" "setIsLoadingDetails";
      re_trailing "X"; re_leading_brace "X";
      re_trailing "onTagsChange"; re_leading "onTagsChange";
      re_use_state "isLoading" "setIsLoading"].

Definition hook_rules : list re :=
  [re_polls; re_use_memo; re_check_bot_tag; re_fetch_tags].

Definition all_rules : list re := console_rules ++ unused_rules ++ hook_rules.

Definition is_write (e : event) : bool :=
  match e with EvWrite _ _ => true | _ => false end.

(** The writes of a trace, oldest first. *)
Definition writes (tr : list event) : list event := filter is_write tr.

(** ** Texts without trigger patterns *)

Definition no_trigger (content : text) : bool :=
  forallb (fun r => negb (search r content)) all_rules.

(** ** One pass, one file *)

(** What a pass adds to the trace when it maps [old] to [new]. *)
Definition pass_events (path old new : text) : list event :=
  EvRead path :: (if text_eqb new old then [] else [EvWrite path new]).

Definition pass_fs (f : text -> option node) (path old new : text)
  : text -> option node :=
  if text_eqb new old then f else fs_write f path new.

(** The text after each of the three passes. *)
Definition after1 (content : text) : text := remove_console_logs_text content.
Definition after2 (path content : text) : text :=
  fix_unused_imports_text path (after1 content).
Definition after3 (path content : text) : text :=
  fix_hook_dependencies_text path (after2 path content).

Definition file_events (path c0 : text) : list event :=
  pass_events path c0 (after1 c0)
  ++ pass_events path (after1 c0) (after2 path c0)
  ++ pass_events path (after2 path c0) (after3 path c0).

Definition file_fs (f : text -> option node) (path c0 : text)
  : text -> option node :=
  pass_fs (pass_fs (pass_fs f path c0 (after1 c0))
                   path (after1 c0) (after2 path c0))
          path (after2 path c0) (after3 path c0).

Definition file_fixed (path c0 : text) : bool :=
  negb (text_eqb (after1 c0) c0)
  || negb (text_eqb (after2 path c0) (after1 c0))
  || negb (text_eqb (after3 path c0) (after2 path c0)).

(** A world with a single file. *)
Definition one_file (path content : text) : world :=
  World (fun p => if text_eqb p path then Some (File content true) else None)
        [].

(** ** Writes of a run on one file *)

Definition pass_writes (path old new : text) : list event :=
  if text_eqb new old then [] else [EvWrite path new].

Definition lf : string := String (ascii_of_N 10) EmptyString.

Definition three_writes_path : text := codes "src/components/additional-tags.tsx".
Definition three_writes_text : text :=
  codes ("console.log('render');" ++ lf
         ++ "export function Tags({ wallet, onTagsChange }) {" ++ lf
         ++ "  useEffect(() => {" ++ lf
         ++ "    checkBotTag();" ++ lf
         ++ "  }, []);" ++ lf
         ++ "}" ++ lf).

(** ** File-name gating of the unused-symbol pass *)

(** The fragments [fix_unused_imports] tests the path for. *)
Definition unused_fragments : list string :=
  ["tokens-table.tsx"; "token-details-modal.tsx"; "additional-tags.tsx"]%string.

(** The fragments [fix_hook_dependencies] tests the path for. *)
Definition hook_fragments : list string :=
  ["tokens/page.tsx"; "tokens-table.tsx"; "additional-tags.tsx";
   "WalletTagsContext.tsx"]%string.

Definition has_none (fragments : list string) (path : text) : bool :=
  forallb (fun f => negb (in_path f path)) fragments.

(** ** The loop over the path list *)

(** Whether an event is a read or a write of [p]. *)
Definition touches (p : text) (e : event) : bool :=
  match e with
  | EvRead q => text_eqb q p
  | EvWrite q _ => text_eqb q p
  | EvPrint _ => false
  end.

(** The script from its first [print] to its last. *)
Definition main (base_dir : text) (w : world) : result unit :=
  let w := print (codes "Fixing lint issues...") w in
  match process_files base_dir files_to_process 0 w with
  | Ok fixed_count w =>
      let w :=
        print (nl ++ codes "Fixed "
               ++ codes (NilEmpty.string_of_uint (Nat.to_uint fixed_count))
               ++ codes " files") w in
      Ok tt (print (codes "Run 'pnpm lint:strict' to verify") w)
  | Raised w => Raised w
  end.

(** ** The engine: scanning *)

(** The left context after reading [s]. *)
Definition end_prev (prev : option char) (s : text) : option char :=
  fold_left (fun _ c => Some c) s prev.

(** [l] occurs in [pre ++ rest] at a position inside [pre]. *)
Fixpoint starts_before (l pre rest : text) : bool :=
  match pre with
  | [] => false
  | _ :: pre' => prefixb l (pre ++ rest) || starts_before l pre' rest
  end.

(** ** The [checkBotTag] effect *)

Definition effect_block : text :=
  codes "useEffect(() => { checkBotTag(); }, [])".

Definition effect_block_claimed : text :=
  codes "useEffect(() => { checkBotTag(); }, [checkBotTag])".

Definition effect_block_rewritten : text :=
  codes ("useEffect(() => {" ++ lf ++ "    checkBotTag();" ++ lf
         ++ "  }, [checkBotTag])").

(** ** Running the script twice *)

Definition wallet_path : text := codes "src/contexts/WalletTagsContext.tsx".

Definition wallet_effect : text :=
  codes ("useEffect(() => {" ++ lf
         ++ "    if (apiBaseUrl) {" ++ lf
         ++ "      fetchTags();" ++ lf
         ++ "    }" ++ lf
         ++ "  }, [apiBaseUrl]);" ++ lf).

Definition wallet_effect_once : text :=
  codes ("useEffect(() => {" ++ lf
         ++ "    if (apiBaseUrl) {" ++ lf
         ++ "      fetchTags();" ++ lf
         ++ "    }" ++ lf
         ++ "  }, [apiBaseUrl, fetchTags]);" ++ lf).

Definition wallet_effect_twice : text :=
  codes ("useEffect(() => {" ++ lf
         ++ "    if (apiBaseUrl, fetchTags) {" ++ lf
         ++ "      fetchTags();" ++ lf
         ++ "    }" ++ lf
         ++ "  }, [apiBaseUrl, fetchTags, fetchTags]);" ++ lf).

(** ** Blank lines *)

(** The last rule of [remove_console_logs]. *)
Definition collapse (content : text) : text :=
  sub re_blank_lines [Txt [NL; NL]] content.

Fixpoint drop_nl (s : text) : text :=
  match s with
  | c :: s' => if N.eqb NL c then drop_nl s' else s
  | [] => []
  end.

(** The number of empty lines the text begins with. *)
Fixpoint leading_blank_lines (s : text) : nat :=
  match s with
  | c :: s' => if N.eqb NL c then S (leading_blank_lines s') else 0
  | [] => 0
  end.

(** What the rule computes, written directly: of every run of newline
    characters the first two are kept.  [run] counts the newlines just
    before the current position. *)
Fixpoint squeeze_go (run : nat) (s : text) : text :=
  match s with
  | [] => []
  | c :: s' =>
      if N.eqb NL c then
        if run <? 2 then c :: squeeze_go (S run) s' else squeeze_go (S run) s'
      else c :: squeeze_go 0 s'
  end.

Definition squeeze (s : text) : text := squeeze_go 0 s.

Definition triple_nl : text := [NL; NL; NL].

Fixpoint take_nl (s : text) : text :=
  match s with
  | c :: s' => if N.eqb NL c then c :: take_nl s' else []
  | [] => []
  end.

(** The run counter after reading [x]. *)
Definition run_after (run : nat) (x : text) : nat :=
  fold_left (fun r c => if N.eqb NL c then S r else 0) x run.

Definition three_blank_lines_first : text := NL :: NL :: NL :: codes "x".

(** ** The engine: literals and greedy classes *)

Fixpoint drop_while (p : char -> bool) (s : text) : text :=
  match s with
  | c :: s' => if p c then drop_while p s' else s
  | [] => []
  end.

(** The first character is not in the class (or there is none). *)
Definition stops (p : char -> bool) (s : text) : bool :=
  match s with
  | c :: _ => negb (p c)
  | [] => true
  end.

(** ** The standalone console line *)

Definition console_names : list string := ["log"; "error"; "warn"; "info"]%string.

(** A console call on text, with its surrounding whitespace. *)
Definition console_call (w1 : text) (name : string) (args w2 : text) : text :=
  w1 ++ codes "console." ++ codes name ++ codes "(" ++ args ++ codes ");" ++ w2.

Definition not_nl (c : char) : bool := negb (N.eqb c NL).

Definition last_line_call : text := codes ("console.log(x);" ++ lf).

(** ** Measures on patterns *)

(** The least number of characters a match consumes. *)
Fixpoint min_len (r : re) : nat :=
  match r with
  | Eps => 0
  | Chr _ => 1
  | Cls _ => 1
  | Star _ => 0
  | Plus _ => 1
  | Opt _ => 0
  | Alt r1 r2 => Nat.min (min_len r1) (min_len r2)
  | Cat r1 r2 => min_len r1 + min_len r2
  | Grp r1 => min_len r1
  | Ahead _ => 0
  | Bol => 0
  | Eol => 0
  end.

(** The text of a pattern that is a plain literal. *)
Fixpoint as_lit (r : re) : option text :=
  match r with
  | Eps => Some []
  | Cat (Chr c) r' =>
      match as_lit r' with
      | Some t => Some (c :: t)
      | None => None
      end
  | _ => None
  end.

(** A syntactic check that every match of [r] contains the text [l]: some
    literal that every match goes through contains it. *)
Fixpoint needs (l : text) (r : re) : bool :=
  match as_lit r with
  | Some t => contains l t
  | None => false
  end
  || match r with
     | Cat r1 r2 => needs l r1 || needs l r2
     | Alt r1 r2 => needs l r1 && needs l r2
     | Grp r1 => needs l r1
     | _ => false
     end.

(** A replacement string without group references, and its length. *)
Definition is_txt (t : tok) : bool :=
  match t with Txt _ => true | G1 => false end.

Definition tpl_fixed (tpl : template) : bool := forallb is_txt tpl.

Definition tpl_len (tpl : template) : nat := List.length (expand tpl None).

(** [f] only ever shortens: it returns its input or a shorter text. *)
Definition shrinks (f : text -> text) : Prop :=
  forall s, f s = s \/ List.length (f s) < List.length s.

(** ** Words the rules need *)

(** Every rule of the unused-symbol pass goes through one of these. *)
Definition unused_words : list string :=
  ["Tags"; "Popover"; "Checkbox"; "Label"; "X"; "onTagsChange";
   "useState("]%string.

(** Every rule of the hook pass goes through one of these. *)
Definition hook_words : list string :=
  ["setPollsSinceLastActive("; "useMemo("; "useEffect("]%string.

Definition has_no_word (words : list string) (content : text) : bool :=
  forallb (fun w => negb (contains (codes w) content)) words.

(** ** What a run leaves behind *)

(** The lines printed, oldest first. *)
Fixpoint prints (tr : list event) : list text :=
  match tr with
  | [] => []
  | EvPrint line :: tr' => line :: prints tr'
  | _ :: tr' => prints tr'
  end.

(** The line the loop prints for a path, from the files as they were
    before the run. *)
Definition line_for (base_dir : text) (f : text -> option node)
           (rel : string) : text :=
  match f (join base_dir rel) with
  | None => skip_line rel
  | Some (File c _) =>
      if file_fixed (join base_dir rel) c then ok_line rel
      else no_change_line rel
  | Some Unreadable => []          (* no line: the run ends there *)
  end.

(** Whether the loop counts a path as fixed. *)
Definition counted (base_dir : text) (f : text -> option node)
           (rel : string) : bool :=
  match f (join base_dir rel) with
  | Some (File c _) => file_fixed (join base_dir rel) c
  | _ => false
  end.

(** What a path names after the run, from the files as they were before
    it. *)
Definition final_fs (base_dir : text) (files : list string)
           (f : text -> option node) (q : text) : option node :=
  match f q with
  | Some (File c wr) =>
      if existsb (fun rel => text_eqb q (join base_dir rel)) files
      then Some (File (after3 q c) wr) else Some (File c wr)
  | other => other
  end.

(** A path at which the loop goes through: nothing is there, or a file
    that can be read and written. *)
Definition usable (f : text -> option node) (q : text) : bool :=
  match f q with
  | None => true
  | Some (File _ wr) => wr
  | Some Unreadable => false
  end.

Definition all_usable (base_dir : text) (files : list string)
           (f : text -> option node) : bool :=
  forallb (fun rel => usable f (join base_dir rel)) files.

(** What the loop records for a path: the reads and writes of the three
    passes and then the line, or the skipping line alone. *)
Definition path_events (base_dir : text) (f : text -> option node)
           (rel : string) : list event :=
  match f (join base_dir rel) with
  | None => [EvPrint (skip_line rel)]
  | Some (File c _) =>
      file_events (join base_dir rel) c ++ [EvPrint (line_for base_dir f rel)]
  | Some Unreadable => []
  end.

Definition run_events (base_dir : text) (files : list string)
           (f : text -> option node) : list event :=
  flat_map (path_events base_dir f) files.

Definition banner_line : text := codes "Fixing lint issues...".
Definition hint_line : text := codes "Run 'pnpm lint:strict' to verify".
Definition summary_line (fixed_count : nat) : text :=
  nl ++ codes "Fixed "
     ++ codes (NilEmpty.string_of_uint (Nat.to_uint fixed_count))
     ++ codes " files".

(** ** The shapes the hook rules rewrite *)

(** The [fetchTags] effect, laid out as the rule's replacement lays it
    out, with a condition and a dependency list. *)
Definition fetch_effect (cond deps : text) : text :=
  codes "useEffect(() => {" ++ nl ++ codes "    if (" ++ cond
  ++ codes ") {" ++ nl ++ codes "      fetchTags();" ++ nl ++ codes "    }"
  ++ nl ++ codes "  }, [" ++ deps ++ codes "])".

(** A memoized computation with a body before its [return columns;]. *)
Definition memo_block (body : text) (dep : string) : text :=
  codes "useMemo(() => {" ++ body ++ codes "return columns;" ++ nl
  ++ codes "  }, [" ++ codes dep ++ codes "])".

Definition memo_rewritten (dep : string) : text :=
  codes "useMemo(() => {" ++ nl ++ codes "    return columns;" ++ nl
  ++ codes "  }, [" ++ codes dep ++ codes ", handleDelete])".

(** [l] is a prefix of no [a2 ++ b] with [a2] a suffix of [a]. *)
Fixpoint tails_ok (l a b : text) : bool :=
  negb (prefixb l (a ++ b))
  && match a with
     | [] => true
     | _ :: a' => tails_ok l a' b
     end.

(** Two texts differ at a position that both have. *)
Fixpoint clash (l r : text) : bool :=
  match l, r with
  | c :: l', d :: r' => negb (N.eqb c d) || clash l' r'
  | _, _ => false
  end.

(** [P] holds of every non-empty tail of [l]. *)
Fixpoint all_tails (P : text -> bool) (l : text) : bool :=
  match l with
  | [] => true
  | _ :: l' => P l && all_tails P l'
  end.

Definition polls_old : text :=
  codes "setPollsSinceLastActive(pollsSinceLastActive + 1)".
Definition polls_new : text :=
  codes "setPollsSinceLastActive((prev) => prev + 1)".

(** [re.sub] of a fixed text [L] by a fixed text [R], from any position. *)
Definition sub_lit (L R : text) (prev : option char) (s : text) : text :=
  sub_go (lit L) [Txt R] prev s 0.

(** The [checkBotTag] effect in any layout the pattern accepts. *)
Definition effect_shape (w1 w2 g1 g2 w3 : text) : text :=
  codes "useEffect(()" ++ w1 ++ codes "=>" ++ w2 ++ codes "{" ++ g1
  ++ codes "checkBotTag();" ++ g2 ++ codes "}," ++ w3 ++ codes "[])".

(** The click handler that only logs, and what replaces it. *)
Definition onclick_handler (w1 w2 args : text) : text :=
  codes "onClick={()" ++ w1 ++ codes "=>" ++ w2 ++ codes "console.log("
  ++ args ++ codes ")}".
Definition onclick_empty : text := codes "onClick={() => {}}".

(** A guarded log call on a line of its own, and the guard without it. *)
Definition guarded_log (w1 args w3 : text) : text :=
  codes "if (shouldLog()) {" ++ nl ++ w1 ++ codes "console.log(" ++ args
  ++ codes ");" ++ nl ++ w3 ++ codes "}".
Definition empty_guard (w3 : text) : text :=
  codes "if (shouldLog()) {" ++ nl ++ nl ++ w3 ++ codes "}".

(** An import declaration that imports [Label] only: [q] is whatever
    stands between [from] and the next semicolon. *)
Definition sole_import (w1 w2 w3 w4 q w5 : text) : text :=
  codes "import" ++ w1 ++ codes "{" ++ w2 ++ codes "Label" ++ w3 ++ codes "}"
  ++ w4 ++ codes "from" ++ q ++ codes ";" ++ w5.

(** The world a call ends in, whether it returns or raises. *)
Definition world_of {A : Type} (r : result A) : world :=
  match r with
  | Ok _ w => w
  | Raised w => w
  end.

(** From [w] to [w'] the path [p] stays missing and nothing that is
    recorded reads or writes it. *)
Definition untouched (p : text) (w w' : world) : Prop :=
  fs w' p = None
  /\ exists new,
      trace w' = trace w ++ new
      /\ Forall (fun e => touches p e = false) new.

(** ** Names and occurrences *)

(** A name without a comma whose first character is not whitespace. *)
Definition plain_name (imp : string) : bool :=
  forallb (not_chr ",") (codes imp)
  && match codes imp with
     | c :: _ => negb (is_space c)
     | [] => false
     end.

(** [first], and then, for each pair of [occs], the name, a comma, the
    whitespace of the pair and the text of the pair. *)
Fixpoint with_occurrences (name first : text) (occs : list (text * text))
  : text :=
  match occs with
  | [] => first
  | (wsp, seg) :: occs' =>
      first ++ name ++ codes "," ++ wsp ++ with_occurrences name seg occs'
  end.

(** The whitespace of every pair is whitespace, and the text of every
    pair does not begin with whitespace. *)
Definition well_spaced (occs : list (text * text)) : bool :=
  forallb (fun o => forallb is_space (fst o) && stops is_space (snd o)) occs.

(** What the rules before [NAME,\s*] for [Popover] are. *)
Definition rules_before_popover : list re :=
  [re_import_tags; re_trailing "Tags"; re_leading_brace "Tags";
   re_trailing "Popover"].

Definition tokens_table_path : text :=
  codes "src/app/dashboard/tokens/tokens-table.tsx".

(** A text with the import lines of the names and uses of them outside
    the import lines, and what the pass makes of it. *)
Definition popover_example : text :=
  codes ("import { Popover, PopoverContent, PopoverTrigger } from 'ui/popover';"
         ++ lf ++ "import { Checkbox } from 'ui/checkbox';"
         ++ lf ++ "g(Popover, x); h(Popover,  y); "
         ++ "const ui = { Button, Label };").

Definition popover_example_after : text :=
  codes "g(x); h(y); const ui = { Button};".

(** ** The console line in any text *)

(** Nothing, or a text whose last line is not blank and is ended by its
    newline. *)
Definition after_full_line (A : text) : bool :=
  match rev A with
  | [] => true
  | [_] => false
  | n :: c :: _ => N.eqb n NL && negb (is_space c)
  end.

(** A text with two console lines, a blank line and a line that the
    rule keeps, and what the rule makes of it. *)
Definition console_example : text :=
  codes ("start();" ++ lf ++ "  console.log('a');" ++ lf
         ++ "    console.warn(f(x));" ++ lf ++ lf
         ++ "  console.error(e); " ++ lf ++ "  next();" ++ lf).

Definition console_example_after : text :=
  codes ("start();" ++ lf ++ lf
         ++ "    console.warn(f(x));" ++ lf ++ lf ++ "  next();" ++ lf).

(** A call whose argument text holds a closing parenthesis. *)
Definition kept_line (w1 : text) (name : string) (a1 a2 w2 : text) : text :=
  console_call w1 name (a1 ++ codes ")" ++ a2) w2.

(** The end of the pattern: whitespace and the end of a line. *)
Definition eol_kont : @kont (text * option text) :=
  fun _ s' g' => if at_eol s' then Some (s', g') else None.

(** * Proofs *)

(** ** The engine: basic facts *)

Lemma text_eqb_refl (s : text) : text_eqb s s = true.
Proof.
  induction s as [|c s IH]; simpl; [reflexivity|].
  now rewrite N.eqb_refl, IH.
Qed.

Lemma text_eqb_eq (s t : text) : text_eqb s t = true <-> s = t.
Proof.
  split; [|intros ->; apply text_eqb_refl].
  revert t; induction s as [|c s IH]; intros [|d t]; simpl; try discriminate; auto.
  intros H; apply andb_true_iff in H as [H1 H2].
  apply N.eqb_eq in H1; subst; f_equal; auto.
Qed.

Lemma text_eqb_neq (s t : text) : text_eqb s t = false <-> s <> t.
Proof.
  split.
  - intros H E; apply text_eqb_eq in E; congruence.
  - intros H; destruct (text_eqb s t) eqn:E; [|reflexivity].
    apply text_eqb_eq in E; contradiction.
Qed.

(** When the pattern is found nowhere, [re.sub] returns its input. *)
Lemma sub_go_no_match (r : re) (tpl : template) (s : text) :
  forall prev, search_go r prev s = false -> sub_go r tpl prev s 0 = s.
Proof.
  induction s as [|c s IH]; intros prev H; simpl in *.
  - destruct (match_at r prev []) as [[? ?]|]; [discriminate|reflexivity].
  - destruct (match_at r prev (c :: s)) as [[? ?]|]; [discriminate|].
    f_equal; auto.
Qed.

Lemma sub_no_match (r : re) (tpl : template) (s : text) :
  search r s = false -> sub r tpl s = s.
Proof. apply sub_go_no_match. Qed.

Lemma writes_app (t1 t2 : list event) : writes (t1 ++ t2) = writes t1 ++ writes t2.
Proof. apply filter_app. Qed.

(** A pass that maps the content to itself reads the file and does
    nothing else. *)
Lemma run_pass_unchanged (f : text -> text) (path content : text)
      (wr : bool) (w : world) :
  fs w path = Some (File content wr) -> f content = content ->
  run_pass f path w = Ok false (log (EvRead path) w).
Proof.
  intros Hfs Hf; unfold run_pass, read_file; rewrite Hfs, Hf.
  now rewrite text_eqb_refl.
Qed.

(** ** Texts without trigger patterns *)

Ltac in_rules :=
  unfold all_rules, console_rules, unused_rules, hook_rules,
    imports_to_remove, import_rules;
  cbn [app flat_map In];
  repeat (first [left; reflexivity | right]).

Lemma no_trigger_sub (content : text) (r : re) (tpl : template) :
  no_trigger content = true -> In r all_rules -> sub r tpl content = content.
Proof.
  intros H Hin; apply sub_no_match.
  unfold no_trigger in H; rewrite forallb_forall in H.
  specialize (H r Hin); now apply negb_true_iff in H.
Qed.

Lemma no_trigger_console (content : text) :
  no_trigger content = true -> remove_console_logs_text content = content.
Proof.
  intros H; unfold remove_console_logs_text.
  repeat (rewrite (no_trigger_sub content) by (assumption || in_rules)).
  reflexivity.
Qed.

Lemma no_trigger_unused (file_path content : text) :
  no_trigger content = true -> fix_unused_imports_text file_path content = content.
Proof.
  intros H; unfold fix_unused_imports_text, remove_import.
  cbn [fold_left imports_to_remove].
  repeat match goal with |- context [if ?b then _ else _] => destruct b end;
    repeat (rewrite (no_trigger_sub content) by (assumption || in_rules));
    reflexivity.
Qed.

Lemma no_trigger_hooks (file_path content : text) :
  no_trigger content = true ->
  fix_hook_dependencies_text file_path content = content.
Proof.
  intros H; unfold fix_hook_dependencies_text.
  repeat match goal with |- context [if ?b then _ else _] => destruct b end;
    repeat (rewrite (no_trigger_sub content) by (assumption || in_rules));
    reflexivity.
Qed.

(** ** One pass, one file *)

Lemma run_pass_spec (f : text -> text) (path content : text) (w : world) :
  fs w path = Some (File content true) ->
  run_pass f path w =
    Ok (negb (text_eqb (f content) content))
       (World (pass_fs (fs w) path content (f content))
              (trace w ++ pass_events path content (f content))).
Proof.
  intros Hfs; unfold run_pass, read_file, write_file, pass_fs, pass_events.
  rewrite Hfs.
  destruct (text_eqb (f content) content); cbn [negb]; [reflexivity|].
  cbn [fs trace log]. rewrite Hfs. now rewrite <- app_assoc.
Qed.

(** What cannot be read raises at once, and nothing is recorded. *)
Lemma run_pass_unreadable (f : text -> text) (path : text) (w : world) :
  fs w path = Some Unreadable -> run_pass f path w = Raised w.
Proof. intros Hfs; unfold run_pass, read_file; now rewrite Hfs. Qed.

(** A file that may not be written raises when the pass has changed its
    text: after the read, and before anything is written. *)
Lemma run_pass_read_only (f : text -> text) (path content : text) (w : world) :
  fs w path = Some (File content false) -> f content <> content ->
  run_pass f path w = Raised (log (EvRead path) w).
Proof.
  intros Hfs Hf; unfold run_pass, read_file, write_file. rewrite Hfs.
  apply text_eqb_neq in Hf. rewrite Hf. cbn [negb fs log].
  now rewrite Hfs.
Qed.

Lemma pass_fs_same (f : text -> option node) (path old new : text) :
  f path = Some (File old true) ->
  pass_fs f path old new path = Some (File new true).
Proof.
  intros H; unfold pass_fs, fs_write.
  destruct (text_eqb new old) eqn:E.
  - apply text_eqb_eq in E; congruence.
  - now rewrite text_eqb_refl.
Qed.

Lemma pass_fs_other (f : text -> option node) (path old new q : text) :
  q <> path -> pass_fs f path old new q = f q.
Proof.
  intros H; unfold pass_fs, fs_write.
  destruct (text_eqb new old); [reflexivity|].
  apply text_eqb_neq in H; now rewrite H.
Qed.

(** Processing a file that can be read and written always returns; this
    is its result. *)
Lemma process_file_spec (path c0 : text) (w : world) :
  fs w path = Some (File c0 true) ->
  process_file path w =
    Ok (file_fixed path c0)
       (World (file_fs (fs w) path c0) (trace w ++ file_events path c0)).
Proof.
  intros Hfs; unfold process_file, remove_console_logs, fix_unused_imports,
    fix_hook_dependencies.
  rewrite (run_pass_spec _ _ _ _ Hfs).
  erewrite run_pass_spec by (simpl; apply pass_fs_same, Hfs).
  erewrite run_pass_spec
    by (simpl; apply pass_fs_same, pass_fs_same, Hfs).
  simpl. unfold file_fixed, file_fs, file_events, after3, after2, after1.
  now rewrite <- !app_assoc.
Qed.

Lemma process_file_unreadable (path : text) (w : world) :
  fs w path = Some Unreadable -> process_file path w = Raised w.
Proof.
  intros Hfs; unfold process_file, remove_console_logs.
  now rewrite (run_pass_unreadable _ _ _ Hfs).
Qed.

Lemma file_fs_same (f : text -> option node) (path c0 : text) :
  f path = Some (File c0 true) ->
  file_fs f path c0 path = Some (File (after3 path c0) true).
Proof.
  intros H; unfold file_fs; now apply pass_fs_same, pass_fs_same, pass_fs_same.
Qed.

Lemma file_fs_other (f : text -> option node) (path c0 q : text) :
  q <> path -> file_fs f path c0 q = f q.
Proof. intros H; unfold file_fs; now rewrite !pass_fs_other. Qed.

(** C8: a file whose content matches none of the patterns of any rule is
    returned unchanged by each of the three passes, and processing it
    only reads it: the files are as before and no write is recorded.
    Nothing is written, so this holds of a file that may not be written
    as well. *)
Theorem no_trigger_untouched (path content : text) (wr : bool) (w : world) :
  fs w path = Some (File content wr) ->
  no_trigger content = true ->
  remove_console_logs_text content = content
  /\ fix_unused_imports_text path content = content
  /\ fix_hook_dependencies_text path content = content
  /\ process_file path w =
       Ok false
          (World (fs w) (trace w ++ [EvRead path; EvRead path; EvRead path]))
  /\ writes (trace w ++ [EvRead path; EvRead path; EvRead path])
     = writes (trace w).
Proof.
  intros Hfs Hno.
  pose proof (no_trigger_console content Hno) as H1.
  pose proof (no_trigger_unused path content Hno) as H2.
  pose proof (no_trigger_hooks path content Hno) as H3.
  repeat split; try assumption.
  - unfold process_file, remove_console_logs, fix_unused_imports,
      fix_hook_dependencies.
    rewrite (run_pass_unchanged _ path content wr w Hfs H1).
    rewrite (run_pass_unchanged _ path content wr (log (EvRead path) w)
               Hfs H2).
    rewrite (run_pass_unchanged _ path content wr
               (log (EvRead path) (log (EvRead path) w)) Hfs H3).
    unfold log. cbn [fs trace orb]. now rewrite <- !app_assoc.
  - rewrite writes_app; simpl. apply app_nil_r.
Qed.

Lemma no_trigger_untouched_witness :
  let path := codes "src/app/dashboard/trash/page.tsx" in
  let content := codes "export default function Page() { return null; }" in
  let w := one_file path content in
  remove_console_logs_text content = content
  /\ fix_unused_imports_text path content = content
  /\ fix_hook_dependencies_text path content = content
  /\ process_file path w =
       Ok false
          (World (fs w) (trace w ++ [EvRead path; EvRead path; EvRead path]))
  /\ writes (trace w ++ [EvRead path; EvRead path; EvRead path])
     = writes (trace w).
Proof.
  intros path content w.
  apply (no_trigger_untouched path content true w); vm_compute; reflexivity.
Defined.

(** ** Writes of a run on one file *)

Lemma writes_pass_events (path old new : text) :
  writes (pass_events path old new) = pass_writes path old new.
Proof.
  unfold pass_events, pass_writes; simpl.
  now destruct (text_eqb new old).
Qed.

Lemma length_pass_writes (path old new : text) :
  List.length (pass_writes path old new) <= 1.
Proof. unfold pass_writes; destruct (text_eqb new old); simpl; lia. Qed.

(** C3, as stated, fails: on this file every pass changes the text, and
    processing it writes the file three times. *)
Lemma three_writes_one_run :
  exists w',
    process_file three_writes_path
      (one_file three_writes_path three_writes_text) = Ok true w'
    /\ List.length (writes (trace w')) = 3.
Proof. eexists; split; vm_compute; reflexivity. Qed.

(** C3, amended: each pass writes the file at most once, and what it
    writes is its whole output, which is then the content of the file; a
    run on one file therefore writes it at most three times, once for
    each pass that changed the text. *)
Theorem at_most_one_write_per_pass (path c0 : text) (w : world) :
  fs w path = Some (File c0 true) ->
  (forall f : text -> text,
      exists b w1,
        run_pass f path w = Ok b w1
        /\ writes (trace w1) = writes (trace w) ++ pass_writes path c0 (f c0)
        /\ List.length (pass_writes path c0 (f c0)) <= 1
        /\ fs w1 path = Some (File (f c0) true))
  /\ exists b w',
      process_file path w = Ok b w'
      /\ writes (trace w')
         = writes (trace w)
           ++ pass_writes path c0 (after1 c0)
           ++ pass_writes path (after1 c0) (after2 path c0)
           ++ pass_writes path (after2 path c0) (after3 path c0)
      /\ List.length (writes (trace w')) <= List.length (writes (trace w)) + 3
      /\ fs w' path = Some (File (after3 path c0) true).
Proof.
  intros Hfs; split.
  - intros f; do 2 eexists; split; [apply (run_pass_spec f path c0 w Hfs)|].
    simpl; rewrite writes_app, writes_pass_events.
    repeat split; [apply length_pass_writes | now apply pass_fs_same].
  - do 2 eexists; split; [apply (process_file_spec path c0 w Hfs)|].
    simpl; unfold file_events.
    rewrite !writes_app, !writes_pass_events.
    repeat split.
    + rewrite !length_app.
      pose proof (length_pass_writes path c0 (after1 c0)).
      pose proof (length_pass_writes path (after1 c0) (after2 path c0)).
      pose proof (length_pass_writes path (after2 path c0) (after3 path c0)).
      lia.
    + now apply file_fs_same.
Qed.

Lemma at_most_one_write_per_pass_witness :
  let path := three_writes_path in
  let c0 := three_writes_text in
  let w := one_file path c0 in
  (forall f : text -> text,
      exists b w1,
        run_pass f path w = Ok b w1
        /\ writes (trace w1) = writes (trace w) ++ pass_writes path c0 (f c0)
        /\ List.length (pass_writes path c0 (f c0)) <= 1
        /\ fs w1 path = Some (File (f c0) true))
  /\ exists b w',
      process_file path w = Ok b w'
      /\ writes (trace w')
         = writes (trace w)
           ++ pass_writes path c0 (after1 c0)
           ++ pass_writes path (after1 c0) (after2 path c0)
           ++ pass_writes path (after2 path c0) (after3 path c0)
      /\ List.length (writes (trace w')) <= List.length (writes (trace w)) + 3
      /\ fs w' path = Some (File (after3 path c0) true).
Proof.
  intros path c0 w.
  apply (at_most_one_write_per_pass path c0 w); vm_compute; reflexivity.
Defined.

(** ** File-name gating of the unused-symbol pass *)

(** C6, as stated, fails: the pass tests three fragments, not four; and
    with the only four fragments the script has (those of the hook pass)
    a path with none of them is still rewritten. *)
Lemma unused_pass_not_four_fragments :
  List.length unused_fragments = 3
  /\ List.length unused_fragments <> 4
  /\ let path := codes "src/app/dashboard/tokens/token-details-modal.tsx" in
     let content := codes "import { X, Copy } from 'lucide-react';" in
     has_none hook_fragments path = true
     /\ fix_unused_imports_text path content
        = codes "import { Copy } from 'lucide-react';"
     /\ fix_unused_imports_text path content <> content.
Proof.
  split; [reflexivity|]. split; [discriminate|].
  split; [vm_compute; reflexivity|]. split; [vm_compute; reflexivity|].
  vm_compute; discriminate.
Qed.

(** C6, amended: the pass is conditioned on the path containing one of
    three fragments.  For a path with none of the three, every text is
    returned unchanged and the pass only reads the file; each of the
    three fragments does switch rules on. *)
Theorem unused_pass_gated (path content : text) (w : world) :
  has_none unused_fragments path = true ->
  fix_unused_imports_text path content = content
  /\ (forall wr, fs w path = Some (File content wr) ->
      fix_unused_imports path w = Ok false (log (EvRead path) w)
      /\ writes (trace (log (EvRead path) w)) = writes (trace w))
  /\ Forall (fun f : string =>
               exists t, fix_unused_imports_text (codes f) t <> t)
            unused_fragments.
Proof.
  intros H. unfold has_none, unused_fragments in H; simpl in H.
  repeat (apply andb_true_iff in H as [?H H]).
  repeat match goal with
         | H : negb _ = true |- _ => apply negb_true_iff in H
         end.
  assert (E : fix_unused_imports_text path content = content).
  { unfold fix_unused_imports_text.
    repeat match goal with H : in_path _ path = false |- _ => rewrite H; clear H end.
    reflexivity. }
  split; [exact E|]. split.
  - intros wr Hfs; split.
    + unfold fix_unused_imports.
      now apply (run_pass_unchanged _ path content wr).
    + simpl; rewrite writes_app; simpl. apply app_nil_r.
  - unfold unused_fragments; repeat constructor.
    + exists (codes "{ a, Tags }"); vm_compute; discriminate.
    + exists (codes "{ a, X }"); vm_compute; discriminate.
    + exists (codes "{ a, onTagsChange }"); vm_compute; discriminate.
Qed.

Lemma unused_pass_gated_witness :
  let path := codes "src/contexts/WalletTagsContext.tsx" in
  let content := codes "import { X, Tags, Popover } from 'ui';" in
  let w := one_file path content in
  fix_unused_imports_text path content = content
  /\ (forall wr, fs w path = Some (File content wr) ->
      fix_unused_imports path w = Ok false (log (EvRead path) w)
      /\ writes (trace (log (EvRead path) w)) = writes (trace w))
  /\ Forall (fun f : string =>
               exists t, fix_unused_imports_text (codes f) t <> t)
            unused_fragments.
Proof.
  intros path content w.
  apply (unused_pass_gated path content w); vm_compute; reflexivity.
Defined.

(** ** The loop over the path list *)

Lemma process_files_app (base : text) (l1 l2 : list string) :
  forall n w,
    process_files base (l1 ++ l2) n w =
      match process_files base l1 n w with
      | Ok n1 w1 => process_files base l2 n1 w1
      | Raised w1 => Raised w1
      end.
Proof.
  induction l1 as [|rel l1 IH]; intros n w; cbn [app process_files];
    [reflexivity|].
  destruct (fs w (join base rel)); [|apply IH].
  destruct (process_file (join base rel) w) as [[|] w'|w']; auto.
Qed.

Lemma touches_file_events (p path c0 : text) :
  p <> path -> Forall (fun e => touches p e = false) (file_events path c0).
Proof.
  intros H. assert (E : text_eqb path p = false)
    by (apply text_eqb_neq; congruence).
  unfold file_events, pass_events.
  repeat match goal with |- context [if ?b then _ else _] => destruct b end;
    simpl; repeat constructor; simpl; exact E.
Qed.

(** *** Whatever the paths name: a missing path stays out of it *)

Lemma untouched_refl (p : text) (w : world) :
  fs w p = None -> untouched p w w.
Proof.
  intros H; split; [exact H|]. exists []. now rewrite app_nil_r.
Qed.

Lemma untouched_trans (p : text) (w1 w2 w3 : world) :
  untouched p w1 w2 -> untouched p w2 w3 -> untouched p w1 w3.
Proof.
  intros (_ & n1 & T1 & F1) (H & n2 & T2 & F2). split; [exact H|].
  exists (n1 ++ n2). rewrite T2, T1, <- app_assoc. split; [reflexivity|].
  now apply Forall_app.
Qed.

Lemma untouched_print (p line : text) (w : world) :
  fs w p = None -> untouched p w (print line w).
Proof.
  intros H; split; [exact H|]. exists [EvPrint line].
  split; [reflexivity|]. now repeat constructor.
Qed.

Lemma run_pass_untouched (f : text -> text) (p path : text) (w : world) :
  fs w p = None -> untouched p w (world_of (run_pass f path w)).
Proof.
  intros Hp. unfold run_pass, read_file.
  destruct (fs w path) as [[c wr|]|] eqn:Hfs; cbn [world_of];
    try now apply untouched_refl.
  assert (Hne : text_eqb path p = false)
    by (apply text_eqb_neq; congruence).
  assert (Hne' : text_eqb p path = false)
    by (apply text_eqb_neq; congruence).
  destruct (text_eqb (f c) c); cbn [negb world_of].
  - split; [exact Hp|]. exists [EvRead path]. split; [reflexivity|].
    repeat constructor. exact Hne.
  - unfold write_file. cbn [fs log]. rewrite Hfs.
    destruct wr; cbn [world_of].
    + split; [cbn [fs]; unfold fs_write; now rewrite Hne'|].
      exists [EvRead path; EvWrite path (f c)]. cbn [trace log].
      rewrite <- app_assoc. split; [reflexivity|].
      repeat constructor; exact Hne.
    + split; [exact Hp|]. exists [EvRead path]. split; [reflexivity|].
      repeat constructor. exact Hne.
Qed.

Lemma process_file_untouched (p path : text) (w : world) :
  fs w p = None -> untouched p w (world_of (process_file path w)).
Proof.
  intros Hp. unfold process_file, remove_console_logs, fix_unused_imports,
    fix_hook_dependencies.
  pose proof (run_pass_untouched remove_console_logs_text p path w Hp) as U1.
  destruct (run_pass remove_console_logs_text path w) as [b1 w1|w1];
    cbn [world_of] in *; [|exact U1].
  pose proof (run_pass_untouched (fix_unused_imports_text path) p path w1
                (proj1 U1)) as U2.
  destruct (run_pass (fix_unused_imports_text path) path w1) as [b2 w2|w2];
    cbn [world_of] in *; [|exact (untouched_trans _ _ _ _ U1 U2)].
  pose proof (run_pass_untouched (fix_hook_dependencies_text path) p path w2
                (proj1 U2)) as U3.
  pose proof (untouched_trans _ _ _ _ U1 (untouched_trans _ _ _ _ U2 U3)) as U.
  destruct (run_pass (fix_hook_dependencies_text path) path w2) as [b3 w3|w3];
    exact U.
Qed.

(** However the loop ends, a path that names nothing is never created,
    read or written. *)
Lemma process_files_untouched (base p : text) (files : list string) :
  forall n w,
    fs w p = None -> untouched p w (world_of (process_files base files n w)).
Proof.
  induction files as [|rel files IH]; intros n w Hp; cbn [process_files].
  - now apply untouched_refl.
  - destruct (fs w (join base rel)) as [nd|] eqn:Hfs.
    + pose proof (process_file_untouched p (join base rel) w Hp) as U.
      destruct (process_file (join base rel) w) as [[|] w'|w'];
        cbn [world_of] in U; [| |exact U];
        (eapply untouched_trans; [exact U|]);
        (eapply untouched_trans;
         [apply untouched_print; exact (proj1 U)|]);
        apply IH; exact (proj1 U).
    + eapply untouched_trans; [apply untouched_print; exact Hp|].
      apply IH. exact Hp.
Qed.

(** *** When every listed path can be read and written *)

Lemma codes_inj (a b : string) : codes a = codes b -> a = b.
Proof.
  revert b; induction a as [|x a IH]; intros [|y b] H; try discriminate;
    [reflexivity|].
  cbn [codes] in H. injection H as Hc H. f_equal; [|now apply IH].
  unfold code in Hc.
  rewrite <- (ascii_N_embedding x), <- (ascii_N_embedding y). now rewrite Hc.
Qed.

Lemma join_inj (base : text) (a b : string) :
  join base a = join base b -> a = b.
Proof.
  unfold join; intros H. apply app_inv_head in H. apply app_inv_head in H.
  now apply codes_inj.
Qed.

Lemma prints_app (a b : list event) : prints (a ++ b) = prints a ++ prints b.
Proof.
  induction a as [|[p|p c|l] a IH]; cbn [prints app]; [reflexivity| | |];
    now rewrite IH.
Qed.

Lemma prints_file_events (path c0 : text) : prints (file_events path c0) = [].
Proof.
  unfold file_events, pass_events.
  repeat match goal with |- context [if ?b then _ else _] => destruct b end;
    reflexivity.
Qed.

Lemma existsb_join_false (base : text) (rel : string) (rest : list string) :
  ~ In rel rest ->
  existsb (fun r => text_eqb (join base rel) (join base r)) rest = false.
Proof.
  intros Hn. induction rest as [|r rest IH]; [reflexivity|].
  cbn [existsb]. rewrite IH by (intros H; apply Hn; now right).
  rewrite orb_false_r. apply text_eqb_neq. intros E.
  apply join_inj in E. apply Hn. now left.
Qed.

Lemma run_events_ext (base : text) (f g : text -> option node)
      (files : list string) :
  (forall r, In r files -> f (join base r) = g (join base r)) ->
  run_events base files f = run_events base files g.
Proof.
  induction files as [|r files IH]; intros H; [reflexivity|].
  unfold run_events in *. cbn [flat_map].
  rewrite IH by (intros r' Hr; apply H; now right).
  f_equal. unfold path_events, line_for. now rewrite (H r (or_introl eq_refl)).
Qed.

Lemma all_usable_ext (base : text) (f g : text -> option node)
      (files : list string) :
  (forall r, In r files -> f (join base r) = g (join base r)) ->
  all_usable base files f = all_usable base files g.
Proof.
  induction files as [|r files IH]; intros H; [reflexivity|].
  unfold all_usable in *. cbn [forallb].
  rewrite IH by (intros r' Hr; apply H; now right).
  f_equal. unfold usable. now rewrite (H r (or_introl eq_refl)).
Qed.

Lemma prints_run_events (base : text) (f : text -> option node)
      (files : list string) :
  all_usable base files f = true ->
  prints (run_events base files f) = map (line_for base f) files.
Proof.
  induction files as [|r files IH]; intros H; [reflexivity|].
  cbn [all_usable forallb] in H. apply andb_true_iff in H as [Hr H].
  unfold run_events in *. cbn [flat_map map].
  rewrite prints_app, (IH H). f_equal.
  unfold path_events, line_for, usable in *.
  destruct (f (join base r)) as [[c wr|]|]; [|discriminate|reflexivity].
  rewrite prints_app, prints_file_events. reflexivity.
Qed.

(** The loop on a list without repetitions whose paths can all be read
    and written, in one statement: it completes, and the files, the
    record of what happened and the count are read off the files as they
    were before the run. *)
Lemma process_files_result (base : text) (files : list string) :
  NoDup files ->
  forall n w,
  all_usable base files (fs w) = true ->
  exists n' w',
    process_files base files n w = Ok n' w'
    /\ (forall q, fs w' q = final_fs base files (fs w) q)
    /\ trace w' = trace w ++ run_events base files (fs w)
    /\ n' = n + List.length (filter (counted base (fs w)) files).
Proof.
  induction 1 as [|rel rest Hnotin Hnd IH]; intros n w Hu.
  - exists n, w. cbn [process_files run_events flat_map filter List.length].
    rewrite app_nil_r. repeat split; [|lia].
    intros q. unfold final_fs. cbn [existsb]. now destruct (fs w q) as [[? ?|]|].
  - cbn [all_usable forallb] in Hu. apply andb_true_iff in Hu as [Hur Hu].
    fold (all_usable base rest (fs w)) in Hu.
    cbn [process_files]. unfold usable in Hur.
    destruct (fs w (join base rel)) as [[c0 wr|]|] eqn:Hfs; [|discriminate|].
    + subst wr. rewrite (process_file_spec _ c0 w Hfs).
      assert (Hother : forall r, In r rest ->
                 file_fs (fs w) (join base rel) c0 (join base r)
                 = fs w (join base r)).
      { intros r Hr. apply file_fs_other. intros E. apply join_inj in E.
        subst r. contradiction. }
      assert (Hfinal : forall q,
                 final_fs base rest (file_fs (fs w) (join base rel) c0) q
                 = final_fs base (rel :: rest) (fs w) q).
      { intros q. unfold final_fs. cbn [existsb].
        destruct (text_eqb q (join base rel)) eqn:Eq.
        - apply text_eqb_eq in Eq. subst q.
          rewrite (file_fs_same _ _ _ Hfs), Hfs.
          rewrite (existsb_join_false base rel rest Hnotin).
          reflexivity.
        - apply text_eqb_neq in Eq. rewrite (file_fs_other _ _ _ _ Eq).
          reflexivity. }
      assert (Hl : line_for base (fs w) rel
                   = if file_fixed (join base rel) c0
                     then ok_line rel else no_change_line rel)
        by (unfold line_for; now rewrite Hfs).
      assert (Hc : counted base (fs w) rel = file_fixed (join base rel) c0)
        by (unfold counted; now rewrite Hfs).
      assert (He : path_events base (fs w) rel
                   = file_events (join base rel) c0
                     ++ [EvPrint (line_for base (fs w) rel)])
        by (unfold path_events; now rewrite Hfs).
      unfold run_events. cbn [flat_map filter].
      fold (run_events base rest (fs w)). rewrite He, Hl, Hc.
      destruct (file_fixed (join base rel) c0) eqn:Hfix;
        match goal with
        | |- context [process_files base rest ?k ?v] =>
            destruct (IH k v) as (n' & w' & Hrun & Hfsw & Htr & Hn);
              [cbn [fs print log];
               rewrite (all_usable_ext base _ (fs w) rest Hother); exact Hu|]
        end;
        exists n', w'; (split; [exact Hrun|]);
        cbn [fs trace print log] in Hfsw, Htr, Hn;
        rewrite (run_events_ext base _ (fs w) rest Hother) in Htr;
        rewrite (filter_ext_in _ (counted base (fs w))) in Hn
          by (intros r Hr; unfold counted; now rewrite (Hother r Hr));
        (split; [intros q; rewrite Hfsw; apply Hfinal|]);
        (split;
         [rewrite Htr; now rewrite <- !app_assoc
         |cbn [List.length]; lia]).
    + destruct (IH n (print (skip_line rel) w) Hu)
        as (n' & w' & Hrun & Hfsw & Htr & Hn).
      exists n', w'. split; [exact Hrun|].
      cbn [fs trace print log] in Hfsw, Htr, Hn.
      split; [|split].
      * intros q. rewrite Hfsw. unfold final_fs. cbn [existsb].
        destruct (text_eqb q (join base rel)) eqn:Eq; [|reflexivity].
        apply text_eqb_eq in Eq. subst q. now rewrite Hfs.
      * assert (He : path_events base (fs w) rel = [EvPrint (skip_line rel)])
          by (unfold path_events; now rewrite Hfs).
        unfold run_events. cbn [flat_map].
        fold (run_events base rest (fs w)). rewrite He, Htr.
        now rewrite <- app_assoc.
      * assert (Hc : counted base (fs w) rel = false)
          by (unfold counted; now rewrite Hfs).
        cbn [filter]. rewrite Hc. exact Hn.
Qed.

Lemma files_to_process_nodup : NoDup files_to_process.
Proof.
  unfold files_to_process.
  repeat (constructor;
          [cbn [In]; intros H;
           repeat (destruct H as [H|H]; [discriminate H|]); exact H|]).
  constructor.
Qed.

Lemma final_fs_listed (base : text) (files : list string)
      (f : text -> option node) (rel : string) (c : text) (wr : bool) :
  In rel files -> f (join base rel) = Some (File c wr) ->
  final_fs base files f (join base rel)
  = Some (File (after3 (join base rel) c) wr).
Proof.
  intros Hin Hc. unfold final_fs. rewrite Hc.
  assert (E : existsb (fun r => text_eqb (join base rel) (join base r)) files
              = true).
  { apply existsb_exists. exists rel. split; [exact Hin|].
    apply text_eqb_refl. }
  now rewrite E.
Qed.

Lemma final_fs_unlisted (base : text) (files : list string)
      (f : text -> option node) (q : text) :
  (forall rel, In rel files -> q <> join base rel) ->
  final_fs base files f q = f q.
Proof.
  intros Hq. unfold final_fs.
  destruct (f q) as [[c wr|]|]; try reflexivity.
  assert (E : existsb (fun r => text_eqb q (join base r)) files = false).
  { destruct (existsb _ files) eqn:E; [|reflexivity].
    apply existsb_exists in E as (rel & Hin & E).
    apply text_eqb_eq in E. now destruct (Hq rel Hin). }
  now rewrite E.
Qed.



(** ** The engine: scanning *)

Lemma end_prev_app (prev : option char) (s t : text) :
  end_prev prev (s ++ t) = end_prev (end_prev prev s) t.
Proof. apply fold_left_app. Qed.

(** Dropping the rest of a match. *)
Lemma sub_go_skip (r : re) (tpl : template) (x post : text) :
  forall prev,
    sub_go r tpl prev (x ++ post) (List.length x)
    = sub_go r tpl (end_prev prev x) post 0.
Proof.
  induction x as [|c x IH]; intros prev; [reflexivity|].
  cbn [app List.length sub_go]. apply IH.
Qed.

(** A non-empty match at the current position is replaced, and scanning
    resumes behind it. *)
Lemma sub_go_match (r : re) (tpl : template) (prev : option char)
      (mt post : text) (g : option text) :
  mt <> [] ->
  match_at r prev (mt ++ post) = Some (post, g) ->
  sub_go r tpl prev (mt ++ post) 0
  = expand tpl g ++ sub_go r tpl (end_prev prev mt) post 0.
Proof.
  intros Hne Hm. destruct mt as [|c mt]; [contradiction|].
  cbn [app sub_go]. cbn [app] in Hm. rewrite Hm.
  replace (List.length (c :: mt ++ post) - List.length post)
    with (S (List.length mt))
    by (cbn [List.length]; rewrite length_app; lia).
  f_equal. apply (sub_go_skip r tpl mt post (Some c)).
Qed.

(** A pattern that begins with a literal fails where the literal is not
    found. *)
Lemma m_lit_fail {A : Type} (l : text) (r : re) :
  forall prev s g (k : @kont A),
    prefixb l s = false -> m (Cat (lit l) r) prev s g k = None.
Proof.
  induction l as [|c l IH]; intros prev s g k H; [discriminate|].
  destruct s as [|d s]; [reflexivity|].
  cbn [prefixb] in H. cbn [lit m].
  rewrite N.eqb_sym. destruct (N.eqb c d); [|reflexivity].
  cbn [andb] in H. specialize (IH (Some d) s g k H). exact IH.
Qed.

(** ** The [checkBotTag] effect *)

(** C4, as stated, fails: the one-line block is matched, but what replaces
    it is the three-line layout of the replacement string, not the
    one-line text with the dependency added. *)
Lemma effect_block_not_one_line :
  fix_hook_dependencies_text (codes "src/components/additional-tags.tsx")
    effect_block = effect_block_rewritten
  /\ effect_block_rewritten <> effect_block_claimed.
Proof. split; [vm_compute; reflexivity | vm_compute; discriminate]. Qed.

(** ** Running the script twice *)

(** C1: the rewrite of the [fetchTags] effect matches its own output.  On
    the shape it targets, the first run adds [fetchTags] to the dependency
    list; a second run on the result adds it again, overwrites the
    condition of the [if] with the whole list, and writes the file. *)
Lemma wallet_rewrite_fires_twice :
  after3 wallet_path wallet_effect = wallet_effect_once
  /\ after3 wallet_path wallet_effect_once = wallet_effect_twice
  /\ wallet_effect_twice <> wallet_effect_once
  /\ exists w1 w2,
      process_file wallet_path (one_file wallet_path wallet_effect)
        = Ok true w1
      /\ fs w1 wallet_path = Some (File wallet_effect_once true)
      /\ process_file wallet_path w1 = Ok true w2
      /\ fs w2 wallet_path = Some (File wallet_effect_twice true).
Proof.
  split; [vm_compute; reflexivity|].
  split; [vm_compute; reflexivity|].
  split; [vm_compute; discriminate|].
  do 2 eexists.
  split; [vm_compute; reflexivity|].
  split; [vm_compute; reflexivity|].
  split; vm_compute; reflexivity.
Qed.

(** ** Blank lines *)

Lemma star_nl_total {A : Type} (k : @kont A) (j : text -> option text -> A) :
  (forall a b c, k a b c = Some (j b c)) ->
  forall s prev g, star_m (N.eqb NL) prev s g k = Some (j (drop_nl s) g).
Proof.
  intros Hk; induction s as [|c s IH]; intros prev g; cbn [star_m drop_nl];
    [apply Hk|].
  destruct (N.eqb NL c); [|apply Hk].
  now rewrite IH.
Qed.

Lemma match_blank_lines (prev : option char) (s : text) :
  match_at re_blank_lines prev s =
    match s with
    | c1 :: c2 :: c3 :: s3 =>
        if N.eqb NL c1 && N.eqb NL c2 && N.eqb NL c3
        then Some (drop_nl s3, None) else None
    | _ => None
    end.
Proof.
  unfold match_at, re_blank_lines; cbn [cat m].
  destruct s as [|c1 [|c2 [|c3 s3]]]; try reflexivity.
  - now destruct (N.eqb c1 NL).
  - destruct (N.eqb c1 NL); [|reflexivity]. now destruct (N.eqb c2 NL).
  - rewrite (N.eqb_sym NL c1), (N.eqb_sym NL c2).
    destruct (N.eqb c1 NL); [|reflexivity].
    destruct (N.eqb c2 NL); [|reflexivity].
    cbn [andb]. destruct (N.eqb NL c3); [|reflexivity].
    apply (star_nl_total _ (fun b c => (b, c))). reflexivity.
Qed.

Lemma take_drop_nl (s : text) : take_nl s ++ drop_nl s = s.
Proof.
  induction s as [|c s IH]; cbn [take_nl drop_nl]; [reflexivity|].
  destruct (N.eqb NL c); [cbn [app]; now rewrite IH | reflexivity].
Qed.

Lemma length_take_nl (s : text) :
  List.length (take_nl s) = leading_blank_lines s.
Proof.
  induction s as [|c s IH]; cbn [take_nl leading_blank_lines]; [reflexivity|].
  destruct (N.eqb NL c); [cbn [List.length]; now rewrite IH | reflexivity].
Qed.

Lemma length_drop_nl (s : text) : List.length (drop_nl s) <= List.length s.
Proof.
  induction s as [|c s IH]; cbn [drop_nl]; [lia|].
  destruct (N.eqb NL c); cbn [List.length]; lia.
Qed.

Lemma match_blank_lines_leading (prev : option char) (s : text) :
  match_at re_blank_lines prev s =
    if 3 <=? leading_blank_lines s then Some (drop_nl s, None) else None.
Proof.
  rewrite match_blank_lines.
  destruct s as [|c1 [|c2 [|c3 s3]]]; cbn [leading_blank_lines drop_nl];
    try reflexivity;
    repeat match goal with
           | |- context [N.eqb NL ?c] => destruct (N.eqb NL c)
           end; reflexivity.
Qed.

Lemma squeeze_go_drop (s : text) :
  forall run, 2 <= run -> squeeze_go run s = squeeze_go 0 (drop_nl s).
Proof.
  induction s as [|c s IH]; intros run Hr; cbn [squeeze_go drop_nl];
    [reflexivity|].
  destruct (N.eqb NL c) eqn:E.
  - destruct (Nat.ltb_spec run 2); [lia|]. apply IH; lia.
  - cbn [squeeze_go]. now rewrite E.
Qed.

(** The rule computes [squeeze]. *)
Lemma sub_go_squeeze (n : nat) :
  forall s prev run,
    List.length s <= n ->
    run = 0 \/ run + leading_blank_lines s <= 2 ->
    sub_go re_blank_lines [Txt [NL; NL]] prev s 0 = squeeze_go run s.
Proof.
  induction n as [|n IH]; intros s prev run Hlen Hrun.
  - destruct s; [|cbn [List.length] in Hlen; lia].
    cbn [sub_go squeeze_go]. now rewrite match_blank_lines_leading.
  - destruct s as [|c s]; [cbn [sub_go squeeze_go];
                           now rewrite match_blank_lines_leading|].
    cbn [List.length] in Hlen.
    destruct (Nat.leb_spec 3 (leading_blank_lines (c :: s))) as [H3|H3].
    + (* a run of three or more newlines starts here *)
      assert (run = 0) by lia; subst run.
      pose proof (take_drop_nl (c :: s)) as Hsplit.
      pose proof (length_take_nl (c :: s)) as Htake.
      rewrite <- Hsplit.
      rewrite (sub_go_match _ _ prev (take_nl (c :: s)) (drop_nl (c :: s)) None).
      * cbn [expand app].
        rewrite (IH (drop_nl (c :: s)) _ 0).
        -- rewrite Hsplit.
           cbn [leading_blank_lines] in H3.
           destruct (N.eqb NL c) eqn:Ec; [|lia].
           destruct s as [|c2 s]; [cbn in H3; lia|].
           cbn [leading_blank_lines] in H3.
           destruct (N.eqb NL c2) eqn:Ec2; [|lia].
           apply N.eqb_eq in Ec, Ec2; subst c c2.
           cbn [squeeze_go drop_nl]. rewrite !N.eqb_refl.
           cbn [Nat.ltb Nat.leb]. f_equal. f_equal.
           symmetry. apply squeeze_go_drop. lia.
        -- cbn [drop_nl]. cbn [leading_blank_lines] in H3.
           destruct (N.eqb NL c); [|lia].
           pose proof (length_drop_nl s). lia.
        -- now left.
      * intros E; rewrite E in Htake; cbn [List.length] in Htake. lia.
      * rewrite Hsplit, match_blank_lines_leading.
        destruct (Nat.leb_spec 3 (leading_blank_lines (c :: s))); [reflexivity|lia].
    + (* no match at this position: the character is copied *)
      cbn [sub_go]. rewrite match_blank_lines_leading.
      destruct (Nat.leb_spec 3 (leading_blank_lines (c :: s))); [lia|].
      cbn [squeeze_go]. cbn [leading_blank_lines] in H3, Hrun.
      destruct (N.eqb NL c).
      * destruct (Nat.ltb_spec run 2); [|lia].
        f_equal. apply IH; [lia|right; lia].
      * f_equal. apply IH; [lia|now left].
Qed.

Lemma collapse_squeeze (s : text) : collapse s = squeeze s.
Proof.
  apply (sub_go_squeeze (List.length s)); [lia | now left].
Qed.

Lemma squeeze_go_app (x y : text) :
  forall run,
    squeeze_go run (x ++ y) = squeeze_go run x ++ squeeze_go (run_after run x) y.
Proof.
  induction x as [|c x IH]; intros run; [reflexivity|].
  cbn [app squeeze_go run_after fold_left].
  destruct (N.eqb NL c); [destruct (run <? 2)|]; cbn [app];
    try f_equal; apply IH.
Qed.

Lemma run_after_last (run : nat) (pre : text) (c : char) :
  c <> NL -> run_after run (pre ++ [c]) = 0.
Proof.
  intros Hc; unfold run_after; rewrite fold_left_app; cbn [fold_left].
  destruct (N.eqb_spec NL c); [congruence|reflexivity].
Qed.

Lemma drop_nl_id (s : text) : leading_blank_lines s = 0 -> drop_nl s = s.
Proof.
  destruct s as [|c s]; [reflexivity|]; cbn [leading_blank_lines drop_nl].
  now destruct (N.eqb NL c).
Qed.

Lemma squeeze_run (k : nat) (post : text) :
  2 <= k -> leading_blank_lines post = 0 ->
  squeeze_go 0 (repeat NL k ++ post) = NL :: NL :: squeeze_go 0 post.
Proof.
  intros Hk Hpost. destruct k as [|[|k]]; try lia.
  cbn [repeat app squeeze_go]. rewrite N.eqb_refl. cbn [Nat.ltb Nat.leb].
  do 2 f_equal. rewrite squeeze_go_drop by lia.
  f_equal. clear Hk. induction k as [|k IH]; cbn [repeat app drop_nl].
  - now apply drop_nl_id.
  - now rewrite N.eqb_refl.
Qed.

Lemma prefixb_triple (t : text) :
  prefixb triple_nl t = (3 <=? leading_blank_lines t).
Proof.
  unfold triple_nl.
  destruct t as [|c1 [|c2 [|c3 t]]]; cbn [prefixb leading_blank_lines];
    repeat match goal with
           | |- context [N.eqb NL ?c] => destruct (N.eqb NL c)
           end; reflexivity.
Qed.

Lemma squeeze_go_no_triple (s : text) :
  forall run,
    leading_blank_lines (squeeze_go run s) + Nat.min run 2 <= 2
    /\ contains triple_nl (squeeze_go run s) = false.
Proof.
  induction s as [|c s IH]; intros run; cbn [squeeze_go].
  - split; [cbn; lia | reflexivity].
  - destruct (N.eqb NL c) eqn:E.
    + destruct (Nat.ltb_spec run 2).
      * destruct (IH (S run)) as [H1 H2].
        cbn [contains leading_blank_lines]. rewrite E, prefixb_triple.
        cbn [leading_blank_lines]; rewrite E. split; [lia|].
        rewrite H2, orb_false_r. apply Nat.leb_gt. lia.
      * destruct (IH (S run)) as [H1 H2]. split; [lia|exact H2].
    + destruct (IH 0) as [H1 H2].
      cbn [contains leading_blank_lines]. rewrite E, prefixb_triple.
      cbn [leading_blank_lines]; rewrite E. split; [lia|].
      now rewrite H2.
Qed.

Lemma collapse_no_triple (s : text) : contains triple_nl (collapse s) = false.
Proof. rewrite collapse_squeeze. apply squeeze_go_no_triple. Qed.

(** C7, as stated, fails at the start of a text: three empty lines there
    are a run of three newline characters, which the rule replaces by two
    newline characters, that is two empty lines and not one. *)
Lemma leading_blank_lines_not_one :
  leading_blank_lines three_blank_lines_first = 3
  /\ collapse three_blank_lines_first = NL :: NL :: codes "x"
  /\ remove_console_logs_text three_blank_lines_first = NL :: NL :: codes "x"
  /\ leading_blank_lines (remove_console_logs_text three_blank_lines_first) = 2.
Proof. repeat split; vm_compute; reflexivity. Qed.

(** C7, amended: the final rule replaces every run of three or more
    newline characters by exactly two newline characters: after a line
    this leaves exactly one empty line, at the start of the text two.  The
    output of the pass contains no three consecutive newline characters,
    hence no run of three empty lines. *)
Theorem blank_lines_collapsed (content pre post : text) (c : char) (k : nat) :
  c <> NL ->
  leading_blank_lines post = 0 ->
  3 <= k ->
  contains triple_nl (remove_console_logs_text content) = false
  /\ collapse (pre ++ [c] ++ repeat NL k ++ post)
     = collapse (pre ++ [c]) ++ [NL; NL] ++ collapse post
  /\ collapse (repeat NL k ++ post) = [NL; NL] ++ collapse post.
Proof.
  intros Hc Hpost Hk. split; [apply collapse_no_triple|].
  rewrite !collapse_squeeze. unfold squeeze. split.
  - rewrite app_assoc, squeeze_go_app, run_after_last by exact Hc.
    f_equal. apply squeeze_run; [lia|exact Hpost].
  - apply squeeze_run; [lia|exact Hpost].
Qed.

Lemma blank_lines_collapsed_witness :
  let content := codes ("a" ++ lf ++ "console.log(1);" ++ lf ++ lf ++ lf ++ lf ++ "b") in
  let pre := codes "a;" in
  let post := codes "b;" in
  contains triple_nl (remove_console_logs_text content) = false
  /\ collapse (pre ++ [code "}"] ++ repeat NL 4 ++ post)
     = collapse (pre ++ [code "}"]) ++ [NL; NL] ++ collapse post
  /\ collapse (repeat NL 4 ++ post) = [NL; NL] ++ collapse post.
Proof.
  intros content pre post.
  apply (blank_lines_collapsed content pre post (code "}") 4);
    [vm_compute; discriminate | reflexivity | lia].
Defined.

(** ** The engine: literals and greedy classes *)

Lemma m_lit {A : Type} (l : text) :
  forall prev s g (k : @kont A),
    m (lit l) prev (l ++ s) g k = k (end_prev prev l) s g.
Proof.
  induction l as [|c l IH]; intros prev s g k; [reflexivity|].
  cbn [lit m app]. rewrite N.eqb_refl. apply IH.
Qed.

(** When whatever follows succeeds, a greedy class takes all it can. *)
Lemma star_total {A : Type} (p : char -> bool) (k : @kont A)
      (j : text -> option text -> A) :
  (forall a b c, k a b c = Some (j b c)) ->
  forall s prev g, star_m p prev s g k = Some (j (drop_while p s) g).
Proof.
  intros Hk; induction s as [|c s IH]; intros prev g;
    cbn [star_m drop_while]; [apply Hk|].
  destruct (p c); [|apply Hk].
  now rewrite IH.
Qed.

Lemma drop_while_app (p : char -> bool) (x y : text) :
  forallb p x = true -> stops p y = true -> drop_while p (x ++ y) = y.
Proof.
  intros Hx Hy; induction x as [|c x IH]; cbn [app drop_while].
  - destruct y as [|d y]; [reflexivity|]. cbn [stops] in Hy.
    cbn [drop_while]. apply negb_true_iff in Hy. now rewrite Hy.
  - cbn [forallb] in Hx. apply andb_true_iff in Hx as [Hc Hx].
    rewrite Hc. now apply IH.
Qed.

(** [NAME,\s*] matches wherever the name and a comma stand, whatever
    comes before or after, and takes the whitespace that follows. *)
Lemma match_leading_any (imp : string) (prev : option char) (rest : text) :
  match_at (re_leading imp) prev (codes imp ++ codes "," ++ rest)
  = Some (drop_while is_space rest, None).
Proof.
  unfold match_at, re_leading, str. cbn [cat m].
  rewrite m_lit, m_lit. cbn [m]. unfold ws. cbn [m].
  now rewrite (star_total is_space _ (fun b c => (b, c))).
Qed.

(** [NAME,\s*] at an occurrence of the name, a comma and whitespace. *)
Lemma match_leading (imp : string) (prev : option char) (wsp post : text) :
  forallb is_space wsp = true -> stops is_space post = true ->
  match_at (re_leading imp) prev (codes imp ++ codes "," ++ wsp ++ post)
  = Some (post, None).
Proof.
  intros Hw Hp. unfold match_at, re_leading, str. cbn [cat m].
  rewrite m_lit, m_lit. cbn [m]. unfold ws. cbn [m].
  rewrite (star_total is_space _ (fun b c => (b, c))) by reflexivity.
  now rewrite drop_while_app.
Qed.

Lemma sub_go_copy_prefix (l : text) (r : re) (tpl : template) :
  (forall prev s, prefixb l s = false -> match_at r prev s = None) ->
  forall pre rest prev,
    starts_before l pre rest = false ->
    sub_go r tpl prev (pre ++ rest) 0
    = pre ++ sub_go r tpl (end_prev prev pre) rest 0.
Proof.
  intros Hl; induction pre as [|c pre IH]; intros rest prev H; [reflexivity|].
  cbn [starts_before] in H; apply orb_false_iff in H as [H1 H2].
  cbn [app] in H1. cbn [app sub_go]. rewrite (Hl prev _ H1).
  f_equal. apply (IH rest (Some c) H2).
Qed.

Lemma m_lit2_fail {A : Type} (l1 l2 : text) (r : re) :
  forall prev s g (k : @kont A),
    prefixb (l1 ++ l2) s = false ->
    m (Cat (lit l1) (Cat (lit l2) r)) prev s g k = None.
Proof.
  induction l1 as [|c l1 IH]; intros prev s g k H.
  - cbn [lit m]. now apply (m_lit_fail l2 r).
  - destruct s as [|d s]; [reflexivity|].
    cbn [app prefixb] in H. cbn [lit m].
    rewrite N.eqb_sym. destruct (N.eqb c d); [|reflexivity].
    cbn [andb] in H. exact (IH (Some d) s g k H).
Qed.

(** ** The engine: what a match consists of *)

Lemma m_lit_inv {A : Type} (l : text) :
  forall prev s g (k : @kont A) a,
    m (lit l) prev s g k = Some a ->
    exists y, s = l ++ y /\ k (end_prev prev l) y g = Some a.
Proof.
  induction l as [|c l IH]; intros prev s g k a H.
  - exists s; split; [reflexivity|exact H].
  - cbn [lit m] in H. destruct s as [|d s]; [discriminate|].
    destruct (N.eqb_spec d c) as [->|]; [|discriminate].
    destruct (IH _ _ _ _ _ H) as (y & -> & Hk).
    exists y; split; [reflexivity|exact Hk].
Qed.

Lemma star_inv {A : Type} (p : char -> bool) (k : @kont A) :
  forall s prev g a,
    star_m p prev s g k = Some a ->
    exists x y, s = x ++ y /\ forallb p x = true
                /\ k (end_prev prev x) y g = Some a.
Proof.
  induction s as [|c s IH]; intros prev g a H; cbn [star_m] in H.
  - exists [], []; repeat split; exact H.
  - destruct (p c) eqn:Hc.
    + destruct (star_m p (Some c) s g k) as [a'|] eqn:Hs.
      * injection H as <-. destruct (IH _ _ _ Hs) as (x & y & -> & Hx & Hk).
        exists (c :: x), y; repeat split; [|exact Hk].
        cbn [forallb]; now rewrite Hc.
      * exists [], (c :: s); repeat split; exact H.
    + exists [], (c :: s); repeat split; exact H.
Qed.

(** A greedy class gives up only when what follows fails at every place
    it could stop. *)
Lemma star_none {A : Type} (p : char -> bool) (k : @kont A) (g : option text) :
  forall a b prev,
    forallb p a = true -> stops p b = true ->
    (forall a1 a2, a = a1 ++ a2 -> k (end_prev prev a1) (a2 ++ b) g = None) ->
    star_m p prev (a ++ b) g k = None.
Proof.
  induction a as [|c a IH]; intros b prev Ha Hb Hk.
  - cbn [app]. specialize (Hk [] [] eq_refl). cbn [app end_prev fold_left] in Hk.
    destruct b as [|d b]; cbn [star_m]; [exact Hk|].
    cbn [stops] in Hb. apply negb_true_iff in Hb. now rewrite Hb.
  - cbn [forallb] in Ha. apply andb_true_iff in Ha as [Hc Ha].
    cbn [app star_m]. rewrite Hc.
    rewrite (IH b (Some c) Ha Hb).
    + apply (Hk [] (c :: a) eq_refl).
    + intros a1 a2 ->. apply (Hk (c :: a1) a2 eq_refl).
Qed.

(** A greedy class takes the whole run when what follows succeeds there. *)
Lemma star_take {A : Type} (p : char -> bool) (k : @kont A) (g : option text) :
  forall a b prev r,
    forallb p a = true -> stops p b = true ->
    k (end_prev prev a) b g = Some r ->
    star_m p prev (a ++ b) g k = Some r.
Proof.
  induction a as [|c a IH]; intros b prev r Ha Hb Hk.
  - cbn [app]. cbn [end_prev fold_left] in Hk.
    destruct b as [|d b]; cbn [star_m]; [exact Hk|].
    cbn [stops] in Hb. apply negb_true_iff in Hb. now rewrite Hb.
  - cbn [forallb] in Ha. apply andb_true_iff in Ha as [Hc Ha].
    cbn [app star_m]. rewrite Hc.
    now rewrite (IH b (Some c) r Ha Hb Hk).
Qed.

Ltac alt_case H E :=
  match type of H with
  | match ?x with Some _ => _ | None => _ end = Some _ =>
      destruct x eqn:E; [injection H as ->|]
  end.

Ltac name_found E n :=
  let s3 := fresh "s3" in
  apply m_lit_inv in E as (s3 & -> & E);
  cbv beta in E;
  match type of E with
  | m _ ?p3 _ ?g3 _ = _ =>
      exists n, s3, p3, g3; split; [cbn; tauto|];
      split; [reflexivity|exact E]
  end.

Lemma console_line_match_inv (prev : option char) (s rest : text)
      (g : option text) :
  match_at re_console_line prev s = Some (rest, g) ->
  at_bol prev = true /\ at_eol rest = true
  /\ exists w1 name args w2,
      s = console_call w1 name args w2 ++ rest
      /\ forallb is_space w1 = true
      /\ In name console_names
      /\ forallb (not_chr ")") args = true
      /\ forallb is_space w2 = true.
Proof.
  unfold match_at, re_console_line; cbn [cat m]; intros H.
  destruct (at_bol prev); [|discriminate]. split; [reflexivity|].
  apply star_inv in H as (w1 & s1 & -> & Hw1 & H).
  unfold str in H.
  apply m_lit_inv in H as (s2 & -> & H).
  assert (Hname : exists name s3 p3 g3,
             In name console_names /\ s2 = codes name ++ s3
             /\ m (cat [lit (codes "("); no_rparen; lit (codes ");"); ws; Eol])
                  p3 s3 g3 (fun _ s' g' => Some (s', g')) = Some (rest, g)).
  { alt_case H E1; [name_found E1 "log"%string|].
    alt_case H E2; [name_found E2 "error"%string|].
    alt_case H E3; [name_found E3 "warn"%string|].
    name_found H "info"%string. }
  clear H. destruct Hname as (name & s3 & p3 & g3 & Hin & -> & H).
  cbn [cat m] in H.
  apply m_lit_inv in H as (s4 & -> & H).
  unfold no_rparen in H; cbn [m] in H.
  apply star_inv in H as (args & s5 & -> & Hargs & H).
  apply m_lit_inv in H as (s6 & -> & H).
  unfold ws in H; cbn [m] in H.
  apply star_inv in H as (w2 & s7 & -> & Hw2 & H).
  destruct (at_eol s7) eqn:Heol; [|discriminate].
  injection H as -> _. split; [exact Heol|].
  exists w1, name, args, w2. unfold console_call.
  repeat split; try assumption.
  now rewrite <- !app_assoc.
Qed.

(** ** The standalone console line *)

(** Two ways of cutting a text after a run of a class, each followed by a
    character outside the class, cut at the same place. *)
Lemma run_unique (p : char -> bool) :
  forall x x' y y',
    x ++ y = x' ++ y' ->
    forallb p x = true -> forallb p x' = true ->
    stops p y = true -> stops p y' = true ->
    y <> [] -> y' <> [] ->
    x = x' /\ y = y'.
Proof.
  induction x as [|c x IH]; intros [|c' x'] y y' E Hx Hx' Hy Hy' Ny Ny'.
  - now split.
  - cbn [app] in E; subst y. cbn [stops] in Hy. cbn [forallb] in Hx'.
    apply andb_true_iff in Hx' as [Hc _]. rewrite Hc in Hy; discriminate.
  - cbn [app] in E; subst y'. cbn [stops] in Hy'. cbn [forallb] in Hx.
    apply andb_true_iff in Hx as [Hc _]. rewrite Hc in Hy'; discriminate.
  - cbn [app] in E; injection E as -> E.
    cbn [forallb] in Hx, Hx'.
    apply andb_true_iff in Hx as [_ Hx]. apply andb_true_iff in Hx' as [_ Hx'].
    destruct (IH x' y y' E Hx Hx' Hy Hy' Ny Ny') as [-> ->]. now split.
Qed.

Lemma forallb_app_r {X : Type} (p : X -> bool) (x y : list X) :
  forallb p (x ++ y) = true -> forallb p y = true.
Proof. rewrite forallb_app; intros H; now apply andb_true_iff in H. Qed.

Lemma at_bol_end_prev (prev : option char) (s : text) :
  s <> [] -> forallb not_nl s = true -> @at_bol (end_prev prev s) = false.
Proof.
  revert prev; induction s as [|c s IH]; intros prev Hne H; [contradiction|].
  cbn [forallb] in H; apply andb_true_iff in H as [Hc H].
  cbn [end_prev fold_left]. destruct s as [|d s].
  - cbn [fold_left at_bol]. unfold not_nl in Hc. now apply negb_true_iff in Hc.
  - apply (IH (Some c)); [discriminate|exact H].
Qed.

(** Inside a line the rule cannot match: [^] fails. *)
Lemma console_line_needs_bol (prev : option char) (s : text) :
  @at_bol prev = false -> match_at re_console_line prev s = None.
Proof.
  intros H. destruct (match_at re_console_line prev s) as [[rest g]|] eqn:E;
    [|reflexivity].
  apply console_line_match_inv in E as [Hb _]. congruence.
Qed.

Ltac names_cases H :=
  cbn [In console_names] in H;
  repeat match type of H with
         | _ \/ _ => destruct H as [<-|H]
         | False => destruct H
         end.

Lemma m_lit_none {A : Type} (l : text) :
  forall prev s g (k : @kont A),
    prefixb l s = false -> m (lit l) prev s g k = None.
Proof.
  induction l as [|c l IH]; intros prev s g k H; [discriminate|].
  destruct s as [|d s]; [reflexivity|].
  cbn [prefixb] in H. cbn [lit m].
  rewrite N.eqb_sym. destruct (N.eqb c d); [|reflexivity].
  cbn [andb] in H. exact (IH (Some d) s g k H).
Qed.

Lemma stops_space_not_eol (post : text) :
  post <> [] -> stops is_space post = true -> at_eol post = false.
Proof.
  destruct post as [|c post]; [contradiction|]; intros _ H.
  cbn [stops] in H. cbn [at_eol].
  destruct (N.eqb_spec c NL) as [->|]; [discriminate H|reflexivity].
Qed.

Lemma at_bol_after_call (prev : option char) (x w2 : text) :
  forallb not_nl w2 = true ->
  @at_bol (end_prev prev (x ++ codes ");" ++ w2)) = false.
Proof.
  intros H. rewrite !end_prev_app. destruct w2 as [|c w2]; [reflexivity|].
  apply at_bol_end_prev; [discriminate|exact H].
Qed.

(** C9, as stated, fails in its last part: when the call is on the last
    line of the text, the trailing [\s*] takes the newline and [$] holds
    at the end of the text, so the newline goes with the line. *)
Lemma last_line_newline_deleted :
  sub re_console_line [] last_line_call = []
  /\ remove_console_logs_text last_line_call = []
  /\ contains nl last_line_call = true.
Proof. repeat split; vm_compute; reflexivity. Qed.

(** ** Writes and changes *)

(** A run on one file writes exactly when some pass changes the text it
    read; when no pass does, the file ends as it began. *)
Lemma written_iff_some_pass_changed (path c0 : text) :
  writes (file_events path c0) <> [] <-> file_fixed path c0 = true.
Proof.
  unfold file_events, file_fixed.
  rewrite !writes_app, !writes_pass_events. unfold pass_writes.
  destruct (text_eqb (after1 c0) c0);
    destruct (text_eqb (after2 path c0) (after1 c0));
    destruct (text_eqb (after3 path c0) (after2 path c0));
    cbn; split; intros H; try reflexivity; try discriminate;
    try (exfalso; apply H; reflexivity).
Qed.

Lemma changed_implies_written (path c0 : text) :
  after3 path c0 <> c0 -> writes (file_events path c0) <> [].
Proof.
  intros H. apply written_iff_some_pass_changed. unfold file_fixed.
  destruct (text_eqb (after1 c0) c0) eqn:E1; [|reflexivity].
  destruct (text_eqb (after2 path c0) (after1 c0)) eqn:E2; [|reflexivity].
  destruct (text_eqb (after3 path c0) (after2 path c0)) eqn:E3; [|reflexivity].
  apply text_eqb_eq in E1, E2, E3. exfalso; apply H. congruence.
Qed.

(** ** The engine: what every match consumes *)

Lemma prefixb_app (l x y : text) :
  prefixb l x = true -> prefixb l (x ++ y) = true.
Proof.
  revert x; induction l as [|c l IH]; intros [|d x] H; try reflexivity;
    try discriminate.
  cbn [prefixb app] in *. apply andb_true_iff in H as [H1 H2].
  now rewrite H1, IH.
Qed.

Lemma contains_app_l (l x y : text) :
  contains l x = true -> contains l (x ++ y) = true.
Proof.
  induction x as [|c x IH]; intros H.
  - destruct l; [destruct y; reflexivity|]. discriminate.
  - cbn [contains app] in *. apply orb_true_iff in H as [H|H].
    + change (c :: x ++ y) with ((c :: x) ++ y).
      now rewrite (prefixb_app _ _ _ H).
    + rewrite (IH H). apply orb_true_r.
Qed.

Lemma contains_app_r (l x y : text) :
  contains l y = true -> contains l (x ++ y) = true.
Proof.
  intros H; induction x as [|c x IH]; [exact H|].
  cbn [contains app]. rewrite IH. apply orb_true_r.
Qed.

Lemma as_lit_inv {A : Type} (r : re) :
  forall t prev s g (k : @kont A) a,
    as_lit r = Some t ->
    m r prev s g k = Some a ->
    exists y, s = t ++ y /\ k (end_prev prev t) y g = Some a.
Proof.
  induction r; intros t prev s g k a Hl Hm; try discriminate.
  - injection Hl as <-. exists s; split; [reflexivity|exact Hm].
  - cbn [as_lit] in Hl. destruct r1; try discriminate.
    destruct (as_lit r2) as [t2|] eqn:E2; [|discriminate].
    injection Hl as <-. cbn [m] in Hm.
    destruct s as [|d s]; [discriminate|].
    destruct (N.eqb_spec d c) as [->|]; [|discriminate].
    destruct (IHr2 t2 _ _ _ _ _ eq_refl Hm) as (y & -> & Hk).
    exists y; split; [reflexivity|exact Hk].
Qed.

Lemma contains_cons (l : text) (c : char) (t : text) :
  contains l t = true -> contains l (c :: t) = true.
Proof. intros H; cbn [contains]; rewrite H; apply orb_true_r. Qed.

Lemma min_len_lit (r : re) :
  forall t, as_lit r = Some t -> min_len r = List.length t.
Proof.
  induction r; intros t H; try discriminate.
  - now injection H as <-.
  - cbn [as_lit] in H. destruct r1; try discriminate.
    destruct (as_lit r2) as [t2|]; [|discriminate].
    injection H as <-. cbn [min_len List.length]. now rewrite (IHr2 t2).
Qed.

Lemma needs_lit (l : text) (r : re) :
  forall t, as_lit r = Some t -> needs l r = true -> contains l t = true.
Proof.
  induction r; intros t H Hn; try discriminate.
  - cbn in H, Hn. injection H as <-. now rewrite orb_false_r in Hn.
  - pose proof H as H'. cbn [as_lit] in H. destruct r1; try discriminate.
    destruct (as_lit r2) as [t2|] eqn:E2; [|discriminate].
    injection H as <-.
    cbn [needs] in Hn. rewrite H' in Hn.
    apply orb_true_iff in Hn as [Hn|Hn]; [exact Hn|].
    apply orb_true_iff in Hn as [Hn|Hn]; [discriminate|].
    apply contains_cons. now apply IHr2.
Qed.

(** Whatever [m] matches is a prefix of the text, at least [min_len r]
    long, and contains every text that [needs] finds in the pattern. *)
Lemma m_inv {A : Type} (r : re) :
  forall prev s g (k : @kont A) a,
    m r prev s g k = Some a ->
    exists x y prev' g',
      s = x ++ y /\ k prev' y g' = Some a
      /\ min_len r <= List.length x
      /\ forall l, needs l r = true -> contains l x = true.
Proof.
  induction r; intros prev s g k a H.
  - (* Eps *)
    exists [], s, prev, g; repeat split; [exact H | cbn; lia |].
    intros l Hl. cbn in Hl. now rewrite orb_false_r in Hl.
  - (* Chr *)
    cbn [m] in H. destruct s as [|d s]; [discriminate|].
    destruct (N.eqb d c); [|discriminate].
    exists [d], s, (Some d), g; repeat split; [exact H | cbn; lia |].
    intros l Hl; discriminate.
  - (* Cls *)
    cbn [m] in H. destruct s as [|d s]; [discriminate|].
    destruct (p d); [|discriminate].
    exists [d], s, (Some d), g; repeat split; [exact H | cbn; lia |].
    intros l Hl; discriminate.
  - (* Star *)
    cbn [m] in H. apply star_inv in H as (x & y & -> & _ & H).
    exists x, y, (end_prev prev x), g; repeat split; [exact H | cbn; lia |].
    intros l Hl; discriminate.
  - (* Plus *)
    cbn [m] in H. destruct s as [|d s]; [discriminate|].
    destruct (p d); [|discriminate].
    apply star_inv in H as (x & y & -> & _ & H).
    exists (d :: x), y, (end_prev (Some d) x), g;
      repeat split; [exact H | cbn; lia |].
    intros l Hl; discriminate.
  - (* Opt *)
    cbn [m] in H. destruct (m r prev s g k) as [a'|] eqn:E.
    + injection H as <-.
      destruct (IHr _ _ _ _ _ E) as (x & y & p' & g' & -> & Hk & _ & _).
      exists x, y, p', g'; repeat split; [exact Hk | cbn; lia |].
      intros l Hl; discriminate.
    + exists [], s, prev, g; repeat split; [exact H | cbn; lia |].
      intros l Hl; discriminate.
  - (* Alt *)
    cbn [m] in H. destruct (m r1 prev s g k) as [a'|] eqn:E.
    + injection H as <-.
      destruct (IHr1 _ _ _ _ _ E) as (x & y & p' & g' & -> & Hk & Hlen & Hn).
      exists x, y, p', g'; repeat split; [exact Hk | cbn [min_len]; lia |].
      intros l Hl. cbn in Hl. apply andb_true_iff in Hl as [Hl _]. now apply Hn.
    + destruct (IHr2 _ _ _ _ _ H) as (x & y & p' & g' & -> & Hk & Hlen & Hn).
      exists x, y, p', g'; repeat split; [exact Hk | cbn [min_len]; lia |].
      intros l Hl. cbn in Hl. apply andb_true_iff in Hl as [_ Hl]. now apply Hn.
  - (* Cat *)
    destruct (as_lit (Cat r1 r2)) as [t|] eqn:El.
    + destruct (as_lit_inv _ t _ _ _ _ _ El H) as (y & -> & Hk).
      exists t, y, (end_prev prev t), g; repeat split; [exact Hk | |].
      * rewrite (min_len_lit _ _ El). lia.
      * intros l Hl. now apply (needs_lit l _ t El).
    + cbn [m] in H.
      destruct (IHr1 _ _ _ _ _ H)
        as (x1 & y1 & p1 & g1 & -> & Hk1 & Hlen1 & Hn1).
      destruct (IHr2 _ _ _ _ _ Hk1)
        as (x2 & y2 & p2 & g2 & -> & Hk2 & Hlen2 & Hn2).
      exists (x1 ++ x2), y2, p2, g2; repeat split.
      * now rewrite <- app_assoc.
      * exact Hk2.
      * cbn [min_len]; rewrite length_app; lia.
      * intros l Hl. cbn [needs] in Hl. rewrite El in Hl.
        apply orb_true_iff in Hl as [Hl|Hl]; [discriminate|].
        apply orb_true_iff in Hl as [Hl|Hl].
        -- apply contains_app_l. now apply Hn1.
        -- apply contains_app_r. now apply Hn2.
  - (* Grp *)
    cbn [m] in H.
    destruct (IHr _ _ _ _ _ H) as (x & y & p' & g' & -> & Hk & Hlen & Hn).
    exists x, y, p'. eexists; repeat split; [exact Hk | exact Hlen |].
    intros l Hl. cbn in Hl. now apply Hn.
  - (* Ahead *)
    cbn [m] in H. destruct s as [|d s]; [discriminate|].
    destruct (p d); [|discriminate].
    exists [], (d :: s), prev, g; repeat split; [exact H | cbn; lia |].
    intros l Hl; discriminate.
  - (* Bol *)
    cbn [m] in H. destruct (at_bol prev); [|discriminate].
    exists [], s, prev, g; repeat split; [exact H | cbn; lia |].
    intros l Hl; discriminate.
  - (* Eol *)
    cbn [m] in H. destruct (at_eol s); [|discriminate].
    exists [], s, prev, g; repeat split; [exact H | cbn; lia |].
    intros l Hl; discriminate.
Qed.

Lemma match_at_inv (r : re) (prev : option char) (s rest : text)
      (g : option text) :
  match_at r prev s = Some (rest, g) ->
  exists x, s = x ++ rest /\ min_len r <= List.length x
            /\ forall l, needs l r = true -> contains l x = true.
Proof.
  unfold match_at; intros H.
  apply m_inv in H as (x & y & p' & g' & -> & Hk & Hlen & Hn).
  injection Hk as -> _. exists x; repeat split; assumption.
Qed.

(** ** Rewrites that only shorten *)

Lemma expand_fixed (tpl : template) (g : option text) :
  tpl_fixed tpl = true -> expand tpl g = expand tpl None.
Proof.
  induction tpl as [|[t|] tpl IH]; intros H; [reflexivity| |discriminate].
  cbn [expand]. now rewrite IH.
Qed.

Section Shrink.
Variable r : re.
Variable tpl : template.
Hypothesis Hfixed : tpl_fixed tpl = true.
Hypothesis Hlen : tpl_len tpl < min_len r.

Lemma match_at_shrinks (prev : option char) (s rest : text) (g : option text) :
  match_at r prev s = Some (rest, g) ->
  List.length (expand tpl g) + List.length rest < List.length s.
Proof.
  intros H. apply match_at_inv in H as (x & -> & Hx & _).
  rewrite (expand_fixed tpl g Hfixed), length_app.
  unfold tpl_len in Hlen. lia.
Qed.

Lemma sub_go_length (s : text) :
  forall prev skip,
    skip <= List.length s ->
    List.length (sub_go r tpl prev s skip) + skip <= List.length s.
Proof.
  induction s as [|c s IH]; intros prev skip Hskip.
  - cbn [List.length] in Hskip. assert (skip = 0) by lia; subst.
    cbn [sub_go]. destruct (match_at r prev []) as [[rest g]|] eqn:E.
    + apply match_at_shrinks in E. cbn [List.length] in E. lia.
    + cbn; lia.
  - destruct skip as [|n]; cbn [sub_go].
    + destruct (match_at r prev (c :: s)) as [[rest g]|] eqn:E.
      * apply match_at_shrinks in E. cbn [List.length] in E.
        destruct (List.length (c :: s) - List.length rest) as [|n] eqn:En;
          cbn [List.length] in En; [lia|].
        rewrite length_app.
        pose proof (IH (Some c) n ltac:(lia)). cbn [List.length]. lia.
      * cbn [List.length]. pose proof (IH (Some c) 0 ltac:(lia)). lia.
    + cbn [List.length] in *. pose proof (IH (Some c) n ltac:(lia)). lia.
Qed.

Lemma sub_go_shrinks (s : text) :
  forall prev,
    sub_go r tpl prev s 0 = s
    \/ List.length (sub_go r tpl prev s 0) < List.length s.
Proof.
  induction s as [|c s IH]; intros prev; cbn [sub_go].
  - destruct (match_at r prev []) as [[rest g]|] eqn:E; [|now left].
    apply match_at_shrinks in E. cbn [List.length] in E. lia.
  - destruct (match_at r prev (c :: s)) as [[rest g]|] eqn:E.
    + right. apply match_at_shrinks in E. cbn [List.length] in E.
      destruct (List.length (c :: s) - List.length rest) as [|n] eqn:En;
        cbn [List.length] in En; [lia|].
      rewrite length_app.
      pose proof (sub_go_length s (Some c) n ltac:(lia)).
      cbn [List.length]. lia.
    + destruct (IH (Some c)) as [->|H]; [now left|right].
      cbn [List.length]; lia.
Qed.

Lemma sub_shrinks : shrinks (sub r tpl).
Proof. intros s; apply sub_go_shrinks. Qed.
End Shrink.

Lemma shrink_step (r : re) (tpl : template) (x s : text) :
  tpl_fixed tpl = true -> tpl_len tpl < min_len r ->
  x = s \/ List.length x < List.length s ->
  sub r tpl x = s \/ List.length (sub r tpl x) < List.length s.
Proof.
  intros Hf Hl Hx. destruct (sub_shrinks r tpl Hf Hl x) as [E|L].
  - now rewrite E.
  - right. destruct Hx as [->|Hx]; lia.
Qed.

Ltac shrink_chain :=
  repeat (apply shrink_step; [reflexivity | vm_compute; lia |]);
  now left.

Lemma remove_console_logs_shrinks : shrinks remove_console_logs_text.
Proof. intros s. unfold remove_console_logs_text. cbv zeta. shrink_chain. Qed.

Lemma fix_unused_imports_shrinks (path : text) :
  shrinks (fix_unused_imports_text path).
Proof.
  intros s. unfold fix_unused_imports_text, remove_import.
  cbn [fold_left imports_to_remove]. cbv zeta.
  destruct (in_path "tokens-table.tsx" path);
    destruct (in_path "token-details-modal.tsx" path);
    destruct (in_path "additional-tags.tsx" path); shrink_chain.
Qed.

Lemma shrinks_le (f : text -> text) (s : text) :
  shrinks f -> List.length (f s) <= List.length s.
Proof. intros H; destruct (H s) as [->|]; lia. Qed.

Lemma shrinks_changed (f : text -> text) (s : text) :
  shrinks f -> f s <> s -> List.length (f s) < List.length s.
Proof. intros H N; destruct (H s) as [E|]; [contradiction|assumption]. Qed.

(** X1: the debug-statement pass never lengthens a text, and a text it
    changes comes out strictly shorter. *)
Theorem console_pass_only_shortens (content : text) :
  List.length (remove_console_logs_text content) <= List.length content
  /\ (remove_console_logs_text content <> content ->
      List.length (remove_console_logs_text content) < List.length content).
Proof.
  split.
  - apply (shrinks_le remove_console_logs_text), remove_console_logs_shrinks.
  - apply (shrinks_changed remove_console_logs_text),
      remove_console_logs_shrinks.
Qed.

(** X2: the unused-symbol pass, for every path, never lengthens a text,
    and a text it changes comes out strictly shorter. *)
Theorem unused_pass_only_shortens (path content : text) :
  List.length (fix_unused_imports_text path content) <= List.length content
  /\ (fix_unused_imports_text path content <> content ->
      List.length (fix_unused_imports_text path content)
      < List.length content).
Proof.
  split.
  - apply (shrinks_le (fix_unused_imports_text path)),
      fix_unused_imports_shrinks.
  - apply (shrinks_changed (fix_unused_imports_text path)),
      fix_unused_imports_shrinks.
Qed.

(** On a path that has none of the three fragments whose hook rules can
    lengthen a text, the hook pass only shortens too. *)
Lemma fix_hook_dependencies_shrinks (path : text) :
  in_path "tokens-table.tsx" path = false ->
  in_path "additional-tags.tsx" path = false ->
  in_path "WalletTagsContext.tsx" path = false ->
  shrinks (fix_hook_dependencies_text path).
Proof.
  intros H1 H2 H3 s. unfold fix_hook_dependencies_text.
  rewrite H1, H2, H3. cbv zeta.
  destruct (in_path "tokens/page.tsx" path); shrink_chain.
Qed.

(** X3: on a path that contains none of 'tokens-table.tsx',
    'additional-tags.tsx' and 'WalletTagsContext.tsx', processing an
    existing file that can be read and written writes it exactly when
    the text after the three passes differs from the text before them,
    and that is also when the result is [true]. *)
Theorem written_iff_changed_without_growth (path c0 : text) (w : world) :
  in_path "tokens-table.tsx" path = false ->
  in_path "additional-tags.tsx" path = false ->
  in_path "WalletTagsContext.tsx" path = false ->
  fs w path = Some (File c0 true) ->
  exists b w',
    process_file path w = Ok b w'
    /\ (writes (trace w') <> writes (trace w) <-> after3 path c0 <> c0)
    /\ (b = true <-> after3 path c0 <> c0)
    /\ fs w' path = Some (File (after3 path c0) true).
Proof.
  intros H1 H2 H3 Hfs.
  exists (file_fixed path c0). eexists.
  split; [apply (process_file_spec path c0 w Hfs)|].
  assert (Hiff : file_fixed path c0 = true <-> after3 path c0 <> c0).
  { split.
    - intros Hfix E.
      pose proof (shrinks_le _ c0 remove_console_logs_shrinks) as L1.
      pose proof (shrinks_le _ (after1 c0) (fix_unused_imports_shrinks path))
        as L2.
      pose proof (shrinks_le _ (after2 path c0)
                    (fix_hook_dependencies_shrinks path H1 H2 H3)) as L3.
      fold (after1 c0) in L1. fold (after2 path c0) in L2.
      fold (after3 path c0) in L3.
      unfold file_fixed in Hfix.
      destruct (text_eqb (after1 c0) c0) eqn:E1.
      + destruct (text_eqb (after2 path c0) (after1 c0)) eqn:E2.
        * destruct (text_eqb (after3 path c0) (after2 path c0)) eqn:E3;
            [discriminate|].
          apply text_eqb_neq in E3.
          pose proof (shrinks_changed _ (after2 path c0)
                        (fix_hook_dependencies_shrinks path H1 H2 H3) E3) as S3.
          fold (after3 path c0) in S3. rewrite E in S3. lia.
        * apply text_eqb_neq in E2.
          pose proof (shrinks_changed _ (after1 c0)
                        (fix_unused_imports_shrinks path) E2) as S2.
          fold (after2 path c0) in S2. rewrite E in L3. lia.
      + apply text_eqb_neq in E1.
        pose proof (shrinks_changed _ c0 remove_console_logs_shrinks E1) as S1.
        fold (after1 c0) in S1. rewrite E in L3. lia.
    - intros Hne. apply written_iff_some_pass_changed.
      now apply changed_implies_written. }
  split; [|split; [exact Hiff | now apply file_fs_same]].
  cbn [trace]. rewrite writes_app.
  rewrite <- Hiff, <- written_iff_some_pass_changed.
  split; intros H.
  - intros E. apply H. rewrite E. apply app_nil_r.
  - intros E. apply H.
    apply (f_equal (@List.length event)) in E. rewrite length_app in E.
    destruct (writes (file_events path c0)); [reflexivity|].
    cbn [List.length] in E. lia.
Qed.

Lemma written_iff_changed_without_growth_witness :
  let path := codes "src/app/dashboard/tokens/page.tsx" in
  let c0 := codes "setPollsSinceLastActive(pollsSinceLastActive + 1);" in
  let w := one_file path c0 in
  exists b w',
    process_file path w = Ok b w'
    /\ (writes (trace w') <> writes (trace w) <-> after3 path c0 <> c0)
    /\ (b = true <-> after3 path c0 <> c0)
    /\ fs w' path = Some (File (after3 path c0) true).
Proof.
  intros path c0 w.
  apply (written_iff_changed_without_growth path c0 w); vm_compute; reflexivity.
Defined.

(** ** Texts without the words the rules need *)

Lemma contains_tail (l : text) (c : char) (s : text) :
  contains l (c :: s) = false -> contains l s = false.
Proof. cbn [contains]; intros H; now apply orb_false_iff in H. Qed.

(** A pattern that needs a text is found nowhere in a text without it. *)
Lemma search_go_needs (l : text) (r : re) :
  needs l r = true ->
  forall s prev, contains l s = false -> search_go r prev s = false.
Proof.
  intros Hn. induction s as [|c s IH]; intros prev Hc; cbn [search_go].
  - destruct (match_at r prev []) as [[rest g]|] eqn:E; [|reflexivity].
    apply match_at_inv in E as (x & E & _ & Hx).
    rewrite E, (contains_app_l _ _ _ (Hx l Hn)) in Hc. discriminate.
  - destruct (match_at r prev (c :: s)) as [[rest g]|] eqn:E.
    + apply match_at_inv in E as (x & E & _ & Hx).
      rewrite E, (contains_app_l _ _ _ (Hx l Hn)) in Hc. discriminate.
    + apply IH. now apply contains_tail in Hc.
Qed.

Lemma sub_needs (l : text) (r : re) (tpl : template) (s : text) :
  needs l r = true -> contains l s = false -> sub r tpl s = s.
Proof.
  intros Hn Hc. apply sub_no_match. now apply search_go_needs with (l := l).
Qed.

Lemma search_blank_lines (s : text) :
  forall prev,
    contains triple_nl s = false -> search_go re_blank_lines prev s = false.
Proof.
  induction s as [|c s IH]; intros prev H; cbn [search_go];
    rewrite match_blank_lines_leading.
  - reflexivity.
  - cbn [contains] in H. apply orb_false_iff in H as [H1 H2].
    rewrite prefixb_triple in H1. rewrite H1. now apply IH.
Qed.

(** X4: a text that contains neither [console.] nor three consecutive
    newline characters is returned unchanged by the debug-statement
    pass. *)
Theorem console_pass_needs_console (content : text) :
  contains (codes "console.") content = false ->
  contains triple_nl content = false ->
  remove_console_logs_text content = content.
Proof.
  intros Hc Hn. unfold remove_console_logs_text. cbv zeta.
  repeat (rewrite (sub_needs (codes "console.") _ _ content);
          [| reflexivity | exact Hc]).
  apply sub_no_match. now apply search_blank_lines.
Qed.

Lemma console_pass_needs_console_witness :
  let content := codes ("const log = console;" ++ lf ++ lf ++ "log.info('x');") in
  remove_console_logs_text content = content.
Proof.
  intros content.
  apply (console_pass_needs_console content); vm_compute; reflexivity.
Defined.

Ltac no_word H :=
  unfold has_no_word in H; cbn [forallb unused_words hook_words] in H;
  repeat (apply andb_true_iff in H as [?H H]);
  repeat match goal with
         | H : negb _ = true |- _ => apply negb_true_iff in H
         end.

Ltac by_word content :=
  first [ rewrite (sub_needs (codes "Tags") _ _ content);
          [| reflexivity | assumption]
        | rewrite (sub_needs (codes "Popover") _ _ content);
          [| reflexivity | assumption]
        | rewrite (sub_needs (codes "Checkbox") _ _ content);
          [| reflexivity | assumption]
        | rewrite (sub_needs (codes "Label") _ _ content);
          [| reflexivity | assumption]
        | rewrite (sub_needs (codes "X") _ _ content);
          [| reflexivity | assumption]
        | rewrite (sub_needs (codes "onTagsChange") _ _ content);
          [| reflexivity | assumption]
        | rewrite (sub_needs (codes "useState(") _ _ content);
          [| reflexivity | assumption]
        | rewrite (sub_needs (codes "setPollsSinceLastActive(") _ _ content);
          [| reflexivity | assumption]
        | rewrite (sub_needs (codes "useMemo(") _ _ content);
          [| reflexivity | assumption]
        | rewrite (sub_needs (codes "useEffect(") _ _ content);
          [| reflexivity | assumption] ].

(** X5: whatever the path, a text that contains none of the words
    [Tags], [Popover], [Checkbox], [Label], [X], [onTagsChange] and
    [useState(] is returned unchanged by the unused-symbol pass. *)
Theorem unused_pass_needs_words (path content : text) :
  has_no_word unused_words content = true ->
  fix_unused_imports_text path content = content.
Proof.
  intros H; no_word H.
  unfold fix_unused_imports_text, remove_import.
  cbn [fold_left imports_to_remove]. cbv zeta.
  destruct (in_path "tokens-table.tsx" path);
    destruct (in_path "token-details-modal.tsx" path);
    destruct (in_path "additional-tags.tsx" path);
    repeat by_word content; reflexivity.
Qed.

Lemma unused_pass_needs_words_witness :
  let path := codes "src/app/dashboard/tokens/tokens-table.tsx" in
  let content := codes "import { Button, Table } from 'ui';" in
  fix_unused_imports_text path content = content.
Proof.
  intros path content.
  apply (unused_pass_needs_words path content); vm_compute; reflexivity.
Defined.

(** X6: whatever the path, a text that contains none of the words
    [setPollsSinceLastActive(], [useMemo(] and [useEffect(] is returned
    unchanged by the hook pass. *)
Theorem hook_pass_needs_words (path content : text) :
  has_no_word hook_words content = true ->
  fix_hook_dependencies_text path content = content.
Proof.
  intros H; no_word H.
  unfold fix_hook_dependencies_text. cbv zeta.
  destruct (in_path "tokens/page.tsx" path);
    destruct (in_path "tokens-table.tsx" path);
    destruct (in_path "additional-tags.tsx" path);
    destruct (in_path "WalletTagsContext.tsx" path);
    repeat by_word content; reflexivity.
Qed.

Lemma hook_pass_needs_words_witness :
  let path := codes "src/contexts/WalletTagsContext.tsx" in
  let content := codes "useLayoutEffect(() => { fetchTags(); }, [url])" in
  fix_hook_dependencies_text path content = content.
Proof.
  intros path content.
  apply (hook_pass_needs_words path content); vm_compute; reflexivity.
Defined.

(** ** File-name gating of the hook pass *)

(** X7: for a path that contains none of the four fragments of the hook
    pass, every text is returned unchanged and the pass only reads the
    file; each of the four fragments does switch a rule on. *)
Theorem hook_pass_gated (path content : text) (w : world) :
  has_none hook_fragments path = true ->
  fix_hook_dependencies_text path content = content
  /\ (forall wr, fs w path = Some (File content wr) ->
      fix_hook_dependencies path w = Ok false (log (EvRead path) w))
  /\ Forall (fun f : string =>
               exists t, fix_hook_dependencies_text (codes f) t <> t)
            hook_fragments.
Proof.
  intros H. unfold has_none, hook_fragments in H; simpl in H.
  repeat (apply andb_true_iff in H as [?H H]).
  repeat match goal with
         | H : negb _ = true |- _ => apply negb_true_iff in H
         end.
  assert (E : fix_hook_dependencies_text path content = content).
  { unfold fix_hook_dependencies_text.
    repeat match goal with
           | H : in_path _ path = false |- _ => rewrite H; clear H
           end.
    reflexivity. }
  split; [exact E|]. split.
  - intros wr Hfs. unfold fix_hook_dependencies.
    now apply (run_pass_unchanged _ path content wr).
  - unfold hook_fragments; repeat constructor.
    + exists (codes "setPollsSinceLastActive(pollsSinceLastActive + 1)").
      vm_compute; discriminate.
    + exists (codes "useMemo(() => { x return columns; }, [onDelete])").
      vm_compute; discriminate.
    + exists effect_block; vm_compute; discriminate.
    + exists wallet_effect; vm_compute; discriminate.
Qed.

Lemma hook_pass_gated_witness :
  let path := codes "src/app/dashboard/trash/page.tsx" in
  let content := effect_block in
  let w := one_file path content in
  fix_hook_dependencies_text path content = content
  /\ (forall wr, fs w path = Some (File content wr) ->
      fix_hook_dependencies path w = Ok false (log (EvRead path) w))
  /\ Forall (fun f : string =>
               exists t, fix_hook_dependencies_text (codes f) t <> t)
            hook_fragments.
Proof.
  intros path content w.
  apply (hook_pass_gated path content w); vm_compute; reflexivity.
Defined.

(** ** What a run leaves behind *)

(** X8: the loop over a path list without repetitions completes when
    every listed path names nothing or a file that can be read and
    written; every listed file then holds the text of the three passes
    applied to what it held before; every other path is as it was; and
    no file is created or removed. *)
Theorem run_final_files (base : text) (files : list string) (n : nat)
        (w : world) :
  NoDup files ->
  all_usable base files (fs w) = true ->
  exists n' w',
    process_files base files n w = Ok n' w'
    /\ (forall rel c,
           In rel files -> fs w (join base rel) = Some (File c true) ->
           fs w' (join base rel) = Some (File (after3 (join base rel) c) true))
    /\ (forall q, (forall rel, In rel files -> q <> join base rel) ->
                  fs w' q = fs w q)
    /\ (forall q, fs w' q = None <-> fs w q = None).
Proof.
  intros Hnd Hu.
  destruct (process_files_result base files Hnd n w Hu)
    as (n' & w' & Hrun & Hfs & _ & _).
  exists n', w'. split; [exact Hrun|]. split; [|split].
  - intros rel c Hin Hc. rewrite Hfs. now apply final_fs_listed.
  - intros q Hq. rewrite Hfs. now apply final_fs_unlisted.
  - intros q. rewrite Hfs. unfold final_fs.
    destruct (fs w q) as [[c wr|]|]; [|split; discriminate|tauto].
    destruct (existsb _ files); split; discriminate.
Qed.

Lemma run_final_files_witness :
  let base := codes "src" in
  let w := one_file (join base "components/additional-tags.tsx")
                    three_writes_text in
  exists n' w',
    process_files base files_to_process 0 w = Ok n' w'
    /\ (forall rel c,
           In rel files_to_process ->
           fs w (join base rel) = Some (File c true) ->
           fs w' (join base rel) = Some (File (after3 (join base rel) c) true))
    /\ (forall q, (forall rel, In rel files_to_process -> q <> join base rel) ->
                  fs w' q = fs w q)
    /\ (forall q, fs w' q = None <-> fs w q = None).
Proof.
  intros base w.
  apply (run_final_files base files_to_process 0 w).
  - exact files_to_process_nodup.
  - vm_compute; reflexivity.
Defined.



Lemma existsb_perm {X : Type} (f : X -> bool) (l l' : list X) :
  Permutation l l' -> existsb f l = existsb f l'.
Proof.
  intros P.
  destruct (existsb f l) eqn:E; destruct (existsb f l') eqn:E';
    try reflexivity.
  - apply existsb_exists in E as (x & Hin & Hx).
    assert (existsb f l' = true)
      by (apply existsb_exists; exists x; split;
          [now apply (Permutation_in _ P)|exact Hx]).
    congruence.
  - apply existsb_exists in E' as (x & Hin & Hx).
    assert (existsb f l = true)
      by (apply existsb_exists; exists x; split;
          [now apply (Permutation_in _ (Permutation_sym P))|exact Hx]).
    congruence.
Qed.

Lemma forallb_perm {X : Type} (f : X -> bool) (l l' : list X) :
  Permutation l l' -> forallb f l = forallb f l'.
Proof.
  induction 1 as [|x l l' P IH|x y l|l l' l'' P1 IH1 P2 IH2];
    cbn [forallb]; try reflexivity.
  - now rewrite IH.
  - now rewrite !andb_assoc, (andb_comm (f y)).
  - now rewrite IH1.
Qed.

Lemma filter_length_perm {X : Type} (f : X -> bool) (l l' : list X) :
  Permutation l l' ->
  List.length (filter f l) = List.length (filter f l').
Proof.
  induction 1 as [|x l l' P IH|x y l|l l' l'' P1 IH1 P2 IH2];
    cbn [filter]; try reflexivity.
  - destruct (f x); cbn [List.length]; now rewrite IH.
  - destruct (f x); destruct (f y); reflexivity.
  - now rewrite IH1.
Qed.

(** X10: when every listed path names nothing or a file that can be read
    and written, the order of the path list does not matter for the
    result: on two lists without repetitions that hold the same paths,
    the loop completes, leaves the same files behind and reports the
    same count. *)
Theorem order_does_not_matter (base : text) (files files' : list string)
        (n : nat) (w : world) :
  NoDup files -> Permutation files files' ->
  all_usable base files (fs w) = true ->
  exists n' w1 w2,
    process_files base files n w = Ok n' w1
    /\ process_files base files' n w = Ok n' w2
    /\ forall q, fs w1 q = fs w2 q.
Proof.
  intros Hnd P Hu.
  pose proof (Permutation_NoDup P Hnd) as Hnd'.
  assert (Hu' : all_usable base files' (fs w) = true)
    by (unfold all_usable in *; now rewrite <- (forallb_perm _ _ _ P)).
  destruct (process_files_result base files Hnd n w Hu)
    as (n1 & w1 & R1 & F1 & _ & N1).
  destruct (process_files_result base files' Hnd' n w Hu')
    as (n2 & w2 & R2 & F2 & _ & N2).
  assert (E : n2 = n1)
    by (rewrite N1, N2; f_equal; symmetry; now apply filter_length_perm).
  rewrite E in R2.
  exists n1, w1, w2. split; [exact R1|]. split; [exact R2|].
  intros q. rewrite F1, F2. unfold final_fs.
  destruct (fs w q) as [[c wr|]|]; try reflexivity.
  now rewrite (existsb_perm _ _ _ P).
Qed.

Lemma order_does_not_matter_witness :
  let base := codes "src" in
  let w := one_file (join base "components/additional-tags.tsx")
                    three_writes_text in
  exists n' w1 w2,
    process_files base files_to_process 0 w = Ok n' w1
    /\ process_files base (rev files_to_process) 0 w = Ok n' w2
    /\ forall q, fs w1 q = fs w2 q.
Proof.
  intros base w.
  apply (order_does_not_matter base files_to_process (rev files_to_process)
           0 w).
  - exact files_to_process_nodup.
  - apply Permutation_rev.
  - vm_compute; reflexivity.
Defined.

(** ** Paths that cannot be read or written *)

(** X21: a listed path that exists and cannot be read (a directory, a
    file that is not UTF-8 text) ends the run with an uncaught
    exception, with no rollback: the files listed before it have been
    processed and stay as rewritten, the path itself and everything
    listed after it are as they were, and only the banner and the lines
    of the earlier paths have been printed, neither the summary nor the
    hint.  The order of the list decides which files are rewritten:
    with the unreadable path first, none is. *)
Theorem unreadable_file_ends_run (base : text) (l1 : list string)
        (rel : string) (l2 : list string) (n : nat) (w : world) :
  NoDup (l1 ++ rel :: l2) ->
  all_usable base l1 (fs w) = true ->
  fs w (join base rel) = Some Unreadable ->
  (exists w',
      process_files base (l1 ++ rel :: l2) n w = Raised w'
      /\ trace w' = trace w ++ run_events base l1 (fs w)
      /\ (forall r c,
             In r l1 -> fs w (join base r) = Some (File c true) ->
             fs w' (join base r) = Some (File (after3 (join base r) c) true))
      /\ (forall q, (forall r, In r l1 -> q <> join base r) ->
                    fs w' q = fs w q))
  /\ (files_to_process = l1 ++ rel :: l2 ->
      exists w',
        main base w = Raised w'
        /\ prints (trace w')
           = prints (trace w) ++ banner_line :: map (line_for base (fs w)) l1)
  /\ process_files base (rel :: l1 ++ l2) n w = Raised w.
Proof.
  intros Hnd Hu Hfs.
  assert (Hnd1 : NoDup l1) by (now apply NoDup_app_remove_r in Hnd).
  assert (Hnotin : forall r, In r l1 -> join base rel <> join base r).
  { intros r Hr E. apply join_inj in E. subst r.
    apply NoDup_remove_2 in Hnd. apply Hnd, in_or_app. now left. }
  assert (Hloop : forall n0 w0,
             fs w0 = fs w ->
             exists w',
               process_files base (l1 ++ rel :: l2) n0 w0 = Raised w'
               /\ trace w' = trace w0 ++ run_events base l1 (fs w)
               /\ forall q, fs w' q = final_fs base l1 (fs w) q).
  { intros n0 w0 E0.
    destruct (process_files_result base l1 Hnd1 n0 w0)
      as (n1 & w1 & Hrun & Hfsw & Htr & _); [now rewrite E0|].
    rewrite E0 in Hfsw, Htr.
    exists w1. split; [|split; assumption].
    rewrite process_files_app, Hrun. cbn [process_files].
    assert (E : fs w1 (join base rel) = Some Unreadable)
      by (rewrite Hfsw, (final_fs_unlisted _ _ _ _ Hnotin); exact Hfs).
    rewrite E. now rewrite (process_file_unreadable _ _ E). }
  split; [|split].
  - destruct (Hloop n w eq_refl) as (w' & Hrun & Htr & Hfsw).
    exists w'. split; [exact Hrun|]. split; [exact Htr|]. split.
    + intros r c Hin Hc. rewrite Hfsw. now apply final_fs_listed.
    + intros q Hq. rewrite Hfsw. now apply final_fs_unlisted.
  - intros E. unfold main. rewrite E.
    destruct (Hloop 0 (print (codes "Fixing lint issues...") w) eq_refl)
      as (w' & Hrun & Htr & _).
    rewrite Hrun. exists w'. split; [reflexivity|].
    rewrite Htr. cbn [trace print log]. rewrite !prints_app.
    rewrite (prints_run_events base (fs w) l1 Hu). cbn [prints].
    unfold banner_line. now rewrite <- app_assoc.
  - cbn [process_files]. rewrite Hfs.
    now rewrite (process_file_unreadable _ _ Hfs).
Qed.

Lemma unreadable_file_ends_run_witness :
  let base := codes "src" in
  let l1 := ["app/dashboard/tokens/page.tsx"%string] in
  let rel := "app/dashboard/tokens/token-details-modal.tsx"%string in
  let l2 := tl (tl files_to_process) in
  let w :=
    World (fun p =>
             if text_eqb p (join base "app/dashboard/tokens/page.tsx")
             then Some (File polls_old true)
             else if text_eqb p (join base rel) then Some Unreadable
                  else None) [] in
  (exists w',
      process_files base (l1 ++ rel :: l2) 0 w = Raised w'
      /\ trace w' = trace w ++ run_events base l1 (fs w)
      /\ (forall r c,
             In r l1 -> fs w (join base r) = Some (File c true) ->
             fs w' (join base r) = Some (File (after3 (join base r) c) true))
      /\ (forall q, (forall r, In r l1 -> q <> join base r) ->
                    fs w' q = fs w q))
  /\ (files_to_process = l1 ++ rel :: l2 ->
      exists w',
        main base w = Raised w'
        /\ prints (trace w')
           = prints (trace w) ++ banner_line :: map (line_for base (fs w)) l1)
  /\ process_files base (rel :: l1 ++ l2) 0 w = Raised w.
Proof.
  intros base l1 rel l2 w.
  apply (unreadable_file_ends_run base l1 rel l2 0 w).
  - exact files_to_process_nodup.
  - vm_compute; reflexivity.
  - vm_compute; reflexivity.
Defined.

(** X22: a file that can be read and may not be written.  When no pass
    changes the text it reads, processing the file returns [False] after
    the three reads, as for any other file; when some pass does, the
    exception of [open(file_path, 'w')] ends the run: nothing is
    written and every file is as it was. *)
Theorem read_only_file (path c0 : text) (w : world) :
  fs w path = Some (File c0 false) ->
  (file_fixed path c0 = false ->
   process_file path w
   = Ok false
        (World (fs w) (trace w ++ [EvRead path; EvRead path; EvRead path])))
  /\ (file_fixed path c0 = true ->
      exists w',
        process_file path w = Raised w'
        /\ fs w' = fs w
        /\ writes (trace w') = writes (trace w)).
Proof.
  intros Hfs.
  assert (Hlog : forall w0, fs w0 path = Some (File c0 false) ->
                            fs (log (EvRead path) w0) path
                            = Some (File c0 false)) by (intros; assumption).
  unfold file_fixed, process_file, remove_console_logs, fix_unused_imports,
    fix_hook_dependencies, after3, after2, after1.
  destruct (text_eqb (remove_console_logs_text c0) c0) eqn:E1.
  - apply text_eqb_eq in E1. rewrite E1.
    rewrite (run_pass_unchanged _ path c0 false w Hfs E1).
    destruct (text_eqb (fix_unused_imports_text path c0) c0) eqn:E2.
    + apply text_eqb_eq in E2. rewrite E2.
      rewrite (run_pass_unchanged _ path c0 false _ (Hlog _ Hfs) E2).
      destruct (text_eqb (fix_hook_dependencies_text path c0) c0) eqn:E3.
      * apply text_eqb_eq in E3.
        rewrite (run_pass_unchanged _ path c0 false _
                   (Hlog _ (Hlog _ Hfs)) E3).
        split; [|discriminate]. intros _. unfold log. cbn [fs trace orb].
        now rewrite <- !app_assoc.
      * apply text_eqb_neq in E3.
        rewrite (run_pass_read_only _ path c0 _ (Hlog _ (Hlog _ Hfs)) E3).
        split; [discriminate|]. intros _. eexists. split; [reflexivity|].
        split; [reflexivity|]. cbn [trace log].
        rewrite !writes_app. cbn. now rewrite !app_nil_r.
    + apply text_eqb_neq in E2.
      rewrite (run_pass_read_only _ path c0 _ (Hlog _ Hfs) E2).
      split; [discriminate|]. intros _. eexists. split; [reflexivity|].
      split; [reflexivity|]. cbn [trace log].
      rewrite !writes_app. cbn. now rewrite !app_nil_r.
  - apply text_eqb_neq in E1.
    rewrite (run_pass_read_only _ path c0 w Hfs E1).
    split; [discriminate|]. intros _. eexists. split; [reflexivity|].
    split; [reflexivity|]. cbn [trace log].
    rewrite !writes_app. cbn. now rewrite !app_nil_r.
Qed.

Lemma read_only_file_witness :
  let path := codes "src/app/dashboard/tokens/page.tsx" in
  let c0 := polls_old in
  let w := World (fun p => if text_eqb p path
                           then Some (File c0 false) else None) [] in
  (file_fixed path c0 = false ->
   process_file path w
   = Ok false
        (World (fs w) (trace w ++ [EvRead path; EvRead path; EvRead path])))
  /\ (file_fixed path c0 = true ->
      exists w',
        process_file path w = Raised w'
        /\ fs w' = fs w
        /\ writes (trace w') = writes (trace w)).
Proof.
  intros path c0 w.
  apply (read_only_file path c0 w). vm_compute; reflexivity.
Defined.

(** ** The blank-line rule as a function *)

Lemma not_nl_sym (c : char) : not_nl c = negb (N.eqb NL c).
Proof. unfold not_nl. now rewrite N.eqb_sym. Qed.

Lemma filter_squeeze_go (s : text) :
  forall run, filter not_nl (squeeze_go run s) = filter not_nl s.
Proof.
  induction s as [|c s IH]; intros run; cbn [squeeze_go filter];
    [reflexivity|].
  rewrite not_nl_sym. destruct (N.eqb NL c) eqn:E; cbn [negb].
  - destruct (run <? 2); [|apply IH].
    cbn [filter]. rewrite not_nl_sym, E. apply IH.
  - cbn [filter]. rewrite not_nl_sym, E. cbn [negb]. now rewrite IH.
Qed.

(** X11: the blank-line rule applied twice gives what it gives once; it
    keeps every character other than a newline, in order; and it leaves a
    text as it is exactly when the text has no three consecutive
    newlines. *)
Theorem collapse_idempotent (s : text) :
  collapse (collapse s) = collapse s
  /\ filter not_nl (collapse s) = filter not_nl s
  /\ (collapse s = s <-> contains triple_nl s = false).
Proof.
  assert (Hid : forall t, contains triple_nl t = false -> collapse t = t)
    by (intros t Ht; apply sub_no_match; now apply search_blank_lines).
  split; [apply Hid, collapse_no_triple|]. split.
  - rewrite collapse_squeeze. apply filter_squeeze_go.
  - split; [|apply Hid].
    intros E. rewrite <- E. apply collapse_no_triple.
Qed.

(** ** The engine: stepping through a pattern *)

Lemma m_cat {A : Type} (r1 r2 : re) prev s g (k : @kont A) :
  m (Cat r1 r2) prev s g k = m r1 prev s g (fun p s' g' => m r2 p s' g' k).
Proof. reflexivity. Qed.

Lemma m_str {A : Type} (w : string) prev s g (k : @kont A) :
  m (str w) prev (codes w ++ s) g k = k (end_prev prev (codes w)) s g.
Proof. apply m_lit. Qed.

Lemma m_ws_take {A : Type} (a b : text) prev g (k : @kont A) r :
  forallb is_space a = true -> stops is_space b = true ->
  k (end_prev prev a) b g = Some r ->
  m ws prev (a ++ b) g k = Some r.
Proof. intros; unfold ws; cbn [m]; now apply star_take. Qed.

Lemma plus_take {A : Type} (p : char -> bool) (a b : text) prev g
      (k : @kont A) r :
  a <> [] -> forallb p a = true -> stops p b = true ->
  k (end_prev prev a) b g = Some r ->
  m (Plus p) prev (a ++ b) g k = Some r.
Proof.
  intros Hne Ha Hb Hk. destruct a as [|c a]; [contradiction|].
  cbn [forallb] in Ha. apply andb_true_iff in Ha as [Hc Ha].
  cbn [app m]. rewrite Hc. now apply star_take.
Qed.

Lemma firstn_consumed (a b : text) :
  firstn (List.length (a ++ b) - List.length b) (a ++ b) = a.
Proof.
  rewrite length_app, Nat.add_sub.
  rewrite firstn_app, Nat.sub_diag, firstn_all. cbn [firstn]. apply app_nil_r.
Qed.

Lemma grp_plus_take {A : Type} (p : char -> bool) (a b : text) prev g
      (k : @kont A) r :
  a <> [] -> forallb p a = true -> stops p b = true ->
  k (end_prev prev a) b (Some a) = Some r ->
  m (Grp (Plus p)) prev (a ++ b) g k = Some r.
Proof.
  intros Hne Ha Hb Hk. cbn [m]. fold (@m A (Plus p)).
  change (m (Plus p) prev (a ++ b) g
            (fun p' s' _ =>
               k p' s' (Some (firstn (List.length (a ++ b) - List.length s')
                                     (a ++ b)))) = Some r).
  apply plus_take; try assumption.
  now rewrite firstn_consumed.
Qed.

(** ** The [fetchTags] effect *)

Ltac lit_step := rewrite m_cat, m_str; cbv beta.
Ltac ws_step :=
  rewrite m_cat; apply m_ws_take; [reflexivity | reflexivity | cbv beta].
Ltac wsn_step :=
  rewrite m_cat; unfold wsn1;
  apply plus_take; [discriminate | reflexivity | reflexivity | cbv beta].

Lemma match_fetch_effect (prev : option char) (cond deps post : text) :
  cond <> [] -> forallb (not_chr ")") cond = true ->
  deps <> [] -> forallb (not_chr "]") deps = true ->
  match_at re_fetch_tags prev (fetch_effect cond deps ++ post)
  = Some (post, Some deps).
Proof.
  intros Hc1 Hc2 Hd1 Hd2.
  replace (fetch_effect cond deps ++ post)
    with (codes "useEffect(()" ++ codes " " ++ codes "=>" ++ codes " "
          ++ codes "{" ++ (nl ++ codes "    ") ++ codes "if" ++ codes " "
          ++ codes "(" ++ cond
          ++ codes ")" ++ codes " " ++ codes "{" ++ (nl ++ codes "      ")
          ++ codes "fetchTags();" ++ (nl ++ codes "    ") ++ codes "}"
          ++ (nl ++ codes "  ") ++ codes "}," ++ codes " " ++ codes "["
          ++ deps ++ codes "])" ++ post)
    by (unfold fetch_effect; rewrite <- !app_assoc; reflexivity).
  unfold match_at, re_fetch_tags. cbn [cat].
  lit_step. ws_step. lit_step. ws_step. lit_step. wsn_step.
  lit_step. ws_step. lit_step.
  rewrite m_cat. apply plus_take; [exact Hc1 | exact Hc2 | reflexivity |].
  cbv beta.
  lit_step. ws_step. lit_step. wsn_step. lit_step. wsn_step. lit_step.
  wsn_step. lit_step. ws_step. lit_step.
  rewrite m_cat. apply grp_plus_take; [exact Hd1 | exact Hd2 | reflexivity |].
  cbv beta. lit_step. reflexivity.
Qed.

Lemma expand_fetch_tags (deps : text) :
  expand tpl_fetch_tags (Some deps)
  = fetch_effect deps (deps ++ codes ", fetchTags").
Proof.
  unfold tpl_fetch_tags, fetch_effect. cbn [expand].
  rewrite <- !app_assoc. reflexivity.
Qed.

Lemma fetch_effect_nonempty (cond deps : text) : fetch_effect cond deps <> [].
Proof. discriminate. Qed.

(** X12: in a file whose path contains 'WalletTagsContext.tsx' (and none
    of the other three fragments of the pass), the first [fetchTags]
    effect of the text is rewritten so that its [if] tests the text of
    the dependency list, whatever condition it tested before, and the
    list gets [fetchTags] appended.  The condition must be without a
    closing parenthesis and the list without a closing bracket for the
    rule to apply. *)
Theorem fetch_effect_condition_overwritten
        (path pre cond deps post : text) :
  in_path "WalletTagsContext.tsx" path = true ->
  in_path "tokens/page.tsx" path = false ->
  in_path "tokens-table.tsx" path = false ->
  in_path "additional-tags.tsx" path = false ->
  starts_before (codes "useEffect(()") pre (fetch_effect cond deps ++ post)
  = false ->
  cond <> [] -> forallb (not_chr ")") cond = true ->
  deps <> [] -> forallb (not_chr "]") deps = true ->
  fix_hook_dependencies_text path (pre ++ fetch_effect cond deps ++ post)
  = pre ++ fetch_effect deps (deps ++ codes ", fetchTags")
    ++ sub_go re_fetch_tags tpl_fetch_tags (Some (code ")")) post 0.
Proof.
  intros P1 P2 P3 P4 Hpre Hc1 Hc2 Hd1 Hd2.
  unfold fix_hook_dependencies_text. rewrite P1, P2, P3, P4. unfold sub.
  assert (Hfail : forall prev s,
             prefixb (codes "useEffect(()") s = false ->
             match_at re_fetch_tags prev s = None).
  { intros prev s Hs. unfold match_at, re_fetch_tags. cbn [cat].
    now apply (m_lit_fail (codes "useEffect(()")). }
  rewrite (sub_go_copy_prefix _ _ _ Hfail pre _ None Hpre). f_equal.
  rewrite (sub_go_match _ _ _ (fetch_effect cond deps) post (Some deps));
    [| apply fetch_effect_nonempty | now apply match_fetch_effect].
  rewrite expand_fetch_tags. f_equal.
  unfold fetch_effect. rewrite !end_prev_app. reflexivity.
Qed.

Lemma fetch_effect_condition_overwritten_witness :
  let path := codes "src/contexts/WalletTagsContext.tsx" in
  let pre := codes "function Provider() { " in
  let cond := codes "!loaded && user" in
  let deps := codes "apiBaseUrl" in
  let post := codes "; return null; }" in
  fix_hook_dependencies_text path (pre ++ fetch_effect cond deps ++ post)
  = pre ++ fetch_effect deps (deps ++ codes ", fetchTags")
    ++ sub_go re_fetch_tags tpl_fetch_tags (Some (code ")")) post 0.
Proof.
  intros path pre cond deps post.
  apply (fetch_effect_condition_overwritten path pre cond deps post);
    first [discriminate | vm_compute; reflexivity].
Defined.

(** ** The memoised columns (backtracking of a greedy class) *)

Lemma tails_ok_spec (l b : text) :
  forall a a1 a2,
    tails_ok l a b = true -> a = a1 ++ a2 -> prefixb l (a2 ++ b) = false.
Proof.
  induction a as [|c a IH]; intros a1 a2 H E.
  - symmetry in E. apply app_eq_nil in E as [_ ->].
    cbn [tails_ok] in H. apply andb_true_iff in H as [H _].
    now apply negb_true_iff in H.
  - cbn [tails_ok] in H. apply andb_true_iff in H as [H1 H2].
    destruct a1 as [|d a1].
    + cbn [app] in E. subst a2. now apply negb_true_iff in H1.
    + cbn [app] in E. injection E as _ E. exact (IH a1 a2 H2 E).
Qed.

(** A greedy class that ran over [a ++ t] gives [t] back when what
    follows fails at every later position and succeeds in front of [t]. *)
Lemma star_back {A : Type} (p : char -> bool) (k : @kont A) (g : option text) :
  forall a t b prev r,
    forallb p a = true -> forallb p t = true -> stops p b = true ->
    (forall t1 t2, t = t1 ++ t2 -> t1 <> [] ->
                   k (end_prev prev (a ++ t1)) (t2 ++ b) g = None) ->
    k (end_prev prev a) (t ++ b) g = Some r ->
    star_m p prev (a ++ t ++ b) g k = Some r.
Proof.
  induction a as [|d a IH]; intros t b prev r Ha Ht Hb Hnone Hk.
  - cbn [app]. cbn [end_prev fold_left] in Hk.
    destruct t as [|c t].
    + cbn [app] in *. destruct b as [|e b]; cbn [star_m]; [exact Hk|].
      cbn [stops] in Hb. apply negb_true_iff in Hb. now rewrite Hb.
    + cbn [forallb] in Ht. apply andb_true_iff in Ht as [Hc Ht].
      cbn [app star_m]. rewrite Hc.
      rewrite (star_none p k g t b (Some c) Ht Hb); [exact Hk|].
      intros a1 a2 ->.
      apply (Hnone (c :: a1) a2 eq_refl). discriminate.
  - cbn [forallb] in Ha. apply andb_true_iff in Ha as [Hd Ha].
    cbn [app star_m]. rewrite Hd.
    rewrite (IH t b (Some d) r Ha Ht Hb); [reflexivity | | exact Hk].
    intros t1 t2 E Hne. exact (Hnone t1 t2 E Hne).
Qed.

Lemma plus_back {A : Type} (p : char -> bool) (k : @kont A) (g : option text)
      (a t b : text) prev r :
  a <> [] ->
  forallb p a = true -> forallb p t = true -> stops p b = true ->
  (forall t1 t2, t = t1 ++ t2 -> t1 <> [] ->
                 k (end_prev prev (a ++ t1)) (t2 ++ b) g = None) ->
  k (end_prev prev a) (t ++ b) g = Some r ->
  m (Plus p) prev (a ++ t ++ b) g k = Some r.
Proof.
  intros Hne Ha Ht Hb Hnone Hk. destruct a as [|c a]; [contradiction|].
  cbn [forallb] in Ha. apply andb_true_iff in Ha as [Hc Ha].
  cbn [app m]. rewrite Hc.
  apply star_back; try assumption.
Qed.

Lemma grp_alt_lit_l {A : Type} (l1 l2 s : text) prev g (k : @kont A) r :
  k (end_prev prev l1) s (Some l1) = Some r ->
  m (Grp (Alt (lit l1) (lit l2))) prev (l1 ++ s) g k = Some r.
Proof.
  intros Hk. cbn [m]. fold (@m A (lit l1)). fold (@m A (lit l2)).
  rewrite m_lit. cbv beta. rewrite firstn_consumed.
  match goal with
  | |- match ?x with _ => _ end = _ =>
      replace x with (Some r) by (symmetry; exact Hk)
  end.
  reflexivity.
Qed.

Lemma grp_alt_lit_r {A : Type} (l1 l2 s : text) prev g (k : @kont A) r :
  prefixb l1 (l2 ++ s) = false ->
  k (end_prev prev l2) s (Some l2) = Some r ->
  m (Grp (Alt (lit l1) (lit l2))) prev (l2 ++ s) g k = Some r.
Proof.
  intros Hp Hk. cbn [m]. fold (@m A (lit l1)). fold (@m A (lit l2)).
  rewrite (m_lit_none l1) by exact Hp.
  rewrite m_lit. cbv beta. rewrite firstn_consumed. exact Hk.
Qed.

Lemma match_memo_block (prev : option char) (body : text) (dep : string)
      (post : text) :
  body <> [] -> forallb (not_chr "}") body = true ->
  dep = "onDelete"%string \/ dep = "sortedData"%string ->
  match_at re_use_memo prev (memo_block body dep ++ post)
  = Some (post, Some (codes dep)).
Proof.
  intros Hb1 Hb2 Hdep.
  replace (memo_block body dep ++ post)
    with (codes "useMemo(()" ++ codes " " ++ codes "=>" ++ codes " "
          ++ codes "{" ++ body ++ (codes "return columns;" ++ nl ++ codes "  ")
          ++ codes "}, [" ++ codes dep ++ codes "])" ++ post)
    by (unfold memo_block; rewrite <- !app_assoc; reflexivity).
  unfold match_at, re_use_memo. cbn [cat].
  lit_step. ws_step. lit_step. ws_step. lit_step.
  rewrite m_cat. apply plus_back;
    [exact Hb1 | exact Hb2 | reflexivity | reflexivity | |].
  - intros t1 t2 E Hne. cbv beta. apply m_lit_fail.
    destruct t1 as [|c t1]; [contradiction|].
    cbn [app] in E. injection E as _ E.
    eapply tails_ok_spec; [|exact E]. reflexivity.
  - cbv beta.
    change ((codes "return columns;" ++ nl ++ codes "  ")
            ++ codes "}, [" ++ codes dep ++ codes "])" ++ post)
      with (codes "return" ++ codes " " ++ codes "columns;"
            ++ (nl ++ codes "  ") ++ codes "}," ++ codes " " ++ codes "["
            ++ codes dep ++ codes "])" ++ post).
    lit_step. rewrite m_cat; unfold ws1.
    apply plus_take; [discriminate | reflexivity | reflexivity | cbv beta].
    lit_step. wsn_step. lit_step. ws_step. lit_step.
    rewrite m_cat. destruct Hdep as [-> | ->].
    + apply grp_alt_lit_l. cbv beta. lit_step. reflexivity.
    + apply grp_alt_lit_r; [reflexivity|]. cbv beta. lit_step. reflexivity.
Qed.

Lemma expand_use_memo (dep : string) :
  expand tpl_use_memo (Some (codes dep)) = memo_rewritten dep.
Proof.
  unfold tpl_use_memo, memo_rewritten. cbn [expand].
  rewrite <- !app_assoc. reflexivity.
Qed.

Lemma memo_block_nonempty (body : text) (dep : string) :
  memo_block body dep <> [].
Proof. discriminate. Qed.

Lemma memo_block_last (prev : option char) (body : text) (dep : string) :
  end_prev prev (memo_block body dep) = Some (code ")").
Proof.
  unfold memo_block. rewrite !end_prev_app. reflexivity.
Qed.

Lemma use_memo_needs_start (prev : option char) (s : text) :
  prefixb (codes "useMemo(()") s = false -> match_at re_use_memo prev s = None.
Proof.
  intros Hs. unfold match_at, re_use_memo. cbn [cat].
  now apply (m_lit_fail (codes "useMemo(()")).
Qed.

Lemma memo_block_sub (pre body : text) (dep : string) (post : text) :
  starts_before (codes "useMemo(()") pre (memo_block body dep ++ post)
  = false ->
  body <> [] -> forallb (not_chr "}") body = true ->
  dep = "onDelete"%string \/ dep = "sortedData"%string ->
  sub re_use_memo tpl_use_memo (pre ++ memo_block body dep ++ post)
  = pre ++ memo_rewritten dep
    ++ sub_go re_use_memo tpl_use_memo (Some (code ")")) post 0.
Proof.
  intros Hpre Hb1 Hb2 Hdep. unfold sub.
  rewrite (sub_go_copy_prefix _ _ _ use_memo_needs_start pre _ None Hpre).
  f_equal.
  rewrite (sub_go_match _ _ _ (memo_block body dep) post (Some (codes dep)));
    [| apply memo_block_nonempty | now apply match_memo_block].
  now rewrite expand_use_memo, memo_block_last.
Qed.

Lemma hook_pass_memo_only (path content : text) :
  in_path "tokens-table.tsx" path = true ->
  in_path "tokens/page.tsx" path = false ->
  in_path "additional-tags.tsx" path = false ->
  in_path "WalletTagsContext.tsx" path = false ->
  fix_hook_dependencies_text path content
  = sub re_use_memo tpl_use_memo content.
Proof.
  intros P1 P2 P3 P4. unfold fix_hook_dependencies_text.
  now rewrite P1, P2, P3, P4.
Qed.

(** X13: in a file whose path contains 'tokens-table.tsx' (and none of
    the other three fragments of the pass), the first [useMemo] block of
    the text whose body has no closing brace and ends in
    [return columns;] is replaced by a block that has ONLY
    [return columns;] as its body: whatever the body computed is
    dropped, and [handleDelete] is added behind the dependency, which
    must be [onDelete] or [sortedData]. *)
Theorem memo_body_dropped (path pre body : text) (dep : string) (post : text) :
  in_path "tokens-table.tsx" path = true ->
  in_path "tokens/page.tsx" path = false ->
  in_path "additional-tags.tsx" path = false ->
  in_path "WalletTagsContext.tsx" path = false ->
  starts_before (codes "useMemo(()") pre (memo_block body dep ++ post)
  = false ->
  body <> [] -> forallb (not_chr "}") body = true ->
  dep = "onDelete"%string \/ dep = "sortedData"%string ->
  fix_hook_dependencies_text path (pre ++ memo_block body dep ++ post)
  = pre ++ memo_rewritten dep
    ++ sub_go re_use_memo tpl_use_memo (Some (code ")")) post 0.
Proof.
  intros P1 P2 P3 P4 Hpre Hb1 Hb2 Hdep.
  rewrite (hook_pass_memo_only path) by assumption.
  now apply memo_block_sub.
Qed.

Lemma memo_body_dropped_witness :
  let path := codes "src/app/dashboard/tokens/tokens-table.tsx" in
  let pre := codes "const cols = " in
  let body := nl ++ codes "    const columns = build(onDelete);" ++ nl
              ++ codes "    " in
  let post := codes ";" in
  fix_hook_dependencies_text path
    (pre ++ memo_block body "onDelete" ++ post)
  = pre ++ memo_rewritten "onDelete"
    ++ sub_go re_use_memo tpl_use_memo (Some (code ")")) post 0.
Proof.
  intros path pre body post.
  apply (memo_body_dropped path pre body "onDelete" post);
    first [discriminate | now left | vm_compute; reflexivity].
Defined.

(** ** Replacing one fixed text by another *)

Lemma clash_prefixb (l r t : text) :
  clash l r = true -> prefixb l (r ++ t) = false.
Proof.
  revert r; induction l as [|c l IH]; intros [|d r] H; try discriminate.
  cbn [clash] in H. cbn [app prefixb].
  destruct (N.eqb c d); [|reflexivity].
  cbn [negb orb] in H. cbn [andb]. now apply IH.
Qed.

Lemma prefixb_split (l s : text) :
  prefixb l s = true -> s = l ++ skipn (List.length l) s.
Proof.
  revert s; induction l as [|c l IH]; intros [|d s] H; try reflexivity;
    try discriminate.
  cbn [prefixb] in H. apply andb_true_iff in H as [H1 H2].
  apply N.eqb_eq in H1 as ->. cbn [List.length skipn app]. f_equal.
  now apply IH.
Qed.

Section Literal.
Variables (L R : text).
Hypothesis L_nonempty : L <> [].
Hypothesis L_R : all_tails (fun l => clash l R) L = true.
Hypothesis R_L : all_tails (fun r => clash L r) R = true.

Lemma sub_lit_nil (prev : option char) : sub_lit L R prev [] = [].
Proof.
  unfold sub_lit. cbn [sub_go]. unfold match_at.
  rewrite m_lit_none; [reflexivity|].
  destruct L; [contradiction|reflexivity].
Qed.

Lemma sub_lit_hit (prev : option char) (s : text) :
  prefixb L s = true ->
  exists prev',
    sub_lit L R prev s = R ++ sub_lit L R prev' (skipn (List.length L) s).
Proof.
  intros H. exists (end_prev prev L). unfold sub_lit.
  rewrite (prefixb_split _ _ H) at 1.
  rewrite (sub_go_match _ _ _ L _ None L_nonempty).
  - cbn [expand]. now rewrite app_nil_r.
  - unfold match_at. now rewrite m_lit.
Qed.

Lemma sub_lit_miss (prev : option char) (c : char) (s : text) :
  prefixb L (c :: s) = false ->
  sub_lit L R prev (c :: s) = c :: sub_lit L R (Some c) s.
Proof.
  intros H. unfold sub_lit. cbn [sub_go]. unfold match_at.
  now rewrite m_lit_none.
Qed.

Lemma sub_lit_window :
  forall l, all_tails (fun l' => clash l' R) l = true ->
            forall prev s,
              prefixb l (sub_lit L R prev s) = true -> prefixb l s = true.
Proof.
  induction l as [|c l IH]; intros Hl prev s H; [reflexivity|].
  cbn [all_tails] in Hl. apply andb_true_iff in Hl as [Hc Hl].
  destruct (prefixb L s) eqn:E.
  - destruct (sub_lit_hit prev s E) as [p' E'].
    rewrite E', (clash_prefixb _ _ _ Hc) in H. discriminate.
  - destruct s as [|d s]; [rewrite sub_lit_nil in H; discriminate|].
    rewrite (sub_lit_miss prev d s E) in H.
    cbn [prefixb] in *. apply andb_true_iff in H as [H1 H2].
    rewrite H1. cbn [andb]. exact (IH Hl (Some d) s H2).
Qed.

Lemma sub_lit_not_at_start (prev : option char) (s : text) :
  prefixb L (sub_lit L R prev s) = false.
Proof.
  destruct (prefixb L (sub_lit L R prev s)) eqn:H; [|reflexivity].
  pose proof (sub_lit_window L L_R prev s H) as E.
  destruct (sub_lit_hit prev s E) as [p' E'].
  destruct L as [|c l]; [contradiction|].
  cbn [all_tails] in L_R. apply andb_true_iff in L_R as [Hc _].
  rewrite E', (clash_prefixb _ _ _ Hc) in H. discriminate.
Qed.

Lemma contains_replacement (t : text) :
  contains L t = false -> contains L (R ++ t) = false.
Proof.
  intros Ht. revert R_L. clear L_R. induction R as [|c r IH]; intros H;
    [exact Ht|].
  cbn [all_tails] in H. apply andb_true_iff in H as [Hc H].
  cbn [app contains].
  change (c :: r ++ t) with ((c :: r) ++ t).
  rewrite (clash_prefixb _ _ _ Hc). cbn [orb]. now apply IH.
Qed.

Lemma sub_lit_clean_n (n : nat) :
  forall s prev, List.length s <= n -> contains L (sub_lit L R prev s) = false.
Proof.
  induction n as [|n IH]; intros s prev Hn.
  - destruct s; [|cbn [List.length] in Hn; lia].
    rewrite sub_lit_nil. cbn [contains]. rewrite orb_false_r.
    destruct L; [contradiction|reflexivity].
  - destruct (prefixb L s) eqn:E.
    + destruct (sub_lit_hit prev s E) as [p' E']. rewrite E'.
      apply contains_replacement. apply IH.
      rewrite length_skipn.
      destruct L as [|c l]; [contradiction|]. cbn [List.length] in *. lia.
    + destruct s as [|d s].
      * rewrite sub_lit_nil. cbn [contains]. rewrite orb_false_r.
        destruct L; [contradiction|reflexivity].
      * pose proof (sub_lit_not_at_start prev (d :: s)) as H0.
        rewrite (sub_lit_miss prev d s E) in *.
        cbn [contains]. rewrite H0. cbn [orb].
        apply IH. cbn [List.length] in Hn. lia.
Qed.

Lemma sub_lit_clean (s : text) :
  contains L (sub (lit L) [Txt R] s) = false.
Proof. exact (sub_lit_clean_n (List.length s) s None (le_n _)). Qed.

Lemma sub_lit_idempotent (s : text) :
  sub (lit L) [Txt R] (sub (lit L) [Txt R] s) = sub (lit L) [Txt R] s.
Proof.
  apply sub_needs with (l := L); [|apply sub_lit_clean].
  clear -L_nonempty. 
  assert (E : forall l, as_lit (lit l) = Some l).
  { induction l as [|c l IH]; [reflexivity|]. cbn [lit as_lit]. now rewrite IH. }
  destruct L as [|c l]; [contradiction|].
  pose proof (E (c :: l)) as E1. cbn [lit] in E1.
  cbn [lit needs]. rewrite E1.
  assert (P : forall t, prefixb t t = true).
  { induction t as [|d t IH]; [reflexivity|]. cbn. now rewrite N.eqb_refl. }
  cbn [contains]. now rewrite P.
Qed.
End Literal.

Lemma hook_pass_polls_only (path content : text) :
  in_path "tokens/page.tsx" path = true ->
  in_path "tokens-table.tsx" path = false ->
  in_path "additional-tags.tsx" path = false ->
  in_path "WalletTagsContext.tsx" path = false ->
  fix_hook_dependencies_text path content
  = sub (lit polls_old) [Txt polls_new] content.
Proof.
  intros P1 P2 P3 P4. unfold fix_hook_dependencies_text.
  now rewrite P1, P2, P3, P4.
Qed.

(** X14: on a path that contains 'tokens/page.tsx' and none of the other
    three fragments of the pass, the hook pass replaces every
    [setPollsSinceLastActive(pollsSinceLastActive + 1)]: for EVERY text
    its output holds no such call any more, a second application of the
    pass changes nothing, and the pass leaves a text as it is exactly
    when the text has no such call. *)
Theorem polls_rule_idempotent (path content : text) :
  in_path "tokens/page.tsx" path = true ->
  in_path "tokens-table.tsx" path = false ->
  in_path "additional-tags.tsx" path = false ->
  in_path "WalletTagsContext.tsx" path = false ->
  contains polls_old (fix_hook_dependencies_text path content) = false
  /\ fix_hook_dependencies_text path (fix_hook_dependencies_text path content)
     = fix_hook_dependencies_text path content
  /\ (fix_hook_dependencies_text path content = content
      <-> contains polls_old content = false).
Proof.
  intros P1 P2 P3 P4.
  rewrite !(hook_pass_polls_only path) by assumption.
  assert (Hne : polls_old <> []) by discriminate.
  assert (H1 : all_tails (fun l => clash l polls_new) polls_old = true)
    by (vm_compute; reflexivity).
  assert (H2 : all_tails (fun r => clash polls_old r) polls_new = true)
    by (vm_compute; reflexivity).
  pose proof (sub_lit_clean polls_old polls_new Hne H1 H2 content) as Hc.
  split; [exact Hc|]. split.
  - apply (sub_lit_idempotent polls_old polls_new Hne H1 H2).
  - split; intros H.
    + now rewrite H in Hc.
    + apply sub_needs with (l := polls_old); [reflexivity | exact H].
Qed.

Lemma polls_rule_idempotent_witness :
  let path := codes "src/app/dashboard/tokens/page.tsx" in
  let content := codes "if (idle) { " ++ polls_old ++ codes "; }" in
  contains polls_old (fix_hook_dependencies_text path content) = false
  /\ fix_hook_dependencies_text path (fix_hook_dependencies_text path content)
     = fix_hook_dependencies_text path content
  /\ (fix_hook_dependencies_text path content = content
      <-> contains polls_old content = false).
Proof.
  intros path content.
  apply (polls_rule_idempotent path content); vm_compute; reflexivity.
Defined.

(** ** The rewritten memo is not rewritten again *)

Lemma prefixb_indep (l x r1 r2 : text) :
  List.length l <= List.length x ->
  prefixb l (x ++ r1) = prefixb l (x ++ r2).
Proof.
  revert x; induction l as [|c l IH]; intros [|d x] H; try reflexivity.
  - cbn [List.length] in H. lia.
  - cbn [List.length] in H. cbn [app prefixb]. f_equal. apply IH. lia.
Qed.

Lemma starts_before_indep (l x r1 r2 : text) :
  List.length l <= S (List.length x) ->
  forall pre, starts_before l pre (x ++ r1) = starts_before l pre (x ++ r2).
Proof.
  intros H; induction pre as [|c pre IH]; [reflexivity|].
  cbn [starts_before]. rewrite IH. f_equal.
  rewrite !app_assoc. apply prefixb_indep.
  cbn [app List.length]. rewrite length_app. lia.
Qed.

Lemma memo_rewritten_no_match (prev : option char) (dep : string)
      (post : text) :
  dep = "onDelete"%string \/ dep = "sortedData"%string ->
  match_at re_use_memo prev (memo_rewritten dep ++ post) = None.
Proof. intros [-> | ->]; vm_compute; reflexivity. Qed.

Lemma memo_rewritten_sub (pre : text) (dep : string) (post : text) :
  starts_before (codes "useMemo(()") pre (memo_rewritten dep ++ post)
  = false ->
  dep = "onDelete"%string \/ dep = "sortedData"%string ->
  contains (codes "useMemo(") post = false ->
  sub re_use_memo tpl_use_memo (pre ++ memo_rewritten dep ++ post)
  = pre ++ memo_rewritten dep ++ post.
Proof.
  intros Hpre Hdep Hpost. unfold sub.
  rewrite (sub_go_copy_prefix _ _ _ use_memo_needs_start pre _ None Hpre).
  f_equal.
  assert (Hc : exists c t, memo_rewritten dep = c :: t
                           /\ starts_before (codes "useMemo(()") t post = false).
  { destruct Hdep as [-> | ->]; eexists; eexists; (split; [reflexivity|]);
      vm_compute; reflexivity. }
  destruct Hc as (c & t & E & Ht).
  pose proof (memo_rewritten_no_match (end_prev None pre) dep post Hdep) as Hn.
  rewrite E in *. cbn [app] in *. cbn [sub_go]. rewrite Hn. f_equal.
  rewrite (sub_go_copy_prefix _ _ _ use_memo_needs_start t _ _ Ht). f_equal.
  apply sub_go_no_match.
  now apply search_go_needs with (l := codes "useMemo(").
Qed.

(** X15: on the same paths, when nothing after the rewritten [useMemo]
    block holds a [useMemo(], the result of the pass is the text with
    the one block replaced, and a second application of the pass leaves
    this result as it is: the rule does not match its own output. *)
Theorem memo_rewrite_stable (path pre body : text) (dep : string)
        (post : text) :
  in_path "tokens-table.tsx" path = true ->
  in_path "tokens/page.tsx" path = false ->
  in_path "additional-tags.tsx" path = false ->
  in_path "WalletTagsContext.tsx" path = false ->
  starts_before (codes "useMemo(()") pre (memo_block body dep ++ post)
  = false ->
  body <> [] -> forallb (not_chr "}") body = true ->
  dep = "onDelete"%string \/ dep = "sortedData"%string ->
  contains (codes "useMemo(") post = false ->
  fix_hook_dependencies_text path (pre ++ memo_block body dep ++ post)
  = pre ++ memo_rewritten dep ++ post
  /\ fix_hook_dependencies_text path (pre ++ memo_rewritten dep ++ post)
     = pre ++ memo_rewritten dep ++ post.
Proof.
  intros P1 P2 P3 P4 Hpre Hb1 Hb2 Hdep Hpost.
  rewrite !(hook_pass_memo_only path) by assumption. split.
  - rewrite memo_block_sub by assumption. do 2 f_equal.
    apply sub_go_no_match.
    now apply search_go_needs with (l := codes "useMemo(").
  - apply memo_rewritten_sub; try assumption.
    etransitivity; [|exact Hpre]. unfold memo_rewritten, memo_block.
    rewrite <- !app_assoc.
    apply (starts_before_indep _ (codes "useMemo(() => {")).
    cbn. lia.
Qed.

Lemma memo_rewrite_stable_witness :
  let path := codes "src/app/dashboard/tokens/tokens-table.tsx" in
  let pre := codes "const cols = " in
  let body := nl ++ codes "    const columns = build(sortedData);" ++ nl
              ++ codes "    " in
  let post := codes ";" in
  fix_hook_dependencies_text path (pre ++ memo_block body "sortedData" ++ post)
  = pre ++ memo_rewritten "sortedData" ++ post
  /\ fix_hook_dependencies_text path (pre ++ memo_rewritten "sortedData" ++ post)
     = pre ++ memo_rewritten "sortedData" ++ post.
Proof.
  intros path pre body post.
  apply (memo_rewrite_stable path pre body "sortedData" post);
    first [discriminate | now right | vm_compute; reflexivity].
Defined.

(** ** The [checkBotTag] effect in any layout *)

Lemma check_bot_tag_needs_start (prev : option char) (s : text) :
  prefixb (codes "useEffect(()") s = false ->
  match_at re_check_bot_tag prev s = None.
Proof.
  intros Hs. unfold match_at, re_check_bot_tag. cbn [cat].
  now apply (m_lit_fail (codes "useEffect(()")).
Qed.

Lemma match_effect_shape (prev : option char) (w1 w2 g1 g2 w3 post : text) :
  forallb is_space w1 = true -> forallb is_space w2 = true ->
  forallb is_space w3 = true ->
  g1 <> [] -> forallb space_or_nl g1 = true ->
  g2 <> [] -> forallb space_or_nl g2 = true ->
  match_at re_check_bot_tag prev (effect_shape w1 w2 g1 g2 w3 ++ post)
  = Some (post, None).
Proof.
  intros H1 H2 H3 Hg1 Hg1' Hg2 Hg2'.
  replace (effect_shape w1 w2 g1 g2 w3 ++ post)
    with (codes "useEffect(()" ++ w1 ++ codes "=>" ++ w2 ++ codes "{" ++ g1
          ++ codes "checkBotTag();" ++ g2 ++ codes "}," ++ w3 ++ codes "[])"
          ++ post)
    by (unfold effect_shape; rewrite <- !app_assoc; reflexivity).
  unfold match_at, re_check_bot_tag. cbn [cat].
  lit_step.
  rewrite m_cat; apply m_ws_take; [exact H1 | reflexivity | cbv beta].
  lit_step.
  rewrite m_cat; apply m_ws_take; [exact H2 | reflexivity | cbv beta].
  lit_step.
  rewrite m_cat; unfold wsn1;
    apply plus_take; [exact Hg1 | exact Hg1' | reflexivity | cbv beta].
  lit_step.
  rewrite m_cat; unfold wsn1;
    apply plus_take; [exact Hg2 | exact Hg2' | reflexivity | cbv beta].
  lit_step.
  rewrite m_cat; apply m_ws_take; [exact H3 | reflexivity | cbv beta].
  lit_step. reflexivity.
Qed.

Lemma effect_shape_nonempty (w1 w2 g1 g2 w3 : text) :
  effect_shape w1 w2 g1 g2 w3 <> [].
Proof. discriminate. Qed.

Lemma effect_rewritten_no_match (prev : option char) (post : text) :
  match_at re_check_bot_tag prev (effect_block_rewritten ++ post) = None.
Proof. vm_compute. reflexivity. Qed.

Lemma effect_rewritten_sub (pre post : text) :
  starts_before (codes "useEffect(()") pre (effect_block_rewritten ++ post)
  = false ->
  contains (codes "useEffect(") post = false ->
  sub re_check_bot_tag tpl_check_bot_tag (pre ++ effect_block_rewritten ++ post)
  = pre ++ effect_block_rewritten ++ post.
Proof.
  intros Hpre Hpost. unfold sub.
  rewrite (sub_go_copy_prefix _ _ _ check_bot_tag_needs_start pre _ None Hpre).
  f_equal.
  assert (Hc : exists c t,
             effect_block_rewritten = c :: t
             /\ starts_before (codes "useEffect(()") t post = false).
  { eexists; eexists; split; [reflexivity|]. vm_compute; reflexivity. }
  destruct Hc as (c & t & E & Ht).
  pose proof (effect_rewritten_no_match (end_prev None pre) post) as Hn.
  rewrite E in *. cbn [app] in *. cbn [sub_go]. rewrite Hn. f_equal.
  rewrite (sub_go_copy_prefix _ _ _ check_bot_tag_needs_start t _ _ Ht).
  f_equal. apply sub_go_no_match.
  now apply search_go_needs with (l := codes "useEffect(").
Qed.

Lemma hook_pass_effect_only (path content : text) :
  in_path "additional-tags.tsx" path = true ->
  in_path "tokens/page.tsx" path = false ->
  in_path "tokens-table.tsx" path = false ->
  in_path "WalletTagsContext.tsx" path = false ->
  fix_hook_dependencies_text path content
  = sub re_check_bot_tag tpl_check_bot_tag content.
Proof.
  intros P1 P2 P3 P4. unfold fix_hook_dependencies_text.
  now rewrite P1, P2, P3, P4.
Qed.

(** X16: in a file whose path contains 'additional-tags.tsx' (and none
    of the other three fragments of the pass), the first [checkBotTag]
    effect with an empty dependency list is replaced by one and the same
    three-line text whatever its layout was (any whitespace around [=>]
    and before the list, any non-empty whitespace around the call); when
    no [useEffect(] follows it, the rest of the text is kept, and a
    second application of the pass changes nothing. *)
Theorem effect_layout_normalised (path pre w1 w2 g1 g2 w3 post : text) :
  in_path "additional-tags.tsx" path = true ->
  in_path "tokens/page.tsx" path = false ->
  in_path "tokens-table.tsx" path = false ->
  in_path "WalletTagsContext.tsx" path = false ->
  starts_before (codes "useEffect(()") pre
                (effect_shape w1 w2 g1 g2 w3 ++ post) = false ->
  forallb is_space w1 = true -> forallb is_space w2 = true ->
  forallb is_space w3 = true ->
  g1 <> [] -> forallb space_or_nl g1 = true ->
  g2 <> [] -> forallb space_or_nl g2 = true ->
  contains (codes "useEffect(") post = false ->
  fix_hook_dependencies_text path (pre ++ effect_shape w1 w2 g1 g2 w3 ++ post)
  = pre ++ effect_block_rewritten ++ post
  /\ fix_hook_dependencies_text path (pre ++ effect_block_rewritten ++ post)
     = pre ++ effect_block_rewritten ++ post.
Proof.
  intros P1 P2 P3 P4 Hpre H1 H2 H3 Hg1 Hg1' Hg2 Hg2' Hpost.
  rewrite !(hook_pass_effect_only path) by assumption. split.
  - unfold sub.
    rewrite (sub_go_copy_prefix _ _ _ check_bot_tag_needs_start pre _ None Hpre).
    f_equal.
    rewrite (sub_go_match _ _ _ (effect_shape w1 w2 g1 g2 w3) post None);
      [| apply effect_shape_nonempty | now apply match_effect_shape].
    f_equal. apply sub_go_no_match.
    now apply search_go_needs with (l := codes "useEffect(").
  - apply effect_rewritten_sub; [|exact Hpost].
    etransitivity; [|exact Hpre]. unfold effect_shape.
    rewrite <- !app_assoc.
    change effect_block_rewritten
      with (codes "useEffect(()"
            ++ codes (" => {" ++ lf ++ "    checkBotTag();" ++ lf
                      ++ "  }, [checkBotTag])")).
    rewrite <- !app_assoc.
    apply (starts_before_indep _ (codes "useEffect(()")).
    cbn. lia.
Qed.

Lemma effect_layout_normalised_witness :
  let path := codes "src/components/additional-tags.tsx" in
  let pre := codes "function Tags() {" ++ nl ++ codes "  " in
  let w := codes " " in
  let g1 := nl ++ codes "      " in
  let g2 := nl ++ nl ++ codes "  " in
  let post := codes ";" ++ nl ++ codes "}" in
  fix_hook_dependencies_text path (pre ++ effect_shape w [] g1 g2 w ++ post)
  = pre ++ effect_block_rewritten ++ post
  /\ fix_hook_dependencies_text path (pre ++ effect_block_rewritten ++ post)
     = pre ++ effect_block_rewritten ++ post.
Proof.
  intros path pre w g1 g2 post.
  apply (effect_layout_normalised path pre w [] g1 g2 w post);
    first [discriminate | vm_compute; reflexivity].
Defined.

(** ** Occurrences of a word *)

Lemma prefixb_self (l s : text) : prefixb l (l ++ s) = true.
Proof.
  induction l as [|c l IH]; [reflexivity|].
  cbn [app prefixb]. now rewrite N.eqb_refl.
Qed.

Lemma starts_before_app (l a b r : text) :
  starts_before l (a ++ b) r
  = starts_before l a (b ++ r) || starts_before l b r.
Proof.
  induction a as [|c a IH]; [reflexivity|].
  cbn [app starts_before]. rewrite IH, orb_assoc.
  change (c :: a ++ b) with ((c :: a) ++ b). now rewrite <- app_assoc.
Qed.

Lemma contains_split (l a b : text) :
  contains l (a ++ b) = starts_before l a b || contains l b.
Proof.
  induction a as [|c a IH]; [reflexivity|].
  cbn [app starts_before contains]. now rewrite IH, orb_assoc.
Qed.

Lemma contains_false_app (l a b : text) :
  contains l (a ++ b) = false ->
  starts_before l a b = false /\ contains l b = false.
Proof. rewrite contains_split. apply orb_false_iff. Qed.

(** A word whose first character is outside a class does not start in a
    run of the class. *)
Lemma starts_before_class (p : char -> bool) (c : char) (l w r : text) :
  p c = false -> forallb p w = true -> starts_before (c :: l) w r = false.
Proof.
  intros Hc; induction w as [|d w IH]; intros Hw; [reflexivity|].
  cbn [forallb] in Hw. apply andb_true_iff in Hw as [Hd Hw].
  cbn [starts_before app prefixb]. rewrite (IH Hw), orb_false_r.
  destruct (N.eqb_spec c d) as [->|]; [congruence|reflexivity].
Qed.

(** A word without the character [d] does not lie across a [d]. *)
Lemma prefixb_across (d : char) (l : text) :
  forallb (fun c => negb (N.eqb c d)) l = true ->
  forall a b, prefixb l (a ++ d :: b) = prefixb l a.
Proof.
  induction l as [|c l IH]; intros Hl a b; [now destruct a|].
  cbn [forallb] in Hl. apply andb_true_iff in Hl as [Hc Hl].
  destruct a as [|e a]; cbn [app prefixb].
  - apply negb_true_iff in Hc. now rewrite Hc.
  - now rewrite IH.
Qed.

Lemma starts_before_across (d : char) (l : text) :
  forallb (fun c => negb (N.eqb c d)) l = true ->
  forall a b, contains l a = false -> starts_before l a (d :: b) = false.
Proof.
  intros Hl; induction a as [|e a IH]; intros b Ha; [reflexivity|].
  cbn [contains] in Ha. apply orb_false_iff in Ha as [H1 H2].
  cbn [starts_before]. rewrite (prefixb_across d l Hl), H1. cbn [orb].
  now apply IH.
Qed.

Lemma contains_prefix (l s : text) :
  prefixb l s = true -> contains l s = true.
Proof. intros H; destruct s; cbn [contains]; now rewrite H. Qed.

(** The first occurrence of a word. *)
Lemma first_occ (l Q Q' : text) :
  forall A v,
    starts_before l A (l ++ Q) = false ->
    A ++ l ++ Q = v ++ l ++ Q' ->
    (v = A /\ Q' = Q)
    \/ exists c d, v = A ++ c :: d /\ l ++ Q = c :: d ++ l ++ Q'.
Proof.
  induction A as [|a A IH]; intros v H E.
  - destruct v as [|c d].
    + left. split; [reflexivity|]. cbn [app] in E.
      now apply app_inv_head in E.
    + right. exists c, d. split; [reflexivity|exact E].
  - cbn [starts_before] in H. apply orb_false_iff in H as [H1 H2].
    destruct v as [|c v].
    + cbn [app] in E. change (a :: A ++ l ++ Q) with ((a :: A) ++ l ++ Q) in E.
      rewrite E, prefixb_self in H1. discriminate.
    + cbn [app] in E. injection E as -> E.
      destruct (IH v H2 E) as [[-> ->] | (c' & d & -> & E')].
      * now left.
      * right. exists c', d. split; [reflexivity|exact E'].
Qed.

(** The only occurrence of a word. *)
Lemma only_occ (l A Q v Q' : text) :
  starts_before l A (l ++ Q) = false ->
  contains l (tl (l ++ Q)) = false ->
  A ++ l ++ Q = v ++ l ++ Q' -> v = A /\ Q' = Q.
Proof.
  intros H1 H2 E.
  destruct (first_occ l Q Q' A v H1 E) as [H | (c & d & _ & E')]; [exact H|].
  rewrite E' in H2. cbn [tl] in H2.
  rewrite (contains_app_r l d (l ++ Q')) in H2; [discriminate|].
  apply contains_prefix, prefixb_self.
Qed.

Lemma search_go_none (r : re) :
  forall t,
    (forall y s prev, t = y ++ s -> match_at r prev s = None) ->
    forall prev, search_go r prev t = false.
Proof.
  induction t as [|c t IH]; intros H prev; cbn [search_go].
  - now rewrite (H [] [] prev eq_refl).
  - rewrite (H [] (c :: t) prev eq_refl). apply IH.
    intros y s p ->. apply (H (c :: y) s p eq_refl).
Qed.

(** ** The click handler *)

Lemma should_log_match_inv (prev : option char) (s rest : text)
      (g : option text) :
  match_at re_should_log prev s = Some (rest, g) ->
  exists u args v,
    s = u ++ codes "console." ++ codes "log" ++ codes "(" ++ args
        ++ codes ");" ++ v
    /\ forallb (not_chr ")") args = true.
Proof.
  unfold match_at, re_should_log; cbn [cat m]; intros H.
  unfold ws, str, no_rparen in H; cbn [m] in H.
  apply star_inv in H as (w1 & s1 & -> & _ & H).
  apply m_lit_inv in H as (s2 & -> & H).
  apply star_inv in H as (w2 & s3 & -> & _ & H).
  apply m_lit_inv in H as (s4 & -> & H).
  apply star_inv in H as (w3 & s5 & -> & _ & H).
  apply m_lit_inv in H as (s6 & -> & H).
  apply star_inv in H as (w4 & s7 & -> & _ & H).
  apply m_lit_inv in H as (s8 & -> & H).
  apply star_inv in H as (args & s9 & -> & Hargs & H).
  apply m_lit_inv in H as (s10 & -> & _).
  exists (w1 ++ codes "if" ++ w2 ++ codes "(shouldLog())" ++ w3 ++ codes "{"
          ++ w4), args, s10.
  split; [|exact Hargs]. rewrite <- !app_assoc. reflexivity.
Qed.

Lemma m_star {A : Type} (p : char -> bool) prev s g (k : @kont A) :
  m (Star p) prev s g k = star_m p prev s g k.
Proof. reflexivity. Qed.

Section ClickHandler.
Variables (pre w1 w2 args post : text).
Hypothesis Hw1 : forallb is_space w1 = true.
Hypothesis Hw2 : forallb is_space w2 = true.
Hypothesis Hargs : forallb (not_chr ")") args = true.
Hypothesis Hclean :
  contains (codes "console.") (pre ++ onclick_empty ++ post) = false.
Hypothesis Hargs_clean : contains (codes "console.") args = false.

Lemma handler_text :
  pre ++ onclick_handler w1 w2 args ++ post
  = (pre ++ codes "onClick={()" ++ w1 ++ codes "=>" ++ w2)
    ++ codes "console." ++ codes "log(" ++ args ++ codes ")}" ++ post.
Proof. unfold onclick_handler. rewrite <- !app_assoc. reflexivity. Qed.

Lemma handler_post_clean : contains (codes "console.") post = false.
Proof.
  apply contains_false_app in Hclean as [_ H].
  now apply contains_false_app in H as [_ H].
Qed.

Lemma handler_first_console :
  starts_before (codes "console.")
    (pre ++ codes "onClick={()" ++ w1 ++ codes "=>" ++ w2)
    (codes "console." ++ codes "log(" ++ args ++ codes ")}" ++ post) = false.
Proof.
  rewrite starts_before_app. apply orb_false_iff. split.
  - apply contains_false_app in Hclean as [H _].
    etransitivity; [|exact H]. rewrite <- !app_assoc.
    change onclick_empty with (codes "onClick={()" ++ codes " => {}}").
    rewrite <- !app_assoc.
    apply (starts_before_indep _ (codes "onClick={()")). cbn. lia.
  - rewrite !starts_before_app. rewrite !orb_false_iff.
    split; [reflexivity|]. split; [|split; [reflexivity|]].
    + now apply (starts_before_class is_space (code "c") (codes "onsole.")).
    + now apply (starts_before_class is_space (code "c") (codes "onsole.")).
Qed.

Lemma handler_last_console :
  contains (codes "console.")
    (tl (codes "console." ++ codes "log(" ++ args ++ codes ")}" ++ post))
  = false.
Proof.
  change (tl (codes "console." ++ codes "log(" ++ args ++ codes ")}" ++ post))
    with (codes "onsole.log(" ++ args ++ code ")" :: code "}" :: post).
  rewrite contains_split. apply orb_false_iff. split; [reflexivity|].
  rewrite contains_split. apply orb_false_iff. split.
  - apply starts_before_across; [reflexivity | exact Hargs_clean].
  - cbn [contains]. rewrite handler_post_clean. reflexivity.
Qed.

(** No console call of the text is closed by [);]. *)
Lemma handler_no_closed_call (u : text) (name : string) (ar v : text) :
  In name console_names -> forallb (not_chr ")") ar = true ->
  pre ++ onclick_handler w1 w2 args ++ post
  = u ++ codes "console." ++ codes name ++ codes "(" ++ ar ++ codes ");" ++ v ->
  False.
Proof.
  intros Hin Har E. rewrite handler_text in E.
  apply (only_occ _ _ _ _ _ handler_first_console handler_last_console) in E
    as [_ E].
  names_cases Hin; try discriminate.
  cbn [codes app] in E. injection E as E.
  apply (run_unique (not_chr ")")) in E as [_ E];
    try assumption; try reflexivity; discriminate.
Qed.

Lemma handler_console_line_nowhere :
  search re_console_line (pre ++ onclick_handler w1 w2 args ++ post) = false.
Proof.
  apply search_go_none. intros y s prev E.
  destruct (match_at re_console_line prev s) as [[rest g]|] eqn:Hm;
    [|reflexivity].
  apply console_line_match_inv in Hm
    as (_ & _ & v1 & name & ar & v2 & -> & _ & Hin & Har & _).
  exfalso. apply (handler_no_closed_call (y ++ v1) name ar (v2 ++ rest) Hin Har).
  rewrite E. unfold console_call. rewrite <- !app_assoc. reflexivity.
Qed.

Lemma handler_should_log_nowhere :
  search re_should_log (pre ++ onclick_handler w1 w2 args ++ post) = false.
Proof.
  apply search_go_none. intros y s prev E.
  destruct (match_at re_should_log prev s) as [[rest g]|] eqn:Hm;
    [|reflexivity].
  apply should_log_match_inv in Hm as (u & ar & v & -> & Har).
  exfalso. apply (handler_no_closed_call (y ++ u) "log" ar v); [|exact Har|].
  - cbn; tauto.
  - rewrite E. rewrite <- !app_assoc. reflexivity.
Qed.

Lemma match_onclick_handler (prev : option char) :
  match_at re_onclick prev (onclick_handler w1 w2 args ++ post)
  = Some (post, None).
Proof.
  replace (onclick_handler w1 w2 args ++ post)
    with (codes "onClick={()" ++ w1 ++ codes "=>" ++ w2
          ++ codes "console.log(" ++ args ++ codes ")}" ++ post)
    by (unfold onclick_handler; rewrite <- !app_assoc; reflexivity).
  unfold match_at, re_onclick. cbn [cat].
  lit_step.
  rewrite m_cat; apply m_ws_take; [exact Hw1 | reflexivity | cbv beta].
  lit_step.
  rewrite m_cat; apply m_ws_take; [exact Hw2 | reflexivity | cbv beta].
  lit_step.
  rewrite m_cat; unfold no_rparen; rewrite m_star.
  apply star_take; [exact Hargs | reflexivity | cbv beta].
  lit_step. reflexivity.
Qed.

Lemma onclick_needs_start (prev : option char) (s : text) :
  prefixb (codes "onClick={()") s = false -> match_at re_onclick prev s = None.
Proof.
  intros Hs. unfold match_at, re_onclick. cbn [cat].
  now apply (m_lit_fail (codes "onClick={()")).
Qed.

End ClickHandler.

(** X17: a click handler that only logs, [onClick={() => console.log(...)}]
    with any whitespace around [=>] and any argument text without [)],
    comes out of the debug-statement pass as [onClick={() => {}}], the
    text around it unchanged, when it is the first [onClick={()] and the
    only [console.] of the text and the result has no three consecutive
    newlines: the rules before the handler rule find nothing, since they
    need a call closed by [);], and the rules after it find no
    [console.]. *)
Theorem onclick_handler_emptied (pre w1 w2 args post : text) :
  forallb is_space w1 = true -> forallb is_space w2 = true ->
  forallb (not_chr ")") args = true ->
  contains (codes "console.") (pre ++ onclick_empty ++ post) = false ->
  contains (codes "console.") args = false ->
  starts_before (codes "onClick={()") pre
                (onclick_handler w1 w2 args ++ post) = false ->
  contains triple_nl (pre ++ onclick_empty ++ post) = false ->
  remove_console_logs_text (pre ++ onclick_handler w1 w2 args ++ post)
  = pre ++ onclick_empty ++ post.
Proof.
  intros Hw1 Hw2 Hargs Hclean Hargs_clean Hpre Hnl.
  pose proof (handler_post_clean pre post Hclean) as Hpost.
  unfold remove_console_logs_text. cbv zeta.
  rewrite (sub_no_match re_console_line)
    by (apply handler_console_line_nowhere; assumption).
  rewrite (sub_no_match re_should_log)
    by (apply handler_should_log_nowhere; assumption).
  assert (E : sub re_onclick (txt "onClick={() => {}}")
                  (pre ++ onclick_handler w1 w2 args ++ post)
              = pre ++ onclick_empty ++ post).
  { unfold sub.
    rewrite (sub_go_copy_prefix _ _ _ onclick_needs_start pre _ None Hpre).
    f_equal.
    rewrite (sub_go_match _ _ _ (onclick_handler w1 w2 args) post None);
      [| discriminate | now apply match_onclick_handler].
    unfold txt. cbn [expand]. rewrite app_nil_r. f_equal.
    apply sub_go_no_match.
    now apply search_go_needs with (l := codes "console."). }
  rewrite E.
  repeat (rewrite (sub_needs (codes "console.") _ _
                             (pre ++ onclick_empty ++ post));
          [| reflexivity | exact Hclean]).
  apply sub_no_match. now apply search_blank_lines.
Qed.

Lemma onclick_handler_emptied_witness :
  let pre := codes "<Button " in
  let args := codes "'x'" in
  let post := codes ">Go</Button>" in
  remove_console_logs_text
    (pre ++ onclick_handler (codes " ") (codes " ") args ++ post)
  = pre ++ onclick_empty ++ post.
Proof.
  intros pre args post.
  apply (onclick_handler_emptied pre (codes " ") (codes " ") args post);
    vm_compute; reflexivity.
Defined.

(** ** The guarded log call *)

Lemma sub_go_copy_nomatch (r : re) (tpl : template) :
  forall pre rest prev,
    (forall y z, pre = y ++ z -> z <> [] ->
                 match_at r (end_prev prev y) (z ++ rest) = None) ->
    sub_go r tpl prev (pre ++ rest) 0
    = pre ++ sub_go r tpl (end_prev prev pre) rest 0.
Proof.
  induction pre as [|c pre IH]; intros rest prev H; [reflexivity|].
  assert (H0 : match_at r prev (c :: pre ++ rest) = None)
    by (apply (H [] (c :: pre) eq_refl); discriminate).
  cbn [app sub_go]. rewrite H0.
  f_equal. apply (IH rest (Some c)).
  intros y z -> Hz. apply (H (c :: y) z eq_refl Hz).
Qed.

Lemma search_go_hit (r : re) (s : text) :
  forall pre prev,
    match_at r (end_prev prev pre) s <> None ->
    search_go r prev (pre ++ s) = true.
Proof.
  induction pre as [|c pre IH]; intros prev H.
  - cbn [app]. cbn [end_prev fold_left] in H.
    destruct s; cbn [search_go];
      destruct (match_at r prev _); congruence.
  - cbn [app search_go].
    destruct (match_at r prev (c :: pre ++ s)); [reflexivity|].
    apply IH. exact H.
Qed.

(** The tail of a text that ends in a character outside a class and one
    more character: the part inside the class is the last character. *)
Lemma class_suffix (p : char -> bool) (a b : char) :
  p a = false ->
  forall A y z,
    A ++ [a; b] = y ++ z -> z <> [] -> forallb p z = true ->
    z = [b] /\ y = A ++ [a].
Proof.
  intros Ha. induction A as [|c A IH]; intros y z E Hz Hp.
  - destruct y as [|c1 [|c2 [|c3 y]]]; cbn [app] in E.
    + subst z. cbn [forallb] in Hp. rewrite Ha in Hp. discriminate.
    + injection E as <- <-. now split.
    + injection E as <- <- <-. contradiction.
    + destruct y; discriminate.
  - destruct y as [|c1 y]; cbn [app] in E.
    + subst z. cbn [forallb] in Hp. apply andb_true_iff in Hp as [_ Hp].
      rewrite forallb_app in Hp. apply andb_true_iff in Hp as [_ Hp].
      cbn [forallb] in Hp. rewrite Ha in Hp. discriminate.
    + injection E as <- E. destruct (IH y z E Hz Hp) as [-> ->]. now split.
Qed.

Lemma grp_alt_l {A : Type} (l1 : text) (r2 : re) (s : text) prev g
      (k : @kont A) r :
  k (end_prev prev l1) s (Some l1) = Some r ->
  m (Grp (Alt (lit l1) r2)) prev (l1 ++ s) g k = Some r.
Proof.
  intros Hk. cbn [m]. fold (@m A (lit l1)). fold (@m A r2).
  rewrite m_lit. cbv beta. rewrite firstn_consumed.
  match goal with
  | |- match ?x with _ => _ end = _ =>
      replace x with (Some r) by (symmetry; exact Hk)
  end.
  reflexivity.
Qed.

Lemma eol_after_indent (w3 t1 t2 post : text) :
  forallb not_nl w3 = true ->
  nl ++ w3 = t1 ++ t2 -> t1 <> [] ->
  at_eol (t2 ++ codes "}" ++ post) = false.
Proof.
  intros Hw E Hne. destruct t1 as [|c t1]; [contradiction|].
  cbn [nl app] in E. injection E as _ E. subst w3.
  apply forallb_app_r in Hw. destruct t2 as [|d t2]; [reflexivity|].
  cbn [forallb] in Hw. apply andb_true_iff in Hw as [Hd _].
  unfold not_nl in Hd. apply negb_true_iff in Hd. exact Hd.
Qed.

Lemma m_bol {A : Type} prev s g (k : @kont A) :
  at_bol prev = true -> m Bol prev s g k = k prev s g.
Proof. intros H; cbn [m]; now rewrite H. Qed.

Lemma m_eol {A : Type} prev s g (k : @kont A) :
  m (Cat Eol Eps) prev s g k = if at_eol s then k prev s g else None.
Proof. reflexivity. Qed.

Section GuardedLog.
Variables (pre w1 args w3 post : text).
Hypothesis Hw1 : forallb is_space w1 = true.
Hypothesis Hw3 : forallb is_space w3 = true.
Hypothesis Hw3' : forallb not_nl w3 = true.
Hypothesis Hargs : forallb (not_chr ")") args = true.
Hypothesis Hargs_clean : contains (codes "console.") args = false.
Hypothesis Hclean :
  contains (codes "console.") (pre ++ empty_guard w3 ++ post) = false.

Lemma guarded_text :
  pre ++ guarded_log w1 args w3 ++ post
  = (pre ++ codes "if (shouldLog()) {" ++ nl ++ w1)
    ++ codes "console." ++ codes "log(" ++ args ++ codes ");" ++ nl ++ w3
    ++ codes "}" ++ post.
Proof. unfold guarded_log. rewrite <- !app_assoc. reflexivity. Qed.

Lemma guarded_rest_clean :
  contains (codes "console.") (nl ++ w3 ++ codes "}" ++ post) = false.
Proof.
  apply contains_false_app in Hclean as [_ H].
  unfold empty_guard in H. rewrite <- !app_assoc in H.
  apply contains_false_app in H as [_ H].
  now apply contains_false_app in H as [_ H].
Qed.

Lemma guarded_first_console :
  starts_before (codes "console.")
    (pre ++ codes "if (shouldLog()) {" ++ nl ++ w1)
    (codes "console." ++ codes "log(" ++ args ++ codes ");" ++ nl ++ w3
     ++ codes "}" ++ post) = false.
Proof.
  rewrite starts_before_app. apply orb_false_iff. split.
  - apply contains_false_app in Hclean as [H _].
    etransitivity; [|exact H]. unfold empty_guard. rewrite <- !app_assoc.
    apply (starts_before_indep _ (codes "if (shouldLog()) {")). cbn. lia.
  - rewrite !starts_before_app. rewrite !orb_false_iff.
    split; [reflexivity|]. split; [reflexivity|].
    now apply (starts_before_class is_space (code "c") (codes "onsole.")).
Qed.

Lemma guarded_last_console :
  contains (codes "console.")
    (tl (codes "console." ++ codes "log(" ++ args ++ codes ");" ++ nl ++ w3
         ++ codes "}" ++ post))
  = false.
Proof.
  change (tl (codes "console." ++ codes "log(" ++ args ++ codes ");" ++ nl
              ++ w3 ++ codes "}" ++ post))
    with (codes "onsole.log(" ++ args
          ++ code ")" :: code ";" :: nl ++ w3 ++ codes "}" ++ post).
  rewrite contains_split. apply orb_false_iff. split; [reflexivity|].
  rewrite contains_split. apply orb_false_iff. split.
  - apply starts_before_across; [reflexivity | exact Hargs_clean].
  - cbn [contains]. rewrite guarded_rest_clean. reflexivity.
Qed.

(** No position before the line of the call starts a match. *)
Lemma guarded_no_match_before (y z : text) :
  pre ++ codes "if (shouldLog()) {" ++ nl = y ++ z -> z <> [] ->
  match_at re_console_line (end_prev None y)
    (z ++ w1 ++ codes "console.log(" ++ args ++ codes ");" ++ nl ++ w3
     ++ codes "}" ++ post) = None.
Proof.
  intros E Hz.
  destruct (match_at re_console_line _ _) as [[rest g]|] eqn:Hm;
    [|reflexivity].
  exfalso.
  apply console_line_match_inv in Hm
    as (Hbol & _ & v1 & name & ar & v2 & E1 & Hv1 & _).
  assert (E2 : (pre ++ codes "if (shouldLog()) {" ++ nl ++ w1)
               ++ codes "console." ++ codes "log(" ++ args ++ codes ");"
               ++ nl ++ w3 ++ codes "}" ++ post
               = (y ++ v1) ++ codes "console." ++ codes name ++ codes "("
                 ++ ar ++ codes ");" ++ v2 ++ rest).
  { pose proof (f_equal (fun t => t ++ w1 ++ codes "console.log(" ++ args
                                   ++ codes ");" ++ nl ++ w3 ++ codes "}"
                                   ++ post) E) as E'.
    cbv beta in E'. rewrite <- !app_assoc in E'.
    rewrite <- !app_assoc. etransitivity; [exact E'|]. f_equal.
    etransitivity; [exact E1|].
    unfold console_call. rewrite <- !app_assoc. reflexivity. }
  apply (only_occ _ _ _ _ _ guarded_first_console guarded_last_console) in E2
    as [E2 _].
  assert (E3 : v1 = z ++ w1).
  { apply (app_inv_head y). etransitivity; [exact E2|].
    pose proof (f_equal (fun t => t ++ w1) E) as E'.
    cbv beta in E'. rewrite <- !app_assoc in E'. exact E'. }
  rewrite E3, forallb_app in Hv1. apply andb_true_iff in Hv1 as [Hzs _].
  assert (E4 : (pre ++ codes "if (shouldLog()) ") ++ [code "{"; NL] = y ++ z)
    by (etransitivity; [|exact E]; rewrite <- !app_assoc; reflexivity).
  apply (class_suffix is_space (code "{") NL eq_refl) in E4 as [_ ->];
    try assumption.
  rewrite !end_prev_app in Hbol. discriminate.
Qed.

Lemma match_guarded_line :
  match_at re_console_line (Some NL)
    (w1 ++ codes "console.log(" ++ args ++ codes ");" ++ nl ++ w3
     ++ codes "}" ++ post)
  = Some (nl ++ w3 ++ codes "}" ++ post, Some (codes "log")).
Proof.
  unfold match_at, re_console_line. cbn [cat].
  rewrite m_cat, m_bol by reflexivity. cbv beta.
  rewrite m_cat; apply m_ws_take; [exact Hw1 | reflexivity | cbv beta].
  change (codes "console.log(" ++ args ++ codes ");" ++ nl ++ w3
          ++ codes "}" ++ post)
    with (codes "console." ++ codes "log" ++ codes "(" ++ args ++ codes ");"
          ++ (nl ++ w3) ++ codes "}" ++ post).
  lit_step.
  rewrite m_cat. apply grp_alt_l. cbv beta.
  lit_step.
  rewrite m_cat; unfold no_rparen; rewrite m_star.
  apply star_take; [exact Hargs | reflexivity | cbv beta].
  lit_step.
  rewrite m_cat; unfold ws; rewrite m_star.
  apply (star_back is_space _ _ [] (nl ++ w3) (codes "}" ++ post));
    [reflexivity | cbn [nl app forallb]; now rewrite Hw3 | reflexivity | |].
  - intros t1 t2 E Hne. cbv beta. rewrite m_eol.
    now rewrite (eol_after_indent w3 t1 t2 post Hw3' E Hne).
  - cbv beta. reflexivity.
Qed.

Lemma guarded_line_removed :
  sub re_console_line [] (pre ++ guarded_log w1 args w3 ++ post)
  = pre ++ empty_guard w3 ++ post.
Proof.
  unfold sub.
  replace (pre ++ guarded_log w1 args w3 ++ post)
    with ((pre ++ codes "if (shouldLog()) {" ++ nl)
          ++ (w1 ++ codes "console.log(" ++ args ++ codes ");")
          ++ nl ++ w3 ++ codes "}" ++ post)
    by (unfold guarded_log; rewrite <- !app_assoc; reflexivity).
  rewrite sub_go_copy_nomatch.
  - rewrite (sub_go_match _ _ _ _ _ (Some (codes "log"))).
    + cbn [expand app]. unfold empty_guard. rewrite <- !app_assoc.
      do 3 f_equal. apply sub_go_no_match.
      apply search_go_needs with (l := codes "console."); [reflexivity|].
      apply guarded_rest_clean.
    + destruct w1; discriminate.
    + rewrite <- app_assoc.
      replace (end_prev None (pre ++ codes "if (shouldLog()) {" ++ nl))
        with (Some NL) by (now rewrite !end_prev_app).
      rewrite <- !app_assoc. apply match_guarded_line.
  - intros y z E Hz. rewrite <- !app_assoc.
    now apply guarded_no_match_before.
Qed.

Lemma match_guard (prev : option char) :
  match_at re_should_log prev (guarded_log w1 args w3 ++ post) <> None.
Proof.
  replace (guarded_log w1 args w3 ++ post)
    with ([] ++ codes "if" ++ codes " " ++ codes "(shouldLog())" ++ codes " "
          ++ codes "{" ++ (nl ++ w1) ++ codes "console.log(" ++ args
          ++ codes ");" ++ (nl ++ w3) ++ codes "}" ++ post)
    by (unfold guarded_log; rewrite <- !app_assoc; reflexivity).
  assert (E : match_at re_should_log prev
                ([] ++ codes "if" ++ codes " " ++ codes "(shouldLog())"
                 ++ codes " " ++ codes "{" ++ (nl ++ w1)
                 ++ codes "console.log(" ++ args ++ codes ");" ++ (nl ++ w3)
                 ++ codes "}" ++ post) = Some (post, None)); [|congruence].
  unfold match_at, re_should_log. cbn [cat].
  ws_step. lit_step. ws_step. lit_step. ws_step. lit_step.
  rewrite m_cat; apply m_ws_take;
    [cbn [nl app forallb]; now rewrite Hw1 | reflexivity | cbv beta].
  lit_step.
  rewrite m_cat; unfold no_rparen; rewrite m_star.
  apply star_take; [exact Hargs | reflexivity | cbv beta].
  lit_step.
  rewrite m_cat; apply m_ws_take;
    [cbn [nl app forallb]; now rewrite Hw3 | reflexivity | cbv beta].
  lit_step. reflexivity.
Qed.
End GuardedLog.

(** X18: the order of the rules decides what happens to a guarded log
    call.  When the call stands on a line of its own inside
    [if (shouldLog()) { ... }], the rule for standalone lines, which runs
    first, deletes the call, and the rule for the guard, although it
    matches the original text, no longer finds its shape: the pass leaves
    the guard behind with an empty body.  (The call is the only
    [console.] of the text, its arguments have no [)], the closing brace
    is indented without a newline, and the result has no three
    consecutive newlines.) *)
Theorem guarded_log_leaves_empty_guard (pre w1 args w3 post : text) :
  forallb is_space w1 = true ->
  forallb is_space w3 = true -> forallb not_nl w3 = true ->
  forallb (not_chr ")") args = true ->
  contains (codes "console.") args = false ->
  contains (codes "console.") (pre ++ empty_guard w3 ++ post) = false ->
  contains triple_nl (pre ++ empty_guard w3 ++ post) = false ->
  remove_console_logs_text (pre ++ guarded_log w1 args w3 ++ post)
  = pre ++ empty_guard w3 ++ post
  /\ search re_should_log (pre ++ guarded_log w1 args w3 ++ post) = true
  /\ search re_should_log (pre ++ empty_guard w3 ++ post) = false.
Proof.
  intros Hw1 Hw3 Hw3' Hargs Hargs_clean Hclean Hnl.
  assert (Hno : search re_should_log (pre ++ empty_guard w3 ++ post) = false)
    by (now apply search_go_needs with (l := codes "console.")).
  split; [|split; [|exact Hno]].
  - unfold remove_console_logs_text. cbv zeta.
    rewrite (guarded_line_removed pre w1 args w3 post) by assumption.
    rewrite (sub_no_match re_should_log) by exact Hno.
    repeat (rewrite (sub_needs (codes "console.") _ _
                               (pre ++ empty_guard w3 ++ post));
            [| reflexivity | exact Hclean]).
    apply sub_no_match. now apply search_blank_lines.
  - apply search_go_hit. now apply match_guard.
Qed.

Lemma guarded_log_leaves_empty_guard_witness :
  let pre := codes "function poll() {" ++ nl ++ codes "  " in
  let w1 := codes "    " in
  let args := codes "'tick', n" in
  let w3 := codes "  " in
  let post := nl ++ codes "}" in
  remove_console_logs_text (pre ++ guarded_log w1 args w3 ++ post)
  = pre ++ empty_guard w3 ++ post
  /\ search re_should_log (pre ++ guarded_log w1 args w3 ++ post) = true
  /\ search re_should_log (pre ++ empty_guard w3 ++ post) = false.
Proof.
  intros pre w1 args w3 post.
  apply (guarded_log_leaves_empty_guard pre w1 args w3 post);
    vm_compute; reflexivity.
Defined.

(** ** An import of [Label] alone *)

(** The end of a text that ends in a run of a class, and the character
    before the run. *)
Lemma class_tail_unique (p : char -> bool) (a b : char) (W V : text) :
  p a = false -> p b = false ->
  forallb p W = true -> forallb p V = true ->
  forall X Y, X ++ a :: W = Y ++ b :: V -> X = Y /\ a = b /\ W = V.
Proof.
  intros Ha Hb HW HV. induction X as [|c X IH]; intros Y E.
  - destruct Y as [|d Y]; cbn [app] in E.
    + injection E as -> ->. now repeat split.
    + injection E as _ E. subst W. rewrite forallb_app in HW.
      apply andb_true_iff in HW as [_ HW]. cbn [forallb] in HW.
      rewrite Hb in HW. discriminate.
  - destruct Y as [|d Y]; cbn [app] in E.
    + injection E as _ E. subst V. rewrite forallb_app in HV.
      apply andb_true_iff in HV as [_ HV]. cbn [forallb] in HV.
      rewrite Ha in HV. discriminate.
    + injection E as -> E. destruct (IH Y E) as (-> & -> & ->).
      now repeat split.
Qed.

Lemma plus_inv {A : Type} (p : char -> bool) (k : @kont A) :
  forall s prev g a,
    m (Plus p) prev s g k = Some a ->
    exists x y, s = x ++ y /\ x <> [] /\ forallb p x = true
                /\ k (end_prev prev x) y g = Some a.
Proof.
  intros [|c s] prev g a H; cbn [m] in H; [discriminate|].
  destruct (p c) eqn:Hc; [|discriminate].
  apply star_inv in H as (x & y & -> & Hx & Hk).
  exists (c :: x), y. repeat split; [discriminate | | exact Hk].
  cbn [forallb]. now rewrite Hc.
Qed.

Lemma trailing_match_inv (imp : string) (prev : option char)
      (s rest : text) (g : option text) :
  match_at (re_trailing imp) prev s = Some (rest, g) ->
  exists v1 v2,
    s = codes "," ++ v1 ++ codes imp ++ v2 ++ rest
    /\ forallb is_space v1 = true.
Proof.
  unfold match_at, re_trailing; cbn [cat m]; intros H.
  unfold ws, str in H; cbn [m] in H.
  apply (m_lit_inv (codes ",")) in H as (s1 & -> & H).
  apply star_inv in H as (v1 & s2 & -> & Hv1 & H).
  apply m_lit_inv in H as (s3 & -> & H).
  apply star_inv in H as (v2 & s4 & -> & _ & H).
  destruct s4 as [|d s4]; [discriminate|].
  destruct (one_of "," "}" d); [|discriminate].
  injection H as <- _. exists v1, v2. split; [reflexivity|exact Hv1].
Qed.

Lemma leading_match_inv (imp : string) (prev : option char)
      (s rest : text) (g : option text) :
  match_at (re_leading imp) prev s = Some (rest, g) ->
  exists y, s = codes imp ++ codes "," ++ y.
Proof.
  unfold match_at, re_leading; cbn [cat m]; intros H.
  unfold str in H.
  apply m_lit_inv in H as (s1 & -> & H).
  apply (m_lit_inv (codes ",")) in H as (s2 & -> & _).
  now exists s2.
Qed.

Lemma import_only_match_inv (imp : string) (prev : option char)
      (s rest : text) (g : option text) :
  match_at (re_import_only imp) prev s = Some (rest, g) ->
  exists v1 v2 y,
    s = codes "import" ++ v1 ++ codes "{" ++ v2 ++ codes imp ++ y
    /\ forallb is_space v1 = true /\ forallb is_space v2 = true.
Proof.
  unfold match_at, re_import_only; cbn [cat]; intros H.
  rewrite m_cat in H. unfold str in H.
  apply m_lit_inv in H as (s1 & -> & H). cbv beta in H.
  rewrite m_cat in H. unfold ws1 in H.
  apply plus_inv in H as (v1 & s2 & -> & _ & Hv1 & H). cbv beta in H.
  rewrite m_cat in H.
  apply (m_lit_inv (codes "{")) in H as (s3 & -> & H). cbv beta in H.
  rewrite m_cat in H. unfold ws in H. rewrite m_star in H.
  apply star_inv in H as (v2 & s4 & -> & Hv2 & H). cbv beta in H.
  rewrite m_cat in H.
  apply m_lit_inv in H as (s5 & -> & _).
  exists v1, v2, s5. now repeat split.
Qed.

Lemma m_opt_nl_skip {A : Type} prev s g (k : @kont A) :
  stops is_space s = true ->
  m (Cat (Opt (Chr NL)) Eps) prev s g k = k prev s g.
Proof.
  intros H. cbn [m]. destruct s as [|d s]; [reflexivity|].
  cbn [stops] in H. apply negb_true_iff in H.
  destruct (N.eqb_spec d NL) as [->|]; [discriminate|reflexivity].
Qed.

Section SoleImport.
Variables (pre w1 w2 w3 w4 q w5 post : text).
Hypothesis Hw1 : forallb is_space w1 = true.
Hypothesis Hw2 : forallb is_space w2 = true.
Hypothesis Hw3 : forallb is_space w3 = true.
Hypothesis Hw4 : forallb is_space w4 = true.
Hypothesis Hw5 : forallb is_space w5 = true.
Hypothesis Hpre : contains (codes "Label") pre = false.
Hypothesis Hq : contains (codes "Label") q = false.
Hypothesis Hpost : contains (codes "Label") post = false.

Lemma import_text :
  pre ++ sole_import w1 w2 w3 w4 q w5 ++ post
  = (pre ++ codes "import" ++ w1 ++ codes "{" ++ w2)
    ++ codes "Label" ++ w3 ++ codes "}" ++ w4 ++ codes "from" ++ q
    ++ codes ";" ++ w5 ++ post.
Proof. unfold sole_import. rewrite <- !app_assoc. reflexivity. Qed.

Lemma import_first_label :
  starts_before (codes "Label")
    (pre ++ codes "import" ++ w1 ++ codes "{" ++ w2)
    (codes "Label" ++ w3 ++ codes "}" ++ w4 ++ codes "from" ++ q
     ++ codes ";" ++ w5 ++ post) = false.
Proof.
  rewrite !starts_before_app. rewrite !orb_false_iff.
  split; [|split; [reflexivity|split; [|split; [reflexivity|]]]].
  - rewrite <- !app_assoc.
    apply (starts_before_across (code "i")); [reflexivity | exact Hpre].
  - now apply (starts_before_class is_space (code "L") (codes "abel")).
  - now apply (starts_before_class is_space (code "L") (codes "abel")).
Qed.

Lemma import_last_label :
  contains (codes "Label")
    (tl (codes "Label" ++ w3 ++ codes "}" ++ w4 ++ codes "from" ++ q
         ++ codes ";" ++ w5 ++ post)) = false.
Proof.
  change (tl (codes "Label" ++ w3 ++ codes "}" ++ w4 ++ codes "from" ++ q
              ++ codes ";" ++ w5 ++ post))
    with (codes "abel" ++ w3 ++ codes "}" ++ w4 ++ codes "from" ++ q
          ++ code ";" :: w5 ++ post).
  rewrite !contains_split. rewrite !orb_false_iff.
  split; [reflexivity|]. split.
  { now apply (starts_before_class is_space (code "L") (codes "abel")). }
  split; [reflexivity|]. split.
  { now apply (starts_before_class is_space (code "L") (codes "abel")). }
  split; [reflexivity|]. split.
  { apply (starts_before_across (code ";")); [reflexivity | exact Hq]. }
  change (code ";" :: w5 ++ post) with (codes ";" ++ w5 ++ post).
  rewrite !contains_split. rewrite !orb_false_iff.
  split; [reflexivity|]. split; [|exact Hpost].
  now apply (starts_before_class is_space (code "L") (codes "abel")).
Qed.

(** Where [Label] stands in the text. *)
Lemma import_label_at (v Q' : text) :
  pre ++ sole_import w1 w2 w3 w4 q w5 ++ post = v ++ codes "Label" ++ Q' ->
  v = pre ++ codes "import" ++ w1 ++ codes "{" ++ w2
  /\ Q' = w3 ++ codes "}" ++ w4 ++ codes "from" ++ q ++ codes ";" ++ w5
          ++ post.
Proof.
  intros E. rewrite import_text in E.
  exact (only_occ _ _ _ _ _ import_first_label import_last_label E).
Qed.

Lemma import_trailing_nowhere :
  search (re_trailing "Label")
         (pre ++ sole_import w1 w2 w3 w4 q w5 ++ post) = false.
Proof.
  apply search_go_none. intros y s prev E.
  destruct (match_at (re_trailing "Label") prev s) as [[rest g]|] eqn:Hm;
    [|reflexivity].
  exfalso. apply trailing_match_inv in Hm as (v1 & v2 & -> & Hv1).
  assert (E' : pre ++ sole_import w1 w2 w3 w4 q w5 ++ post
               = (y ++ codes "," ++ v1) ++ codes "Label" ++ v2 ++ rest)
    by (etransitivity; [exact E|]; rewrite <- !app_assoc; reflexivity).
  apply import_label_at in E' as [E' _].
  assert (E2 : y ++ code "," :: v1
               = (pre ++ codes "import" ++ w1) ++ code "{" :: w2)
    by (etransitivity; [exact E'|]; rewrite <- !app_assoc; reflexivity).
  apply (class_tail_unique is_space) in E2 as (_ & E2 & _);
    try assumption; try reflexivity.
  discriminate.
Qed.

Lemma import_leading_nowhere :
  search (re_leading "Label")
         (pre ++ sole_import w1 w2 w3 w4 q w5 ++ post) = false.
Proof.
  apply search_go_none. intros y s prev E.
  destruct (match_at (re_leading "Label") prev s) as [[rest g]|] eqn:Hm;
    [|reflexivity].
  exfalso. apply leading_match_inv in Hm as (y' & ->).
  apply import_label_at in E as [_ E].
  destruct w3 as [|c w3']; [discriminate|].
  cbn [app codes] in E. injection E as E _.
  cbn [forallb] in Hw3. apply andb_true_iff in Hw3 as [Hc _].
  rewrite <- E in Hc. discriminate.
Qed.

(** The declaration is found at its own place only. *)
Lemma import_only_not_before (y z : text) (prev : option char) :
  pre = y ++ z -> z <> [] ->
  match_at (re_import_only "Label") prev
           (z ++ sole_import w1 w2 w3 w4 q w5 ++ post) = None.
Proof.
  intros E Hz.
  destruct (match_at _ _ _) as [[rest g]|] eqn:Hm; [|reflexivity].
  exfalso. apply import_only_match_inv in Hm as (v1 & v2 & y' & E1 & Hv1 & Hv2).
  assert (E' : pre ++ sole_import w1 w2 w3 w4 q w5 ++ post
               = (y ++ codes "import" ++ v1 ++ codes "{" ++ v2)
                 ++ codes "Label" ++ y').
  { pose proof (f_equal (fun t => t ++ sole_import w1 w2 w3 w4 q w5 ++ post) E)
      as E0. cbv beta in E0. etransitivity; [exact E0|].
    rewrite <- !app_assoc. f_equal. etransitivity; [exact E1|].
    reflexivity. }
  apply import_label_at in E' as [E' _].
  assert (E2 : (y ++ codes "import" ++ v1) ++ code "{" :: v2
               = (pre ++ codes "import" ++ w1) ++ code "{" :: w2)
    by (etransitivity; [|etransitivity; [exact E'|]];
        rewrite <- !app_assoc; reflexivity).
  apply (class_tail_unique is_space) in E2 as (E2 & _ & _);
    try assumption; try reflexivity.
  assert (E3 : (y ++ codes "impor") ++ code "t" :: v1
               = (pre ++ codes "impor") ++ code "t" :: w1)
    by (etransitivity; [|etransitivity; [exact E2|]];
        rewrite <- !app_assoc; reflexivity).
  apply (class_tail_unique is_space) in E3 as (E3 & _ & _);
    try assumption; try reflexivity.
  apply app_inv_tail in E3. subst y.
  apply Hz. apply (app_inv_head pre). now rewrite app_nil_r.
Qed.

Lemma match_sole_import (prev : option char) :
  w1 <> [] -> w4 <> [] -> q <> [] -> forallb (not_chr ";") q = true ->
  stops is_space post = true ->
  match_at (re_import_only "Label") prev
           (sole_import w1 w2 w3 w4 q w5 ++ post) = Some (post, None).
Proof.
  intros N1 N4 Nq Hq' Hp.
  replace (sole_import w1 w2 w3 w4 q w5 ++ post)
    with (codes "import" ++ w1 ++ codes "{" ++ w2 ++ codes "Label" ++ w3
          ++ codes "}" ++ w4 ++ codes "from" ++ q ++ codes ";" ++ w5 ++ post)
    by (unfold sole_import; rewrite <- !app_assoc; reflexivity).
  unfold match_at, re_import_only. cbn [cat].
  lit_step.
  rewrite m_cat; unfold ws1;
    apply plus_take; [exact N1 | exact Hw1 | reflexivity | cbv beta].
  lit_step.
  rewrite m_cat; apply m_ws_take; [exact Hw2 | reflexivity | cbv beta].
  lit_step.
  rewrite m_cat; apply m_ws_take; [exact Hw3 | reflexivity | cbv beta].
  lit_step.
  rewrite m_cat; unfold ws1;
    apply plus_take; [exact N4 | exact Hw4 | reflexivity | cbv beta].
  lit_step.
  rewrite m_cat; apply plus_take; [exact Nq | exact Hq' | reflexivity | cbv beta].
  lit_step.
  rewrite m_cat; apply m_ws_take; [exact Hw5 | exact Hp | cbv beta].
  now rewrite m_opt_nl_skip.
Qed.

Lemma sole_import_sub :
  w1 <> [] -> w4 <> [] -> q <> [] -> forallb (not_chr ";") q = true ->
  stops is_space post = true ->
  sub (re_import_only "Label") [] (pre ++ sole_import w1 w2 w3 w4 q w5 ++ post)
  = pre ++ post.
Proof.
  intros N1 N4 Nq Hq' Hp. unfold sub.
  rewrite sub_go_copy_nomatch
    by (intros y z E Hz; now apply (import_only_not_before y z)).
  f_equal.
  rewrite (sub_go_match _ _ _ (sole_import w1 w2 w3 w4 q w5) post None);
    [| discriminate | now apply match_sole_import].
  cbn [expand app]. apply sub_go_no_match.
  now apply search_go_needs with (l := codes "Label").
Qed.
End SoleImport.

(** X19: in a file whose path contains 'tokens-table.tsx' (and neither
    of the other two fragments of the pass), a declaration that imports
    [Label] alone is deleted by the last step of the loop over the names,
    together with everything that stands between [from] and the next
    semicolon, whatever it is and however many lines it takes, and with
    all the whitespace behind that semicolon; the text around the
    declaration is kept.  (The text has none of the other names the
    rules of this file look for, [Label] occurs in the declaration only,
    and the result has no [useState(].) *)
Theorem sole_import_removed
        (path pre w1 w2 w3 w4 q w5 post : text) :
  in_path "tokens-table.tsx" path = true ->
  in_path "token-details-modal.tsx" path = false ->
  in_path "additional-tags.tsx" path = false ->
  w1 <> [] -> forallb is_space w1 = true ->
  forallb is_space w2 = true -> forallb is_space w3 = true ->
  w4 <> [] -> forallb is_space w4 = true ->
  q <> [] -> forallb (not_chr ";") q = true ->
  forallb is_space w5 = true -> stops is_space post = true ->
  has_no_word ["Tags"; "Popover"; "Checkbox"]%string
              (pre ++ sole_import w1 w2 w3 w4 q w5 ++ post) = true ->
  contains (codes "Label") pre = false ->
  contains (codes "Label") q = false ->
  contains (codes "Label") post = false ->
  contains (codes "useState(") (pre ++ post) = false ->
  fix_unused_imports_text path (pre ++ sole_import w1 w2 w3 w4 q w5 ++ post)
  = pre ++ post.
Proof.
  intros P1 P2 P3 N1 Hw1 Hw2 Hw3 N4 Hw4 Nq Hq' Hw5 Hp Hwords Hpre Hq Hpost
         Hstate.
  no_word Hwords.
  unfold fix_unused_imports_text. rewrite P1, P2, P3. cbv zeta.
  set (T := pre ++ sole_import w1 w2 w3 w4 q w5 ++ post) in *.
  repeat (rewrite (sub_needs (codes "Tags") _ _ T);
          [| reflexivity | assumption]).
  cbn [fold_left imports_to_remove]. unfold remove_import. cbv zeta.
  repeat (rewrite (sub_needs (codes "Popover") _ _ T);
          [| reflexivity | assumption]).
  repeat (rewrite (sub_needs (codes "Checkbox") _ _ T);
          [| reflexivity | assumption]).
  subst T.
  rewrite (sub_no_match (re_trailing "Label"))
    by (apply import_trailing_nowhere; assumption).
  rewrite (sub_no_match (re_leading "Label"))
    by (apply import_leading_nowhere; assumption).
  rewrite sole_import_sub by assumption.
  repeat (rewrite (sub_needs (codes "useState(") _ _ (pre ++ post));
          [| reflexivity | assumption]).
  reflexivity.
Qed.

Lemma sole_import_removed_witness :
  let path := codes "src/app/dashboard/tokens/tokens-table.tsx" in
  let pre := codes "import { Button } from '@/components/ui/button';" ++ nl in
  let sp := codes " " in
  let q := codes " '@/components/ui/label'" ++ nl
           ++ codes "export const PAGE_SIZE = 50" in
  let post := codes "export function TokensTable() {}" in
  fix_unused_imports_text path
    (pre ++ sole_import sp sp sp sp q (nl ++ nl) ++ post)
  = pre ++ post.
Proof.
  intros path pre sp q post.
  apply (sole_import_removed path pre sp sp sp sp q (nl ++ nl) post);
    first [discriminate | vm_compute; reflexivity].
Defined.

(** ** A change is never lost *)

(** X20: for every path and every existing file that can be read and
    written, when the text after the three passes differs from the text
    before them, processing the file writes it, the result is [true] (so
    the run prints the [OK] line and counts the file), and the file
    holds the final text. *)
Theorem changed_file_is_written (path c0 : text) (w : world) :
  fs w path = Some (File c0 true) -> after3 path c0 <> c0 ->
  exists w',
    process_file path w = Ok true w'
    /\ writes (trace w') <> writes (trace w)
    /\ fs w' path = Some (File (after3 path c0) true).
Proof.
  intros Hfs Hne.
  pose proof (changed_implies_written path c0 Hne) as Hw.
  pose proof (proj1 (written_iff_some_pass_changed path c0) Hw) as Hfix.
  eexists. split; [|split].
  - rewrite (process_file_spec path c0 w Hfs), Hfix. reflexivity.
  - cbn [trace]. rewrite writes_app. intros E.
    apply (f_equal (@List.length event)) in E. rewrite length_app in E.
    destruct (writes (file_events path c0)); [now apply Hw|].
    cbn [List.length] in E. lia.
  - cbn [fs]. now apply file_fs_same.
Qed.

Lemma changed_file_is_written_witness :
  let path := codes "src/contexts/WalletTagsContext.tsx" in
  let c0 := fetch_effect (codes "ready") (codes "apiBaseUrl") in
  let w := one_file path c0 in
  exists w',
    process_file path w = Ok true w'
    /\ writes (trace w') <> writes (trace w)
    /\ fs w' path = Some (File (after3 path c0) true).
Proof.
  intros path c0 w.
  apply (changed_file_is_written path c0 w);
    [vm_compute; reflexivity | vm_compute; discriminate].
Defined.

(** ** The [checkBotTag] effect, wherever it stands *)

(** What the pattern matches: the effect in one of its layouts, and
    nothing else. *)
Lemma check_bot_tag_match_inv (prev : option char) (s rest : text)
      (g : option text) :
  match_at re_check_bot_tag prev s = Some (rest, g) ->
  g = None
  /\ exists w1 w2 g1 g2 w3,
      s = effect_shape w1 w2 g1 g2 w3 ++ rest
      /\ forallb is_space w1 = true /\ forallb is_space w2 = true
      /\ forallb is_space w3 = true
      /\ g1 <> [] /\ forallb space_or_nl g1 = true
      /\ g2 <> [] /\ forallb space_or_nl g2 = true.
Proof.
  unfold match_at, re_check_bot_tag; cbn [cat]; intros H.
  unfold str, ws, wsn1 in H.
  rewrite m_cat in H.
  apply (m_lit_inv (codes "useEffect(()")) in H as (s1 & -> & H).
  cbv beta in H. rewrite m_cat, m_star in H.
  apply star_inv in H as (w1 & s2 & -> & Hw1 & H).
  cbv beta in H. rewrite m_cat in H.
  apply (m_lit_inv (codes "=>")) in H as (s3 & -> & H).
  cbv beta in H. rewrite m_cat, m_star in H.
  apply star_inv in H as (w2 & s4 & -> & Hw2 & H).
  cbv beta in H. rewrite m_cat in H.
  apply (m_lit_inv (codes "{")) in H as (s5 & -> & H).
  cbv beta in H. rewrite m_cat in H.
  apply plus_inv in H as (g1 & s6 & -> & Ng1 & Hg1 & H).
  cbv beta in H. rewrite m_cat in H.
  apply (m_lit_inv (codes "checkBotTag();")) in H as (s7 & -> & H).
  cbv beta in H. rewrite m_cat in H.
  apply plus_inv in H as (g2 & s8 & -> & Ng2 & Hg2 & H).
  cbv beta in H. rewrite m_cat in H.
  apply (m_lit_inv (codes "},")) in H as (s9 & -> & H).
  cbv beta in H. rewrite m_cat, m_star in H.
  apply star_inv in H as (w3 & s10 & -> & Hw3 & H).
  cbv beta in H. rewrite m_cat in H.
  apply (m_lit_inv (codes "[])")) in H as (s11 & -> & H).
  cbn [m] in H. injection H as -> <-. split; [reflexivity|].
  exists w1, w2, g1, g2, w3. unfold effect_shape.
  rewrite <- !app_assoc. now repeat split.
Qed.

Lemma forallb_weaken {X : Type} (p q : X -> bool) (l : list X) :
  (forall x, p x = true -> q x = true) ->
  forallb p l = true -> forallb q l = true.
Proof.
  intros H; induction l as [|x l IH]; [reflexivity|].
  cbn [forallb]. intros Hl. apply andb_true_iff in Hl as [Hx Hl].
  now rewrite (H x Hx), IH.
Qed.

Lemma space_not_u (c : char) : space_or_nl c = true -> not_chr "u" c = true.
Proof.
  intros H. unfold not_chr, is_chr.
  destruct (N.eqb_spec c (code "u")) as [->|];
    [vm_compute in H; discriminate | reflexivity].
Qed.

Lemma is_space_space_or_nl (c : char) :
  is_space c = true -> space_or_nl c = true.
Proof. intros H; unfold space_or_nl; now rewrite H. Qed.

(** The [u] of [useEffect] is the only one in a match. *)
Lemma effect_shape_tail (w1 w2 g1 g2 w3 : text) :
  forallb is_space w1 = true -> forallb is_space w2 = true ->
  forallb is_space w3 = true ->
  forallb space_or_nl g1 = true -> forallb space_or_nl g2 = true ->
  exists t,
    effect_shape w1 w2 g1 g2 w3 = code "u" :: t
    /\ forallb (not_chr "u") t = true.
Proof.
  intros H1 H2 H3 Hg1 Hg2.
  exists (codes "seEffect(()" ++ w1 ++ codes "=>" ++ w2 ++ codes "{" ++ g1
          ++ codes "checkBotTag();" ++ g2 ++ codes "}," ++ w3 ++ codes "[])").
  split; [reflexivity|].
  assert (S : forall w, forallb is_space w = true ->
                        forallb (not_chr "u") w = true).
  { intros w Hw. apply (forallb_weaken is_space); [|exact Hw].
    intros c Hc. now apply space_not_u, is_space_space_or_nl. }
  assert (G : forall w, forallb space_or_nl w = true ->
                        forallb (not_chr "u") w = true)
    by (intros w Hw; now apply (forallb_weaken space_or_nl _ _ space_not_u)).
  rewrite !forallb_app, (S w1 H1), (S w2 H2), (S w3 H3), (G g1 Hg1), (G g2 Hg2).
  reflexivity.
Qed.

(** A text without [d] that is cut off by a [d] ends before it. *)
Lemma prefix_before (d : char) (rest t : text) :
  forall x pre,
    forallb (fun c => negb (N.eqb c d)) x = true ->
    x ++ rest = pre ++ d :: t ->
    exists z, pre = x ++ z /\ rest = z ++ d :: t.
Proof.
  induction x as [|c x IH]; intros pre Hx E.
  - exists pre. now split.
  - cbn [forallb] in Hx. apply andb_true_iff in Hx as [Hc Hx].
    destruct pre as [|c' pre]; cbn [app] in E.
    + injection E as -> _. rewrite N.eqb_refl in Hc. discriminate.
    + injection E as -> E. destruct (IH pre Hx E) as (z & -> & ->).
      exists z. now split.
Qed.

(** A match that starts before the block ends before it. *)
Lemma check_bot_tag_match_before (prev : option char) (c : char)
      (pre t rest : text) (g : option text) :
  match_at re_check_bot_tag prev ((c :: pre) ++ code "u" :: t)
  = Some (rest, g) ->
  exists mt z,
    c :: pre = mt ++ z /\ mt <> [] /\ rest = z ++ code "u" :: t
    /\ forall y, match_at re_check_bot_tag prev (mt ++ y) = Some (y, None).
Proof.
  intros H.
  apply check_bot_tag_match_inv in H
    as (_ & w1 & w2 & g1 & g2 & w3 & E & H1 & H2 & H3 & N1 & Hg1 & N2 & Hg2).
  destruct (effect_shape_tail w1 w2 g1 g2 w3 H1 H2 H3 Hg1 Hg2)
    as (x & Ex & Hx).
  rewrite Ex in E. cbn [app] in E. injection E as Ec E.
  symmetry in E.
  destruct (prefix_before (code "u") rest t x pre) as (z & Epre & Erest);
    [exact Hx | exact E |].
  exists (effect_shape w1 w2 g1 g2 w3), z.
  split; [rewrite Ex, Ec, Epre; reflexivity|].
  split; [apply effect_shape_nonempty|]. split; [exact Erest|].
  intros y. now apply match_effect_shape.
Qed.

(** The rule on a text that holds the effect: what is before the effect
    and what is after it are rewritten on their own. *)
Lemma check_bot_tag_split_n (w1 w2 g1 g2 w3 post : text) :
  forallb is_space w1 = true -> forallb is_space w2 = true ->
  forallb is_space w3 = true ->
  g1 <> [] -> forallb space_or_nl g1 = true ->
  g2 <> [] -> forallb space_or_nl g2 = true ->
  forall n pre prev,
    List.length pre <= n ->
    sub_go re_check_bot_tag tpl_check_bot_tag prev
           (pre ++ effect_shape w1 w2 g1 g2 w3 ++ post) 0
    = sub_go re_check_bot_tag tpl_check_bot_tag prev pre 0
      ++ effect_block_rewritten
      ++ sub_go re_check_bot_tag tpl_check_bot_tag (Some (code ")")) post 0.
Proof.
  intros H1 H2 H3 N1 Hg1 N2 Hg2.
  destruct (effect_shape_tail w1 w2 g1 g2 w3 H1 H2 H3 Hg1 Hg2)
    as (t & Et & _).
  assert (Base : forall prev,
             sub_go re_check_bot_tag tpl_check_bot_tag prev
                    ([] ++ effect_shape w1 w2 g1 g2 w3 ++ post) 0
             = sub_go re_check_bot_tag tpl_check_bot_tag prev [] 0
               ++ effect_block_rewritten
               ++ sub_go re_check_bot_tag tpl_check_bot_tag
                         (Some (code ")")) post 0).
  { intros prev.
    change (sub_go re_check_bot_tag tpl_check_bot_tag prev [] 0)
      with (match match_at re_check_bot_tag prev [] with
            | Some (_, g) => expand tpl_check_bot_tag g
            | None => []
            end).
    rewrite (check_bot_tag_needs_start prev []) by reflexivity.
    cbn [app].
    rewrite (sub_go_match _ _ _ (effect_shape w1 w2 g1 g2 w3) post None);
      [| apply effect_shape_nonempty | now apply match_effect_shape].
    replace (end_prev prev (effect_shape w1 w2 g1 g2 w3))
      with (Some (code ")"))
      by (unfold effect_shape; now rewrite !end_prev_app).
    reflexivity. }
  induction n as [|n IH]; intros pre prev Hn.
  - destruct pre; [apply Base | cbn [List.length] in Hn; lia].
  - destruct pre as [|c pre]; [apply Base|].
    cbn [List.length] in Hn.
    destruct (match_at re_check_bot_tag prev
                ((c :: pre) ++ effect_shape w1 w2 g1 g2 w3 ++ post))
      as [[rest g]|] eqn:Hm.
    + rewrite Et in Hm. cbn [app] in Hm.
      change (c :: pre ++ code "u" :: t ++ post)
        with ((c :: pre) ++ code "u" :: (t ++ post)) in Hm.
      apply check_bot_tag_match_before in Hm
        as (mt & z & Epre & Nmt & Erest & Hmt).
      rewrite Epre, <- app_assoc.
      rewrite (sub_go_match _ _ _ mt (z ++ effect_shape w1 w2 g1 g2 w3 ++ post)
                 None Nmt (Hmt _)).
      rewrite (sub_go_match _ _ _ mt z None Nmt (Hmt _)).
      rewrite <- app_assoc. f_equal. apply IH.
      assert (L : List.length (c :: pre) = List.length (mt ++ z))
        by now rewrite Epre.
      rewrite length_app in L. cbn [List.length] in L.
      destruct mt; [contradiction|]. cbn [List.length] in L. lia.
    + assert (Hm' : match_at re_check_bot_tag prev (c :: pre) = None).
      { destruct (match_at re_check_bot_tag prev (c :: pre))
          as [[rest g]|] eqn:Hp; [|reflexivity].
        apply check_bot_tag_match_inv in Hp
          as (_ & v1 & v2 & h1 & h2 & v3 & E & K1 & K2 & K3 & M1 & Kg1
              & M2 & Kg2).
        rewrite E, <- app_assoc in Hm.
        rewrite (match_effect_shape prev v1 v2 h1 h2 v3 _ K1 K2 K3 M1 Kg1
                   M2 Kg2) in Hm. discriminate. }
      cbn [app] in Hm. cbn [app sub_go]. rewrite Hm, Hm'. cbn [app].
      f_equal. apply IH. lia.
Qed.

Lemma check_bot_tag_split (pre w1 w2 g1 g2 w3 post : text) :
  forallb is_space w1 = true -> forallb is_space w2 = true ->
  forallb is_space w3 = true ->
  g1 <> [] -> forallb space_or_nl g1 = true ->
  g2 <> [] -> forallb space_or_nl g2 = true ->
  sub re_check_bot_tag tpl_check_bot_tag
      (pre ++ effect_shape w1 w2 g1 g2 w3 ++ post)
  = sub re_check_bot_tag tpl_check_bot_tag pre
    ++ effect_block_rewritten
    ++ sub_go re_check_bot_tag tpl_check_bot_tag (Some (code ")")) post 0.
Proof.
  intros H1 H2 H3 N1 Hg1 N2 Hg2. unfold sub.
  now apply (check_bot_tag_split_n w1 w2 g1 g2 w3 post H1 H2 H3 N1 Hg1 N2 Hg2
               (List.length pre)).
Qed.

(** What stands before a match does not matter to the rule. *)
Lemma check_bot_tag_prev (s : text) :
  forall prev skip,
    sub_go re_check_bot_tag tpl_check_bot_tag prev s skip
    = sub_go re_check_bot_tag tpl_check_bot_tag None s skip.
Proof.
  assert (M : forall prev s, match_at re_check_bot_tag prev s
                             = match_at re_check_bot_tag None s).
  { intros prev s0.
    destruct (match_at re_check_bot_tag prev s0) as [[rest g]|] eqn:E1.
    - apply check_bot_tag_match_inv in E1
        as (-> & w1 & w2 & g1 & g2 & w3 & -> & H).
      symmetry. now apply match_effect_shape.
    - destruct (match_at re_check_bot_tag None s0) as [[rest g]|] eqn:E2;
        [|reflexivity].
      apply check_bot_tag_match_inv in E2
        as (-> & w1 & w2 & g1 & g2 & w3 & -> & H).
      rewrite match_effect_shape in E1 by tauto. discriminate. }
  induction s as [|c s IH]; intros prev skip.
  - cbn [sub_go]. now rewrite (M prev).
  - cbn [sub_go]. destruct skip; [|reflexivity].
    now rewrite (M prev).
Qed.

(** C4, amended: on a path that contains 'additional-tags.tsx' and none
    of the other three fragments of the pass, in EVERY text that holds
    the block, wherever it stands, this occurrence is replaced by the
    block laid out on three lines with [checkBotTag] in the dependency
    list; what stands before the occurrence and what stands after it
    are rewritten by the same pass, each on its own, and a text before
    or after it without [useEffect(] is kept as it is. *)
Theorem effect_block_rewrite (path pre post : text) :
  in_path "additional-tags.tsx" path = true ->
  in_path "tokens/page.tsx" path = false ->
  in_path "tokens-table.tsx" path = false ->
  in_path "WalletTagsContext.tsx" path = false ->
  fix_hook_dependencies_text path (pre ++ effect_block ++ post)
  = fix_hook_dependencies_text path pre
    ++ effect_block_rewritten
    ++ fix_hook_dependencies_text path post
  /\ (contains (codes "useEffect(") pre = false ->
      fix_hook_dependencies_text path pre = pre)
  /\ (contains (codes "useEffect(") post = false ->
      fix_hook_dependencies_text path post = post).
Proof.
  intros P1 P2 P3 P4.
  rewrite !(hook_pass_effect_only path) by assumption.
  split; [|split].
  - change effect_block
      with (effect_shape (codes " ") (codes " ") (codes " ") (codes " ")
                         (codes " ")).
    rewrite check_bot_tag_split by first [discriminate | reflexivity].
    unfold sub. now rewrite (check_bot_tag_prev post (Some (code ")"))).
  - intros Hpre. now apply sub_needs with (l := codes "useEffect(").
  - intros Hpost. now apply sub_needs with (l := codes "useEffect(").
Qed.

Lemma effect_block_rewrite_witness :
  let path := codes "src/components/additional-tags.tsx" in
  let pre := codes "useEffect(() => { load(); }, []); " ++ effect_block
             ++ codes " " in
  let post := codes " return null; }" in
  fix_hook_dependencies_text path (pre ++ effect_block ++ post)
  = fix_hook_dependencies_text path pre
    ++ effect_block_rewritten
    ++ fix_hook_dependencies_text path post
  /\ (contains (codes "useEffect(") pre = false ->
      fix_hook_dependencies_text path pre = pre)
  /\ (contains (codes "useEffect(") post = false ->
      fix_hook_dependencies_text path post = post).
Proof.
  intros path pre post.
  apply (effect_block_rewrite path pre post); vm_compute; reflexivity.
Defined.

(** ** Identifier shapes in [tokens-table.tsx] *)

Lemma plain_name_inv (imp : string) :
  plain_name imp = true ->
  forallb (fun c => negb (N.eqb c (code ","))) (codes imp) = true
  /\ exists c t, codes imp = c :: t /\ is_space c = false.
Proof.
  unfold plain_name. intros H. apply andb_true_iff in H as [H1 H2].
  split; [exact H1|]. destruct (codes imp) as [|c t]; [discriminate|].
  exists c, t. split; [reflexivity|]. now apply negb_true_iff in H2.
Qed.

Lemma imports_plain (imp : string) :
  In imp imports_to_remove -> plain_name imp = true.
Proof.
  cbn [In imports_to_remove]. intros H.
  repeat match type of H with
         | _ \/ _ => destruct H as [<-|H]; [reflexivity|]
         | False => destruct H
         end.
Qed.

(** A rule without [^] does not look at what stands before a match. *)
Lemma sub_go_prev (r : re) (tpl : template) :
  (forall prev s, match_at r prev s = match_at r None s) ->
  forall s prev skip, sub_go r tpl prev s skip = sub_go r tpl None s skip.
Proof.
  intros M; induction s as [|c s IH]; intros prev skip; cbn [sub_go].
  - now rewrite (M prev).
  - destruct skip; [|reflexivity]. now rewrite (M prev).
Qed.

Lemma drop_while_split (p : char -> bool) (s : text) :
  exists w, s = w ++ drop_while p s /\ forallb p w = true
            /\ stops p (drop_while p s) = true.
Proof.
  induction s as [|c s (w & E & Hw & Hs)]; [now exists []|].
  cbn [drop_while]. destruct (p c) eqn:Hc.
  - exists (c :: w). cbn [app forallb]. rewrite Hc, Hw. cbn [andb].
    split; [now f_equal | split; [reflexivity | exact Hs]].
  - exists []. cbn [app forallb stops]. rewrite Hc. now repeat split.
Qed.

Lemma stops_app (p : char -> bool) (a b : text) :
  stops p a = true -> stops p b = true -> stops p (a ++ b) = true.
Proof. destruct a; [intros _ H; exact H | intros H _; exact H]. Qed.

(** A word that ends in [d] and has no other [d] does not lie across the
    start of another copy of itself. *)
Lemma prefixb_short (d : char) (t : text) :
  forall x1 x,
    List.length x1 < List.length x ->
    forallb (fun c => negb (N.eqb c d)) x = true ->
    prefixb (x1 ++ [d]) (x ++ t) = false.
Proof.
  induction x1 as [|a x1 IH]; intros [|c x] L Hx; cbn [List.length] in L;
    try lia; cbn [forallb] in Hx; apply andb_true_iff in Hx as [Hc Hx];
    cbn [app prefixb].
  - apply negb_true_iff in Hc. now rewrite N.eqb_sym, Hc.
  - rewrite IH by (assumption || lia). apply andb_false_r.
Qed.

Lemma prefixb_cut (d : char) (x t : text) :
  forallb (fun c => negb (N.eqb c d)) x = true ->
  forall pre x1,
    List.length x1 < List.length pre + List.length x ->
    prefixb (x1 ++ [d]) (pre ++ x ++ d :: t) = prefixb (x1 ++ [d]) pre.
Proof.
  intros Hx; induction pre as [|e pre IH]; intros x1 L.
  - cbn [app]. cbn [List.length] in L.
    rewrite prefixb_short by (assumption || lia). now destruct x1.
  - destruct x1 as [|a x1]; cbn [app prefixb]; [reflexivity|].
    f_equal. apply IH. cbn [List.length] in L. lia.
Qed.

Section LeadingRule.
Variable imp : string.
Hypothesis Hplain : plain_name imp = true.

Lemma leading_fail (prev : option char) (s : text) :
  prefixb (codes imp ++ codes ",") s = false ->
  match_at (re_leading imp) prev s = None.
Proof.
  intros H. unfold match_at.
  now apply (m_lit2_fail (codes imp) (codes ",")).
Qed.

Lemma leading_hit (prev : option char) (s : text) :
  prefixb (codes imp ++ codes ",") s = true ->
  match_at (re_leading imp) prev s
  = Some (drop_while is_space
            (skipn (List.length (codes imp ++ codes ",")) s), None).
Proof.
  intros H. apply prefixb_split in H. revert H.
  generalize (skipn (List.length (codes imp ++ codes ",")) s).
  intros t ->. rewrite <- app_assoc. apply match_leading_any.
Qed.

Lemma leading_prev (prev : option char) (s : text) :
  match_at (re_leading imp) prev s = match_at (re_leading imp) None s.
Proof.
  destruct (prefixb (codes imp ++ codes ",") s) eqn:E.
  - now rewrite !leading_hit.
  - now rewrite !leading_fail.
Qed.

Lemma stops_name (t : text) : stops is_space (codes imp ++ t) = true.
Proof.
  destruct (plain_name_inv imp Hplain) as (_ & c & t0 & E & Hc).
  rewrite E. cbn [app stops]. now rewrite Hc.
Qed.

(** The rule on a text that holds the name and a comma: what is before
    them and what is after them are rewritten on their own. *)
Lemma leading_split_n (wsp post : text) :
  forallb is_space wsp = true -> stops is_space post = true ->
  forall n pre prev,
    List.length pre <= n ->
    sub_go (re_leading imp) [] prev
           (pre ++ codes imp ++ codes "," ++ wsp ++ post) 0
    = sub_go (re_leading imp) [] prev pre 0
      ++ sub_go (re_leading imp) [] None post 0.
Proof.
  intros Hw Hp.
  destruct (plain_name_inv imp Hplain) as (Hcomma & c0 & t0 & E0 & Hc0).
  assert (Base : forall prev,
             sub_go (re_leading imp) [] prev
                    ([] ++ codes imp ++ codes "," ++ wsp ++ post) 0
             = sub_go (re_leading imp) [] prev [] 0
               ++ sub_go (re_leading imp) [] None post 0).
  { intros prev.
    change (sub_go (re_leading imp) [] prev [] 0)
      with (match match_at (re_leading imp) prev [] with
            | Some (_, g) => expand [] g
            | None => []
            end).
    rewrite leading_fail by (rewrite E0; reflexivity).
    cbn [app].
    replace (codes imp ++ codes "," ++ wsp ++ post)
      with ((codes imp ++ codes "," ++ wsp) ++ post)
      by (now rewrite <- !app_assoc).
    rewrite (sub_go_match _ [] _ (codes imp ++ codes "," ++ wsp) post None).
    - cbn [expand app]. apply sub_go_prev, leading_prev.
    - rewrite E0. discriminate.
    - rewrite <- !app_assoc. now apply match_leading. }
  induction n as [|n IH]; intros pre prev Hn.
  - destruct pre; [apply Base | cbn [List.length] in Hn; lia].
  - destruct pre as [|c pre]; [apply Base|].
    cbn [List.length] in Hn.
    assert (Hcut : prefixb (codes imp ++ codes ",")
                     ((c :: pre) ++ codes imp ++ codes "," ++ wsp ++ post)
                   = prefixb (codes imp ++ codes ",") (c :: pre)).
    { apply (prefixb_cut (code ",") (codes imp) (wsp ++ post) Hcomma
               (c :: pre) (codes imp)).
      cbn [List.length]. lia. }
    destruct (prefixb (codes imp ++ codes ",") (c :: pre)) eqn:Hpre.
    + apply prefixb_split in Hpre.
      destruct (drop_while_split is_space
                  (skipn (List.length (codes imp ++ codes ",")) (c :: pre)))
        as (w & Ew & Hws & Hdz).
      revert Hpre Ew Hdz.
      generalize (drop_while is_space
                    (skipn (List.length (codes imp ++ codes ","))
                           (c :: pre))).
      intros dz Hpre Ew Hdz. rewrite Ew in Hpre. clear Ew.
      assert (M : forall y, stops is_space (dz ++ y) = true \/ dz <> [] ->
                  stops is_space (dz ++ y) = true ->
                  match_at (re_leading imp) prev
                    ((codes imp ++ codes "," ++ w) ++ dz ++ y)
                  = Some (dz ++ y, None)).
      { intros y _ Hy. rewrite <- !app_assoc. now apply match_leading. }
      assert (Nmt : codes imp ++ codes "," ++ w <> [])
        by (rewrite E0; discriminate).
      assert (Epre : c :: pre = (codes imp ++ codes "," ++ w) ++ dz)
        by (rewrite Hpre, <- !app_assoc; reflexivity).
      rewrite Epre, <- app_assoc.
      rewrite (sub_go_match _ [] _ (codes imp ++ codes "," ++ w) _ None Nmt).
      2:{ apply M; [left|]; apply stops_app; try exact Hdz; apply stops_name. }
      rewrite (sub_go_match _ [] _ (codes imp ++ codes "," ++ w) dz None Nmt).
      2:{ rewrite <- (app_nil_r dz) at 1 2.
          apply M; [left|]; rewrite app_nil_r; exact Hdz. }
      cbn [expand app]. apply IH.
      assert (L : List.length (c :: pre)
                  = List.length ((codes imp ++ codes "," ++ w) ++ dz))
        by now rewrite Epre.
      rewrite !length_app, E0 in L. cbn [List.length] in L. lia.
    + cbn [app] in Hcut.
      cbn [app sub_go].
      rewrite (leading_fail prev _ Hcut), (leading_fail prev _ Hpre).
      cbn [app]. f_equal. apply IH. lia.
Qed.

Lemma leading_split (pre wsp post : text) :
  forallb is_space wsp = true -> stops is_space post = true ->
  sub (re_leading imp) [] (pre ++ codes imp ++ codes "," ++ wsp ++ post)
  = sub (re_leading imp) [] pre ++ sub (re_leading imp) [] post.
Proof.
  intros Hw Hp. unfold sub.
  now apply (leading_split_n wsp post Hw Hp (List.length pre)).
Qed.

Lemma stops_with_occurrences (seg : text) (occs : list (text * text)) :
  stops is_space seg = true ->
  stops is_space (with_occurrences (codes imp) seg occs) = true.
Proof.
  intros H. destruct occs as [|[w s] occs]; [exact H|].
  cbn [with_occurrences]. apply stops_app; [exact H|apply stops_name].
Qed.

(** Every one of any number of occurrences goes. *)
Lemma leading_every (occs : list (text * text)) :
  forall first,
    well_spaced occs = true ->
    sub (re_leading imp) [] (with_occurrences (codes imp) first occs)
    = sub (re_leading imp) [] first
      ++ flat_map (fun o => sub (re_leading imp) [] (snd o)) occs.
Proof.
  induction occs as [|[w s] occs IH]; intros first H.
  - cbn [with_occurrences flat_map]. now rewrite app_nil_r.
  - cbn [well_spaced forallb fst snd] in H.
    apply andb_true_iff in H as [H1 H].
    apply andb_true_iff in H1 as [Hw Hs].
    cbn [with_occurrences flat_map snd].
    rewrite leading_split;
      [| exact Hw | now apply stops_with_occurrences].
    f_equal. now apply IH.
Qed.

(** A text the rule finds nothing in does not hold the name and a
    comma. *)
Lemma leading_search_contains (s : text) :
  forall prev,
    search_go (re_leading imp) prev s = false ->
    contains (codes imp ++ codes ",") s = false.
Proof.
  induction s as [|c s IH]; intros prev H; cbn [search_go contains] in *.
  - destruct (prefixb (codes imp ++ codes ",") []) eqn:E; [|reflexivity].
    rewrite (leading_hit prev [] E) in H. discriminate.
  - destruct (prefixb (codes imp ++ codes ",") (c :: s)) eqn:E.
    + rewrite (leading_hit prev _ E) in H. discriminate.
    + rewrite (leading_fail prev _ E) in H. cbn [orb]. now apply (IH (Some c)).
Qed.

Lemma leading_none (s : text) :
  contains (codes imp ++ codes ",") s = false ->
  sub (re_leading imp) [] s = s.
Proof.
  intros H. apply sub_no_match. unfold search.
  generalize (@None char). induction s as [|c s IH]; intros prev;
    cbn [search_go contains] in *; apply orb_false_iff in H as [H1 H2].
  - now rewrite (leading_fail prev _ H1).
  - rewrite (leading_fail prev _ H1). now apply IH.
Qed.

End LeadingRule.

Lemma one_of_not_space (d : char) :
  one_of "," "}" d = true -> is_space d = false.
Proof.
  unfold one_of, is_chr. intros H.
  apply orb_true_iff in H as [H|H]; apply N.eqb_eq in H; now subst.
Qed.

Lemma space_not_comma (c : char) :
  is_space c = true -> negb (N.eqb c (code ",")) = true.
Proof.
  intros H. destruct (N.eqb_spec c (code ",")) as [->|];
    [vm_compute in H; discriminate | reflexivity].
Qed.

Lemma trailing_match_inv_full (imp : string) (prev : option char)
      (s rest : text) (g : option text) :
  match_at (re_trailing imp) prev s = Some (rest, g) ->
  g = None
  /\ exists v1 v2 d rest',
      s = codes "," ++ v1 ++ codes imp ++ v2 ++ rest
      /\ rest = d :: rest' /\ one_of "," "}" d = true
      /\ forallb is_space v1 = true /\ forallb is_space v2 = true.
Proof.
  unfold match_at, re_trailing; cbn [cat m]; intros H.
  unfold ws, str in H; cbn [m] in H.
  apply (m_lit_inv (codes ",")) in H as (s1 & -> & H).
  apply star_inv in H as (v1 & s2 & -> & Hv1 & H).
  apply m_lit_inv in H as (s3 & -> & H).
  apply star_inv in H as (v2 & s4 & -> & Hv2 & H).
  destruct s4 as [|d s4]; [discriminate|].
  destruct (one_of "," "}" d) eqn:Hd; [|discriminate].
  injection H as <- <-. split; [reflexivity|].
  exists v1, v2, d, s4. now repeat split.
Qed.

Section TrailingRule.
Variable imp : string.
Hypothesis Hplain : plain_name imp = true.

(** [,\s*NAME\s*(?=[,}])] at a comma, the name and a comma or a closing
    brace, with any whitespace between them. *)
Lemma match_trailing (prev : option char) (w1 w2 : text) (d : char)
      (rest : text) :
  forallb is_space w1 = true -> forallb is_space w2 = true ->
  one_of "," "}" d = true ->
  match_at (re_trailing imp) prev
    (codes "," ++ w1 ++ codes imp ++ w2 ++ d :: rest)
  = Some (d :: rest, None).
Proof.
  intros H1 H2 Hd. unfold match_at, re_trailing. cbn [cat].
  lit_step.
  rewrite m_cat; apply m_ws_take;
    [exact H1 | now apply stops_name | cbv beta].
  lit_step.
  rewrite m_cat; apply m_ws_take; [exact H2 | | cbv beta].
  - cbn [stops]. now rewrite (one_of_not_space d Hd).
  - cbn [m]. now rewrite Hd.
Qed.

Lemma trailing_prev (prev : option char) (s : text) :
  match_at (re_trailing imp) prev s = match_at (re_trailing imp) None s.
Proof.
  destruct (match_at (re_trailing imp) prev s) as [[rest g]|] eqn:E1.
  - apply trailing_match_inv_full in E1
      as (-> & v1 & v2 & d & rest' & -> & -> & Hd & H1 & H2).
    symmetry. now apply match_trailing.
  - destruct (match_at (re_trailing imp) None s) as [[rest g]|] eqn:E2;
      [|reflexivity].
    apply trailing_match_inv_full in E2
      as (-> & v1 & v2 & d & rest' & -> & -> & Hd & H1 & H2).
    rewrite match_trailing in E1 by assumption. discriminate.
Qed.

Lemma trailing_body (v1 v2 : text) :
  forallb is_space v1 = true -> forallb is_space v2 = true ->
  forallb (fun c => negb (N.eqb c (code ","))) (v1 ++ codes imp ++ v2) = true.
Proof.
  intros H1 H2.
  destruct (plain_name_inv imp Hplain) as (Hcomma & _).
  rewrite !forallb_app.
  apply andb_true_iff; split; [|apply andb_true_iff; split].
  - exact (forallb_weaken is_space _ v1 space_not_comma H1).
  - exact Hcomma.
  - exact (forallb_weaken is_space _ v2 space_not_comma H2).
Qed.

(** A match that starts before a comma ends at or before it, and is a
    match in front of any other text that begins with this comma. *)
Lemma trailing_match_ctx (prev : option char) (c : char)
      (pre T rest : text) (g : option text) :
  match_at (re_trailing imp) prev ((c :: pre) ++ code "," :: T)
  = Some (rest, g) ->
  exists mt z,
    c :: pre = mt ++ z /\ mt <> [] /\ rest = z ++ code "," :: T
    /\ forall T2,
        match_at (re_trailing imp) prev (mt ++ z ++ code "," :: T2)
        = Some (z ++ code "," :: T2, None).
Proof.
  intros H.
  apply trailing_match_inv_full in H
    as (_ & v1 & v2 & d & rest' & E & -> & Hd & H1 & H2).
  change (codes ",") with [code ","] in E. cbn [app] in E.
  injection E as -> E.
  assert (E' : (v1 ++ codes imp ++ v2) ++ d :: rest' = pre ++ code "," :: T)
    by (rewrite <- !app_assoc; symmetry; exact E).
  destruct (prefix_before (code ",") (d :: rest') T (v1 ++ codes imp ++ v2)
              pre (trailing_body v1 v2 H1 H2) E') as (z & Epre & Erest).
  exists (codes "," ++ v1 ++ codes imp ++ v2), z.
  split; [rewrite Epre, <- !app_assoc; reflexivity|].
  split; [discriminate|]. split; [exact Erest|].
  intros T2.
  match goal with
  | |- match_at _ _ (_ ++ ?y) = _ =>
      assert (Hz : exists d' r', y = d' :: r' /\ one_of "," "}" d' = true);
        [| revert Hz; generalize y; intros y' (d' & r' & -> & Hd')]
  end.
  { destruct z as [|e z]; [exists (code ","), T2; now split|].
    cbn [app] in Erest. injection Erest as -> _.
    exists e, (z ++ code "," :: T2). now split. }
  rewrite <- !app_assoc.
  now apply match_trailing.
Qed.

Lemma trailing_not_at_comma (prev : option char) :
  match_at (re_trailing imp) prev [code ","] = None
  /\ match_at (re_trailing imp) prev [] = None.
Proof.
  destruct (plain_name_inv imp Hplain) as (_ & c0 & t0 & E0 & _).
  split.
  - destruct (match_at (re_trailing imp) prev [code ","])
      as [[rest g]|] eqn:E; [|reflexivity].
    apply trailing_match_inv_full in E
      as (_ & v1 & v2 & d & rest' & E & _).
    change (codes ",") with [code ","] in E. cbn [app] in E.
    injection E as E. symmetry in E.
    apply app_eq_nil in E as [_ E]. apply app_eq_nil in E as [E _].
    rewrite E0 in E. discriminate.
  - destruct (match_at (re_trailing imp) prev []) as [[rest g]|] eqn:E;
      [|reflexivity].
    apply trailing_match_inv_full in E
      as (_ & v1 & v2 & d & rest' & E & _). discriminate.
Qed.

(** The rule on a text that holds a comma, the name and a comma or a
    closing brace: the occurrence goes; what is before it is rewritten
    as it is before any comma, what is after it on its own. *)
Lemma trailing_split_n (w1 w2 : text) (d : char) (post : text) :
  forallb is_space w1 = true -> forallb is_space w2 = true ->
  one_of "," "}" d = true ->
  forall n pre prev,
    List.length pre <= n ->
    exists X,
      sub_go (re_trailing imp) [] prev (pre ++ [code ","]) 0
      = X ++ [code ","]
      /\ sub_go (re_trailing imp) [] prev
                (pre ++ code "," :: w1 ++ codes imp ++ w2 ++ d :: post) 0
         = X ++ sub_go (re_trailing imp) [] None (d :: post) 0
      /\ List.length X <= List.length pre.
Proof.
  intros H1 H2 Hd.
  assert (Base : forall prev,
             sub_go (re_trailing imp) [] prev ([] ++ [code ","]) 0
             = [] ++ [code ","]
             /\ sub_go (re_trailing imp) [] prev
                  ([] ++ code "," :: w1 ++ codes imp ++ w2 ++ d :: post) 0
                = [] ++ sub_go (re_trailing imp) [] None (d :: post) 0
             /\ List.length (@nil char) <= 0).
  { intros prev. split; [|split; [|reflexivity]].
    - cbn [app sub_go].
      destruct (trailing_not_at_comma prev) as [-> _].
      now destruct (trailing_not_at_comma (Some (code ","))) as [_ ->].
    - cbn [app].
      change (code "," :: w1 ++ codes imp ++ w2 ++ d :: post)
        with (codes "," ++ w1 ++ codes imp ++ w2 ++ d :: post).
      replace (codes "," ++ w1 ++ codes imp ++ w2 ++ d :: post)
        with ((codes "," ++ w1 ++ codes imp ++ w2) ++ d :: post)
        by (now rewrite <- !app_assoc).
      rewrite (sub_go_match _ [] _ (codes "," ++ w1 ++ codes imp ++ w2)
                 (d :: post) None).
      + cbn [expand app]. apply sub_go_prev, trailing_prev.
      + discriminate.
      + rewrite <- !app_assoc. now apply match_trailing. }
  induction n as [|n IH]; intros pre prev Hn.
  - destruct pre; [|cbn [List.length] in Hn; lia].
    exists []. apply Base.
  - destruct pre as [|c pre]; [exists []; apply Base|].
    cbn [List.length] in Hn.
    destruct (match_at (re_trailing imp) prev
                ((c :: pre) ++ code "," :: w1 ++ codes imp ++ w2 ++ d :: post))
      as [[rest g]|] eqn:HA.
    + apply trailing_match_ctx in HA as (mt & z & Epre & Nmt & _ & Hall).
      assert (L : List.length (c :: pre) = List.length (mt ++ z))
        by now rewrite Epre.
      rewrite length_app in L. cbn [List.length] in L.
      assert (Lz : List.length z <= n)
        by (destruct mt; [contradiction|]; cbn [List.length] in L; lia).
      destruct (IH z (end_prev prev mt) Lz) as (X & EB & EA & LX).
      exists X. rewrite Epre, <- !app_assoc.
      rewrite (sub_go_match _ [] _ mt _ None Nmt (Hall [])).
      rewrite (sub_go_match _ [] _ mt _ None Nmt (Hall _)).
      cbn [expand app]. split; [exact EB|]. split; [exact EA|].
      rewrite length_app. lia.
    + assert (HB : match_at (re_trailing imp) prev
                     ((c :: pre) ++ [code ","]) = None).
      { destruct (match_at (re_trailing imp) prev ((c :: pre) ++ [code ","]))
          as [[rest g]|] eqn:HB; [|reflexivity].
        apply trailing_match_ctx in HB as (mt & z & Epre & _ & _ & Hall).
        rewrite Epre, <- app_assoc, Hall in HA. discriminate. }
      destruct (IH pre (Some c)) as (X & EB & EA & LX); [lia|].
      exists (c :: X). cbn [app] in HA, HB. cbn [app sub_go].
      rewrite HA, HB, EB, EA. cbn [List.length].
      split; [reflexivity|]. split; [reflexivity|lia].
Qed.

Lemma trailing_none (s : text) :
  contains (codes imp) s = false -> sub (re_trailing imp) [] s = s.
Proof.
  intros H. apply sub_no_match. unfold search. apply search_go_none.
  intros y t prev ->.
  destruct (match_at (re_trailing imp) prev t) as [[rest g]|] eqn:E;
    [|reflexivity].
  apply trailing_match_inv_full in E as (_ & v1 & v2 & d & rest' & -> & _).
  rewrite (contains_app_r (codes imp) y) in H; [discriminate|].
  apply contains_app_r, contains_app_r, contains_prefix, prefixb_self.
Qed.

Lemma trailing_split (pre w1 w2 : text) (d : char) (post : text) :
  forallb is_space w1 = true -> forallb is_space w2 = true ->
  one_of "," "}" d = true ->
  exists X,
    sub (re_trailing imp) [] (pre ++ codes ",") = X ++ codes ","
    /\ sub (re_trailing imp) []
           (pre ++ codes "," ++ w1 ++ codes imp ++ w2 ++ d :: post)
       = X ++ sub (re_trailing imp) [] (d :: post)
    /\ List.length X <= List.length pre
    /\ (contains (codes imp) pre = false -> X = pre).
Proof.
  intros H1 H2 Hd.
  destruct (trailing_split_n w1 w2 d post H1 H2 Hd (List.length pre) pre None
              (le_n _)) as (X & EB & EA & LX).
  exists X. split; [exact EB|]. split; [exact EA|]. split; [exact LX|].
  intros Hc.
  destruct (plain_name_inv imp Hplain) as (Hcomma & c0 & t0 & E0 & _).
  assert (Hn : contains (codes imp) (pre ++ [code ","]) = false).
  { rewrite contains_split.
    rewrite (starts_before_across (code ",") (codes imp) Hcomma pre [] Hc).
    rewrite E0 in *. cbn [forallb] in Hcomma.
    apply andb_true_iff in Hcomma as [Hc0 _]. apply negb_true_iff in Hc0.
    cbn [contains prefixb orb]. now rewrite Hc0. }
  apply trailing_none in Hn. unfold sub in Hn. rewrite Hn in EB.
  now apply app_inv_tail in EB.
Qed.

End TrailingRule.

Lemma contains_app_false (l a b : text) :
  contains l (a ++ b) = false ->
  contains l a = false /\ contains l b = false.
Proof.
  intros H. split.
  - destruct (contains l a) eqn:E; [|reflexivity].
    now rewrite (contains_app_l l a b E) in H.
  - now apply contains_false_app in H.
Qed.

Lemma leading_segments (imp : string) (occs : list (text * text)) :
  plain_name imp = true ->
  contains (codes imp ++ codes ",") (List.concat (map snd occs)) = false ->
  flat_map (fun o => sub (re_leading imp) [] (snd o)) occs
  = List.concat (map snd occs).
Proof.
  intros Hp. induction occs as [|[w s] occs IH]; intros H; [reflexivity|].
  cbn [map List.concat snd flat_map] in *.
  apply contains_app_false in H as [H1 H2].
  now rewrite (leading_none imp s H1), IH.
Qed.

(** The pass on a text with any number of occurrences of [Popover], a
    comma and whitespace, when no other rule finds anything. *)
Lemma popover_pass (path first : text) (occs : list (text * text)) :
  in_path "tokens-table.tsx" path = true ->
  in_path "token-details-modal.tsx" path = false ->
  in_path "additional-tags.tsx" path = false ->
  well_spaced occs = true ->
  forallb (fun r => negb (search r (with_occurrences (codes "Popover")
                                                     first occs)))
          rules_before_popover = true ->
  no_trigger (first ++ List.concat (map snd occs)) = true ->
  fix_unused_imports_text path (with_occurrences (codes "Popover") first occs)
  = first ++ List.concat (map snd occs).
Proof.
  intros P1 P2 P3 Hocc Hearlier Hno.
  unfold rules_before_popover in Hearlier. cbn [forallb] in Hearlier.
  repeat (apply andb_true_iff in Hearlier as [?H Hearlier]).
  repeat match goal with
         | H : negb _ = true |- _ => apply negb_true_iff in H
         end.
  unfold fix_unused_imports_text. rewrite P1, P2, P3.
  cbn [fold_left imports_to_remove]. unfold remove_import at 5.
  rewrite (sub_no_match re_import_tags) by assumption.
  rewrite (sub_no_match (re_trailing "Popover")
             [] (sub (re_leading_brace "Tags") _ _));
    rewrite (sub_no_match (re_trailing "Tags")) by assumption;
    rewrite (sub_no_match (re_leading_brace "Tags")) by assumption;
    [|assumption].
  assert (E : sub (re_leading "Popover") []
                (with_occurrences (codes "Popover") first occs)
              = first ++ List.concat (map snd occs)).
  { rewrite (leading_every "Popover" eq_refl occs first Hocc).
    assert (Hc : contains (codes "Popover" ++ codes ",")
                          (first ++ List.concat (map snd occs)) = false).
    { apply (leading_search_contains "Popover" _ None).
      unfold no_trigger in Hno. rewrite forallb_forall in Hno.
      apply negb_true_iff. apply Hno. in_rules. }
    apply contains_app_false in Hc as [Hc1 Hc2].
    rewrite (leading_none "Popover" first Hc1).
    now rewrite (leading_segments "Popover" occs eq_refl Hc2). }
  rewrite E. unfold remove_import.
  repeat match goal with
         | |- context [sub ?r ?t (first ++ List.concat (map snd occs))] =>
             rewrite (no_trigger_sub (first ++ List.concat (map snd occs)) r t)
               by (assumption || in_rules)
         end.
  reflexivity.
Qed.




(** ** The standalone console line in any text *)

(** A run of a class that is cut off by a character outside the class
    ends before it. *)
Lemma class_prefix (p : char -> bool) (d : char) (rest t : text) :
  p d = false ->
  forall x pre,
    forallb p x = true ->
    x ++ rest = pre ++ d :: t ->
    exists z, pre = x ++ z /\ rest = z ++ d :: t.
Proof.
  intros Hd. induction x as [|c x IH]; intros pre Hx E.
  - exists pre. now split.
  - cbn [forallb] in Hx. apply andb_true_iff in Hx as [Hc Hx].
    destruct pre as [|c' pre]; cbn [app] in E.
    + injection E as -> _. congruence.
    + injection E as -> E. destruct (IH pre Hx E) as (z & -> & ->).
      exists z. now split.
Qed.

(** A text without [d] at the end of a text that holds a [d] starts
    behind it. *)
Lemma suffix_after (d : char) (x : text) :
  forallb (fun c => negb (N.eqb c d)) x = true ->
  forall a pre b,
    pre ++ x = a ++ d :: b ->
    exists y, pre = a ++ d :: y /\ b = y ++ x.
Proof.
  intros Hx. induction a as [|f a IH]; intros pre b E.
  - destruct pre as [|e pre]; cbn [app] in E.
    + rewrite E in Hx. cbn [forallb] in Hx. rewrite N.eqb_refl in Hx.
      discriminate.
    + injection E as -> E. exists pre. now split.
  - destruct pre as [|e pre]; cbn [app] in E.
    + rewrite E in Hx. cbn [forallb] in Hx.
      apply andb_true_iff in Hx as [_ Hx]. rewrite forallb_app in Hx.
      apply andb_true_iff in Hx as [_ Hx]. cbn [forallb] in Hx.
      rewrite N.eqb_refl in Hx. discriminate.
    + injection E as -> E. destruct (IH pre b E) as (y & -> & ->).
      exists y. now split.
Qed.

Lemma space_not_rparen (c : char) :
  is_space c = true -> not_chr ")" c = true.
Proof.
  intros H. unfold not_chr, is_chr.
  destruct (N.eqb_spec c (code ")")) as [->|];
    [vm_compute in H; discriminate | reflexivity].
Qed.

(** The part of a call before its closing parenthesis holds none. *)
Lemma call_head_no_rparen (w1 : text) (name : string) (a : text) :
  forallb is_space w1 = true -> In name console_names ->
  forallb (not_chr ")") a = true ->
  forallb (fun c => negb (N.eqb c (code ")")))
          (w1 ++ codes "console." ++ codes name ++ codes "(" ++ a) = true.
Proof.
  intros Hw Hin Ha. rewrite !forallb_app.
  apply andb_true_iff; split;
    [exact (forallb_weaken is_space _ w1 space_not_rparen Hw)|].
  apply andb_true_iff; split; [reflexivity|].
  apply andb_true_iff; split; [names_cases Hin; reflexivity|].
  apply andb_true_iff; split; [reflexivity|exact Ha].
Qed.

Lemma end_prev_nonempty (prev : option char) (s : text) :
  s <> [] -> end_prev prev s = end_prev None s.
Proof. destruct s; [contradiction|reflexivity]. Qed.

Lemma console_call_nonempty (w1 : text) (name : string) (args w2 : text) :
  console_call w1 name args w2 <> [].
Proof.
  unfold console_call. intros E.
  apply app_eq_nil in E as [_ E]. discriminate E.
Qed.

Lemma contains_console_call (v1 x : text) :
  contains (codes "console.") (v1 ++ codes "console." ++ x) = true.
Proof. apply contains_app_r, contains_prefix, prefixb_self. Qed.

(** Where a match stands that starts at or before a call: either it
    ends before the call, or its own closing parenthesis is the first
    one of the call. *)
Lemma console_match_cases (prev : option char) (z0 w1 : text)
      (name : string) (a tl rest : text) (g : option text) :
  forallb is_space w1 = true -> forallb not_nl w1 = true ->
  In name console_names -> forallb (not_chr ")") a = true ->
  match_at re_console_line prev
    (z0 ++ (w1 ++ codes "console." ++ codes name ++ codes "(" ++ a)
        ++ code ")" :: tl) = Some (rest, g) ->
  (exists M z,
      z0 = M ++ z /\ z <> [] /\ contains (codes "console.") M = true
      /\ rest = z ++ (w1 ++ codes "console." ++ codes name ++ codes "(" ++ a)
                  ++ code ")" :: tl)
  \/ (exists v1 nm ar v2,
         at_bol prev = true /\ In nm console_names
         /\ forallb is_space v1 = true
         /\ forallb (not_chr ")") ar = true
         /\ forallb is_space v2 = true
         /\ v1 ++ codes "console." ++ codes nm ++ codes "(" ++ ar
            = z0 ++ w1 ++ codes "console." ++ codes name ++ codes "(" ++ a
         /\ tl = code ";" :: v2 ++ rest
         /\ at_eol rest = true).
Proof.
  intros Hw1 Hnl1 Hin Ha Hm.
  apply console_line_match_inv in Hm
    as (Hbol & Heol & v1 & nm & ar & v2 & E & Hv1 & Hnm & Har & Hv2).
  set (h := w1 ++ codes "console." ++ codes name ++ codes "(" ++ a) in *.
  assert (E' : (v1 ++ codes "console." ++ codes nm ++ codes "(" ++ ar)
               ++ code ")" :: code ";" :: v2 ++ rest
               = (z0 ++ h) ++ code ")" :: tl).
  { rewrite <- !app_assoc. symmetry. etransitivity; [exact E|].
    unfold console_call. rewrite <- !app_assoc. reflexivity. }
  destruct (prefix_before (code ")") _ _ _ _
              (call_head_no_rparen v1 nm ar Hv1 Hnm Har) E')
    as (zz & Ezz & Etl).
  destruct zz as [|e zz].
  - right. exists v1, nm, ar, v2. rewrite app_nil_r in Ezz.
    cbn [app] in Etl. injection Etl as Etl.
    repeat split; try assumption.
    + rewrite <- Ezz. reflexivity.
    + now symmetry.
  - left. cbn [app] in Etl. injection Etl as <- Etl.
    destruct (suffix_after (code ")") h
                (call_head_no_rparen w1 name a Hw1 Hin Ha) _ _ _ Ezz)
      as (y & Ez0 & Ezz').
    subst zz.
    assert (E2 : (code ";" :: v2) ++ rest
                 = (y ++ w1) ++ code "c"
                   :: codes "onsole." ++ codes name ++ codes "(" ++ a
                      ++ code ")" :: tl).
    { cbn [app]. etransitivity; [exact Etl|]. unfold h.
      rewrite <- !app_assoc. reflexivity. }
    assert (Hx : forallb (fun c => is_space c || N.eqb c (code ";"))
                         (code ";" :: v2) = true).
    { cbn [forallb]. apply (forallb_weaken is_space); [|exact Hv2].
      intros c Hc. now rewrite Hc. }
    destruct (class_prefix _ (code "c") _ _ eq_refl _ _ Hx E2)
      as (u & Eu & Erest).
    apply app_eq_app in Eu as (l & [[Ey El] | [Ey El]]).
    + exists ((v1 ++ codes "console." ++ codes nm ++ codes "(" ++ ar)
              ++ code ")" :: code ";" :: v2), l.
      assert (Er : rest = l ++ h ++ code ")" :: tl).
      { rewrite Erest, El. unfold h. rewrite <- !app_assoc. reflexivity. }
      split; [rewrite Ez0, Ey, <- !app_assoc; reflexivity|].
      split.
      * intros ->. rewrite Er in Heol. unfold h in Heol.
        destruct w1 as [|c w1]; [discriminate Heol|].
        cbn [app at_eol] in Heol. cbn [forallb] in Hnl1.
        apply andb_true_iff in Hnl1 as [Hc _]. unfold not_nl in Hc.
        rewrite Heol in Hc. discriminate.
      * split; [|exact Er].
        rewrite <- !app_assoc. apply contains_console_call.
    + exfalso. rewrite Erest in Heol. rewrite El in Hnl1.
      apply forallb_app_r in Hnl1.
      destruct u as [|c u]; [discriminate Heol|].
      cbn [app at_eol] in Heol. cbn [forallb] in Hnl1.
      apply andb_true_iff in Hnl1 as [Hc _]. unfold not_nl in Hc.
      rewrite Heol in Hc. discriminate.
Qed.

(** The rule looks at what stands before a match only to see whether a
    line starts there. *)
Lemma console_line_bol (prev : option char) (s : text) :
  at_bol prev = true ->
  match_at re_console_line prev s = match_at re_console_line None s.
Proof.
  intros H. unfold match_at, re_console_line. cbn [cat].
  rewrite !(m_cat Bol), !m_bol by (exact H || reflexivity). cbv beta.
  rewrite !(m_cat ws). unfold ws. rewrite !m_star.
  destruct s as [|c s]; reflexivity.
Qed.

Lemma sub_go_console_bol (s : text) (prev : option char) :
  at_bol prev = true ->
  sub_go re_console_line [] prev s 0 = sub re_console_line [] s.
Proof.
  intros H. unfold sub.
  destruct s as [|c s]; cbn [sub_go]; now rewrite (console_line_bol prev _ H).
Qed.

Lemma console_line_not_empty (prev : option char) :
  match_at re_console_line prev [] = None.
Proof.
  destruct (match_at re_console_line prev []) as [[rest g]|] eqn:E;
    [|reflexivity].
  apply console_line_match_inv in E
    as (_ & _ & v1 & nm & ar & v2 & E & _).
  symmetry in E. apply app_eq_nil in E as [E _].
  now apply console_call_nonempty in E.
Qed.

(** A call at the start of a line is matched up to where the trailing
    whitespace is cut. *)
Lemma console_line_match_at (prev : option char) (v1 : text) (nm : string)
      (ar T rest : text) :
  at_bol prev = true -> In nm console_names ->
  forallb is_space v1 = true -> forallb (not_chr ")") ar = true ->
  (forall p g, star_m is_space p T g eol_kont = Some (rest, g)) ->
  exists g,
    match_at re_console_line prev
      (v1 ++ codes "console." ++ codes nm ++ codes "(" ++ ar ++ codes ");"
          ++ T)
    = Some (rest, g).
Proof.
  intros Hbol Hin Hv1 Har HT.
  unfold match_at, re_console_line. cbn [cat m]. rewrite Hbol.
  eexists.
  apply star_take; [exact Hv1 | reflexivity |].
  unfold str. rewrite m_lit. cbn [m].
  assert (Tl : forall p3 g3,
             m (cat [str "("; no_rparen; str ");"; ws; Eol]) p3
               (codes "(" ++ ar ++ codes ");" ++ T) g3
               (fun _ s' g' => Some (s', g'))
             = Some (rest, g3)).
  { intros p3 g3. cbn [cat m]. unfold str.
    rewrite m_lit. unfold no_rparen; cbn [m].
    apply star_take; [exact Har | reflexivity |].
    rewrite m_lit. unfold ws; cbn [m]. apply HT. }
  cbn [cat m] in Tl. unfold str in Tl.
  names_cases Hin.
  - rewrite m_lit, Tl. reflexivity.
  - rewrite (m_lit_none (codes "log")) by reflexivity.
    rewrite m_lit, Tl. reflexivity.
  - rewrite (m_lit_none (codes "log")) by reflexivity.
    rewrite (m_lit_none (codes "error")) by reflexivity.
    rewrite m_lit, Tl. reflexivity.
  - rewrite (m_lit_none (codes "log")) by reflexivity.
    rewrite (m_lit_none (codes "error")) by reflexivity.
    rewrite (m_lit_none (codes "warn")) by reflexivity.
    rewrite m_lit, Tl. reflexivity.
Qed.

(** Whitespace up to the end of the text is taken whole. *)
Lemma tail_to_end (w : text) :
  forallb is_space w = true ->
  forall p g, star_m is_space p (w ++ []) g eol_kont = Some ([], g).
Proof. intros Hw p g. now apply star_take. Qed.

(** Whitespace on the line, a newline and a line that is not blank: the
    cut is before the newline. *)
Lemma tail_to_newline (w2 V post : text) :
  forallb is_space w2 = true ->
  forallb is_space V = true -> forallb not_nl V = true ->
  stops is_space post = true -> post <> [] ->
  forall p g,
    star_m is_space p (w2 ++ NL :: V ++ post) g eol_kont
    = Some (NL :: V ++ post, g).
Proof.
  intros Hw2 HV HnV Hpost Hne p g.
  change (w2 ++ NL :: V ++ post) with (w2 ++ (NL :: V) ++ post).
  apply star_back; [exact Hw2 | | exact Hpost | | reflexivity].
  - cbn [forallb]. now rewrite HV.
  - intros t1 t2 E Ht1. unfold eol_kont.
    destruct t1 as [|c t1]; [contradiction|].
    cbn [app] in E. injection E as _ E. subst V.
    apply forallb_app_r in HnV.
    destruct t2 as [|d t2]; cbn [app].
    + now rewrite (stops_space_not_eol post Hne Hpost).
    + cbn [forallb] in HnV. apply andb_true_iff in HnV as [Hd _].
      unfold not_nl in Hd. apply negb_true_iff in Hd.
      cbn [at_eol]. now rewrite Hd.
Qed.

Lemma not_nl_first (c : char) (s t : text) :
  forallb not_nl (c :: s) = true -> at_eol (c :: s ++ t) = false.
Proof.
  cbn [forallb at_eol]. intros H. apply andb_true_iff in H as [H _].
  unfold not_nl in H. now apply negb_true_iff in H.
Qed.

Section KeptLine.
Variables (w1 : text) (name : string) (a1 a2 w2 P : text).
Hypothesis Hw1 : forallb is_space w1 = true.
Hypothesis Hin : In name console_names.
Hypothesis Ha1 : forallb (not_chr ")") a1 = true.
Hypothesis Hnl : forallb not_nl (kept_line w1 name a1 a2 w2) = true.

Lemma kept_line_text (z0 : text) :
  z0 ++ kept_line w1 name a1 a2 w2 ++ P
  = z0 ++ (w1 ++ codes "console." ++ codes name ++ codes "(" ++ a1)
       ++ code ")" :: (a2 ++ codes ");" ++ w2 ++ P).
Proof.
  unfold kept_line, console_call. rewrite <- !app_assoc. reflexivity.
Qed.

Lemma kept_line_parts :
  forallb not_nl w1 = true /\ forallb not_nl a2 = true.
Proof.
  pose proof Hnl as H. unfold kept_line, console_call in H.
  rewrite !forallb_app in H.
  repeat match goal with
         | H0 : _ && _ = true |- _ => apply andb_true_iff in H0 as [? ?]
         end.
  now split.
Qed.

(** A match that starts at or before the line ends before it. *)
Lemma kept_line_ctx (prev : option char) (z0 rest : text)
      (g : option text) :
  match_at re_console_line prev (z0 ++ kept_line w1 name a1 a2 w2 ++ P)
  = Some (rest, g) ->
  exists M z,
    z0 = M ++ z /\ z <> [] /\ contains (codes "console.") M = true
    /\ rest = z ++ kept_line w1 name a1 a2 w2 ++ P.
Proof.
  intros Hm. rewrite kept_line_text in Hm.
  destruct kept_line_parts as [Hnl1 Hnl2].
  apply console_match_cases in Hm
    as [(M & z & E1 & E2 & E3 & E4)
       | (v1 & nm & ar & v2 & _ & _ & _ & _ & Hv2 & _ & Etl & Heol)];
    try assumption.
  - exists M, z. rewrite kept_line_text. now repeat split.
  - exfalso.
    assert (E : (code ";" :: v2) ++ rest
                = a2 ++ code ")" :: (code ";" :: w2 ++ P))
      by (symmetry; exact Etl).
    assert (Hx : forallb (fun c => negb (N.eqb c (code ")")))
                         (code ";" :: v2) = true).
    { cbn [forallb]. apply andb_true_iff; split; [reflexivity|].
      exact (forallb_weaken is_space _ v2 space_not_rparen Hv2). }
    destruct (prefix_before (code ")") _ _ _ _ Hx E) as (y & Ey & Er).
    rewrite Er in Heol. rewrite Ey in Hnl2. apply forallb_app_r in Hnl2.
    destruct y as [|c y]; [discriminate Heol|].
    cbn [app] in Heol. now rewrite (not_nl_first c y _ Hnl2) in Heol.
Qed.

Lemma kept_line_copied (prev : option char) :
  sub_go re_console_line [] prev (kept_line w1 name a1 a2 w2 ++ P) 0
  = kept_line w1 name a1 a2 w2
    ++ sub_go re_console_line []
              (end_prev None (kept_line w1 name a1 a2 w2)) P 0.
Proof.
  rewrite sub_go_copy_nomatch.
  - now rewrite (end_prev_nonempty prev (kept_line w1 name a1 a2 w2)
               (console_call_nonempty _ _ _ _)).
  - intros y z E Hz. destruct y as [|c y].
    + cbn [app] in E. subst z. cbn [end_prev fold_left].
      destruct (match_at re_console_line prev (kept_line w1 name a1 a2 w2 ++ P))
        as [[rest g]|] eqn:Hm; [|reflexivity].
      apply (kept_line_ctx prev []) in Hm as (M & z & E & Hz' & _).
      symmetry in E. apply app_eq_nil in E as [_ E]. contradiction.
    + apply console_line_needs_bol.
      rewrite E, forallb_app in Hnl.
      apply andb_true_iff in Hnl as [Hy _].
      apply at_bol_end_prev; [discriminate|exact Hy].
Qed.

(** The rule on a text that holds the line: the line stays, and what is
    before it loses at most what the rule finds there. *)
Lemma kept_line_scan :
  forall n z0 prev,
    List.length z0 <= n ->
    exists F,
      sub_go re_console_line [] prev (z0 ++ kept_line w1 name a1 a2 w2 ++ P) 0
      = F ++ kept_line w1 name a1 a2 w2
          ++ sub_go re_console_line []
                    (end_prev None (kept_line w1 name a1 a2 w2)) P 0
      /\ List.length F <= List.length z0
      /\ (contains (codes "console.") z0 = false -> F = z0).
Proof.
  induction n as [|n IH]; intros z0 prev Hn.
  - destruct z0; [|cbn [List.length] in Hn; lia].
    exists []. cbn [app]. rewrite kept_line_copied. now repeat split.
  - destruct z0 as [|c z0].
    { exists []. cbn [app]. rewrite kept_line_copied. now repeat split. }
    cbn [List.length] in Hn.
    destruct (match_at re_console_line prev
                ((c :: z0) ++ kept_line w1 name a1 a2 w2 ++ P))
      as [[rest g]|] eqn:Hm.
    + pose proof Hm as Hm0.
      apply kept_line_ctx in Hm as (M & z & E & Hz & HM & Er).
      assert (NM : M <> []) by (intros ->; discriminate HM).
      assert (L : List.length (c :: z0) = List.length (M ++ z))
        by now rewrite E.
      rewrite length_app in L. cbn [List.length] in L.
      assert (Lz : List.length z <= n)
        by (destruct M; [contradiction|]; cbn [List.length] in L; lia).
      destruct (IH z (end_prev prev M) Lz) as (F & EF & LF & _).
      exists F. rewrite E in Hm0 |- *. rewrite <- app_assoc in Hm0 |- *.
      rewrite Er in Hm0.
      rewrite (sub_go_match _ [] _ M _ g NM Hm0).
      cbn [expand app]. split; [exact EF|]. split.
      * rewrite length_app. lia.
      * intros Hc. rewrite (contains_app_l _ M z HM) in Hc. discriminate.
    + destruct (IH z0 (Some c)) as (F & EF & LF & HF); [lia|].
      exists (c :: F). cbn [app] in Hm. cbn [app sub_go]. rewrite Hm, EF.
      cbn [List.length]. split; [reflexivity|]. split; [lia|].
      intros Hc. f_equal. apply HF. now apply contains_tail in Hc.
Qed.

End KeptLine.

Lemma after_full_line_inv (A : text) :
  after_full_line A = true ->
  A = [] \/ exists A0 c, A = A0 ++ [c; NL] /\ is_space c = false.
Proof.
  unfold after_full_line. intros H.
  destruct (rev A) as [|n [|c r]] eqn:E.
  - left. apply (f_equal (@rev char)) in E.
    now rewrite rev_involutive in E.
  - discriminate.
  - right. apply andb_true_iff in H as [Hn Hc].
    apply N.eqb_eq in Hn as ->. apply negb_true_iff in Hc.
    exists (rev r), c. split; [|exact Hc].
    apply (f_equal (@rev char)) in E. rewrite rev_involutive in E.
    rewrite E. cbn [rev]. now rewrite <- app_assoc.
Qed.

Lemma after_full_line_bol (A : text) :
  after_full_line A = true -> at_bol (end_prev None A) = true.
Proof.
  intros H. destruct (after_full_line_inv A H) as [->|(A0 & c & -> & _)];
    [reflexivity|].
  now rewrite end_prev_app.
Qed.

Lemma console_word_no_space (d : char) :
  is_space d = true ->
  forallb (fun c => negb (N.eqb c d)) (codes "console.") = true.
Proof.
  intros H. cbn [codes forallb].
  repeat match goal with
         | |- context [N.eqb ?x d] =>
             destruct (N.eqb_spec x d) as [<-|];
               [vm_compute in H; discriminate|]
         end.
  reflexivity.
Qed.

(** In front of whitespace and [console.], the word starts nowhere in a
    text that does not hold it. *)
Lemma console_not_across (z w Q : text) :
  forallb is_space w = true ->
  contains (codes "console.") z = false ->
  starts_before (codes "console.") (z ++ w) (codes "console." ++ Q) = false.
Proof.
  intros Hw Hz. rewrite starts_before_app. apply orb_false_iff. split.
  - destruct w as [|d w].
    + cbn [app]. induction z as [|c z IH]; [reflexivity|].
      cbn [contains] in Hz. apply orb_false_iff in Hz as [H1 H2].
      cbn [starts_before]. rewrite (IH H2), orb_false_r.
      pose proof (prefixb_cut (code ".") (codes "console") Q eq_refl
                    (c :: z) (codes "console")) as C.
      etransitivity; [apply C; cbn [List.length]; lia | exact H1].
    + cbn [forallb] in Hw. apply andb_true_iff in Hw as [Hd _].
      cbn [app].
      now apply starts_before_across; [apply console_word_no_space|].
  - now apply (starts_before_class is_space (code "c") (codes "onsole.")).
Qed.

Section DeletedLine.
Variables (w1 : text) (name : string) (args w2 T : text).
Hypothesis Hw1 : forallb is_space w1 = true.
Hypothesis Hnl1 : forallb not_nl w1 = true.
Hypothesis Hin : In name console_names.
Hypothesis Hargs : forallb (not_chr ")") args = true.
Hypothesis HT :
  forall p g, star_m is_space p (w2 ++ T) g eol_kont = Some (T, g).

Lemma deleted_text (z0 : text) :
  z0 ++ console_call w1 name args w2 ++ T
  = z0 ++ (w1 ++ codes "console." ++ codes name ++ codes "(" ++ args)
       ++ code ")" :: (code ";" :: w2 ++ T).
Proof. unfold console_call. rewrite <- !app_assoc. reflexivity. Qed.

(** A match that starts at or before the call ends before it or takes
    the call with it. *)
Lemma deleted_ctx (prev : option char) (z0 rest : text) (g : option text) :
  match_at re_console_line prev (z0 ++ console_call w1 name args w2 ++ T)
  = Some (rest, g) ->
  (exists M z,
      z0 = M ++ z /\ z <> [] /\ M <> []
      /\ rest = z ++ console_call w1 name args w2 ++ T)
  \/ rest = T.
Proof.
  intros Hm. pose proof Hm as Hm0. rewrite deleted_text in Hm.
  apply console_match_cases in Hm
    as [(M & z & E1 & E2 & E3 & E4)
       | (v1 & nm & ar & v2 & Hbol & Hnm & Hv1 & Har & Hv2 & Eh & _ & _)];
    try assumption.
  - left. exists M, z. rewrite deleted_text.
    repeat split; try assumption. intros ->. discriminate E3.
  - right.
    destruct (console_line_match_at prev v1 nm ar (w2 ++ T) T Hbol Hnm Hv1
                Har HT) as [g' Hf].
    assert (Et : v1 ++ codes "console." ++ codes nm ++ codes "(" ++ ar
                 ++ codes ");" ++ w2 ++ T
                 = z0 ++ console_call w1 name args w2 ++ T).
    { rewrite deleted_text.
      pose proof (f_equal (fun t => t ++ codes ");" ++ w2 ++ T) Eh) as E'.
      cbv beta in E'. rewrite <- !app_assoc in E'.
      rewrite <- !app_assoc. exact E'. }
    rewrite Et in Hf. congruence.
Qed.

Lemma deleted_at_bol (prev : option char) :
  at_bol prev = true ->
  sub_go re_console_line [] prev (console_call w1 name args w2 ++ T) 0
  = sub_go re_console_line [] (end_prev None (console_call w1 name args w2))
           T 0.
Proof.
  intros Hb.
  destruct (console_line_match_at prev w1 name args (w2 ++ T) T Hb Hin Hw1
              Hargs HT) as [g Hf].
  replace (w1 ++ codes "console." ++ codes name ++ codes "(" ++ args
           ++ codes ");" ++ w2 ++ T)
    with (console_call w1 name args w2 ++ T) in Hf
    by (unfold console_call; now rewrite <- !app_assoc).
  rewrite (sub_go_match _ [] _ _ T g (console_call_nonempty _ _ _ _) Hf).
  cbn [expand app].
  now rewrite (end_prev_nonempty prev _ (console_call_nonempty _ _ _ _)).
Qed.

(** The rule on a text that holds the call at the start of a line: the
    call goes, with the whitespace around it up to [T]. *)
Lemma deleted_scan :
  forall n z0 prev,
    List.length z0 <= n ->
    at_bol (end_prev prev z0) = true ->
    exists F,
      sub_go re_console_line [] prev
             (z0 ++ console_call w1 name args w2 ++ T) 0
      = F ++ sub_go re_console_line []
                    (end_prev None (console_call w1 name args w2)) T 0
      /\ List.length F <= List.length z0.
Proof.
  induction n as [|n IH]; intros z0 prev Hn Hb.
  - destruct z0; [|cbn [List.length] in Hn; lia].
    exists []. split; [now apply deleted_at_bol | reflexivity].
  - destruct z0 as [|c z0].
    { exists []. split; [now apply deleted_at_bol | reflexivity]. }
    cbn [List.length] in Hn.
    destruct (match_at re_console_line prev
                ((c :: z0) ++ console_call w1 name args w2 ++ T))
      as [[rest g]|] eqn:Hm.
    + pose proof Hm as Hm0.
      apply deleted_ctx in Hm as [(M & z & E & Hz & NM & Er) | ->].
      * assert (L : List.length (c :: z0) = List.length (M ++ z))
          by now rewrite E.
        rewrite length_app in L. cbn [List.length] in L.
        assert (Lz : List.length z <= n)
          by (destruct M; [contradiction|]; cbn [List.length] in L; lia).
        rewrite E, end_prev_app in Hb.
        destruct (IH z (end_prev prev M) Lz Hb) as (F & EF & LF).
        exists F. rewrite E in Hm0 |- *. rewrite <- app_assoc in Hm0 |- *.
        rewrite Er in Hm0.
        rewrite (sub_go_match _ [] _ M _ g NM Hm0).
        cbn [expand app]. split; [exact EF|].
        rewrite length_app. lia.
      * exists []. rewrite app_assoc in Hm0 |- *.
        rewrite (sub_go_match _ [] _ _ T g); [| |exact Hm0].
        -- cbn [expand]. rewrite end_prev_app.
           rewrite (end_prev_nonempty _ _ (console_call_nonempty _ _ _ _)).
           split; [reflexivity|]. cbn [List.length]. lia.
        -- discriminate.
    + destruct (IH z0 (Some c)) as (F & EF & LF); [lia|exact Hb|].
      exists (c :: F). cbn [app] in Hm. cbn [app sub_go]. rewrite Hm, EF.
      cbn [List.length]. split; [reflexivity|lia].
Qed.

(** Before the first call of a text, after a line that is not blank, no
    match starts. *)
Lemma deleted_no_match_before (A y z : text) :
  contains (codes "console.") A = false -> after_full_line A = true ->
  A = y ++ z -> z <> [] ->
  match_at re_console_line (end_prev None y)
    (z ++ console_call w1 name args w2 ++ T) = None.
Proof.
  intros Hc Hfl E Hz.
  destruct (match_at re_console_line (end_prev None y)
              (z ++ console_call w1 name args w2 ++ T))
    as [[rest g]|] eqn:Hm; [exfalso|reflexivity].
  rewrite deleted_text in Hm.
  apply console_match_cases in Hm
    as [(M & z' & E1 & _ & E3 & _)
       | (v1 & nm & ar & v2 & Hbol & _ & Hv1 & _ & _ & Eh & _ & _)];
    try assumption.
  - rewrite E, E1 in Hc.
    rewrite (contains_app_r _ y _ (contains_app_l _ M z' E3)) in Hc.
    discriminate.
  - assert (Hcz : contains (codes "console.") z = false).
    { rewrite E in Hc. now apply contains_false_app in Hc. }
    assert (E2 : (z ++ w1) ++ codes "console."
                 ++ (codes name ++ codes "(" ++ args)
                 = v1 ++ codes "console." ++ (codes nm ++ codes "(" ++ ar)).
    { rewrite <- !app_assoc. symmetry. exact Eh. }
    apply first_occ in E2 as [[Ev _] | (c & d & Ev & Ec)];
      [| | now apply console_not_across].
    + rewrite Ev, forallb_app in Hv1. apply andb_true_iff in Hv1 as [Hzs _].
      destruct (after_full_line_inv A Hfl) as [->|(A0 & c & -> & Hcs)].
      * symmetry in E. apply app_eq_nil in E as [_ E]. contradiction.
      * apply (class_suffix is_space c NL Hcs) in E as [_ ->];
          try assumption.
        rewrite end_prev_app in Hbol. cbn [end_prev fold_left at_bol] in Hbol.
        apply N.eqb_eq in Hbol. subst c. discriminate Hcs.
    + cbn [codes app] in Ec. injection Ec as <- _.
      rewrite Ev, forallb_app in Hv1. apply andb_true_iff in Hv1 as [_ Hv1].
      discriminate Hv1.
Qed.

Lemma deleted_exact (A : text) :
  contains (codes "console.") A = false -> after_full_line A = true ->
  sub re_console_line [] (A ++ console_call w1 name args w2 ++ T)
  = A ++ sub_go re_console_line []
               (end_prev None (console_call w1 name args w2)) T 0.
Proof.
  intros Hc Hfl. unfold sub.
  rewrite sub_go_copy_nomatch
    by (intros y z E Hz; now apply (deleted_no_match_before A)).
  f_equal. apply deleted_at_bol. now apply after_full_line_bol.
Qed.

(** Both together. *)
Lemma deleted_line (A : text) :
  at_bol (end_prev None A) = true ->
  exists F,
    sub re_console_line [] (A ++ console_call w1 name args w2 ++ T)
    = F ++ sub_go re_console_line []
                  (end_prev None (console_call w1 name args w2)) T 0
    /\ List.length F <= List.length A
    /\ (contains (codes "console.") A = false ->
        after_full_line A = true -> F = A).
Proof.
  intros Hb.
  destruct (deleted_scan (List.length A) A None (le_n _) Hb) as (F & EF & LF).
  exists F. split; [exact EF|]. split; [exact LF|].
  intros Hc Hfl. pose proof (deleted_exact A Hc Hfl) as EA.
  unfold sub in EA. rewrite EF in EA. now apply app_inv_tail in EA.
Qed.

End DeletedLine.

Lemma kept_line_not_bol (w1 : text) (name : string) (a1 a2 w2 : text) :
  forallb not_nl (kept_line w1 name a1 a2 w2) = true ->
  at_bol (end_prev None (kept_line w1 name a1 a2 w2)) = false.
Proof.
  intros H. apply at_bol_end_prev; [|exact H].
  apply console_call_nonempty.
Qed.

(** What the rule makes of the text behind a place that is not the
    start of a line. *)
Lemma sub_go_after_line (prev : option char) (P : text) :
  at_bol prev = false ->
  sub_go re_console_line [] prev [] 0 = []
  /\ sub_go re_console_line [] prev (NL :: P) 0
     = NL :: sub re_console_line [] P.
Proof.
  intros H. split.
  - cbn [sub_go]. now rewrite console_line_not_empty.
  - cbn [sub_go]. rewrite (console_line_needs_bol prev _ H). f_equal.
    now apply sub_go_console_bol.
Qed.

(** C9, amended: whatever the rule matches is a console.log, error, warn
    or info call whose argument text has no closing parenthesis, with
    whitespace around it, from the start of a line up to the end of a
    line or of the text.  In EVERY text, a line holding a call whose
    argument text contains a [)] stays as it is, whatever is before and
    after it, and what follows its newline is rewritten on its own.  A
    call at the start of a line, wherever the line stands in the text,
    is deleted with the whitespace around it; its newline is kept when a
    line that is not blank follows, and what follows is rewritten on its
    own; the newline is not kept when only whitespace follows up to the
    end of the text.  What is before the call loses only what the rule
    finds there, and nothing when it holds no [console.] and ends in a
    line that is not blank. *)
Theorem console_line_rule (w1 : text) (name : string)
        (a1 a2 args w2 w3 V post : text) :
  In name console_names ->
  forallb is_space w1 = true -> forallb not_nl w1 = true ->
  forallb is_space w2 = true -> forallb not_nl w2 = true ->
  forallb is_space w3 = true ->
  forallb (not_chr ")") a1 = true ->
  forallb (not_chr ")") args = true ->
  forallb not_nl (kept_line w1 name a1 a2 w2) = true ->
  forallb is_space V = true -> forallb not_nl V = true ->
  stops is_space post = true -> post <> [] ->
  (forall prev s rest g,
      match_at re_console_line prev s = Some (rest, g) ->
      at_bol prev = true /\ at_eol rest = true
      /\ exists v1 nm ar v2,
          s = console_call v1 nm ar v2 ++ rest
          /\ forallb is_space v1 = true
          /\ In nm console_names
          /\ forallb (not_chr ")") ar = true
          /\ forallb is_space v2 = true)
  /\ (forall A P,
        exists F,
          sub re_console_line [] (A ++ kept_line w1 name a1 a2 w2 ++ P)
          = F ++ kept_line w1 name a1 a2 w2
              ++ sub_go re_console_line []
                        (end_prev None (kept_line w1 name a1 a2 w2)) P 0
          /\ List.length F <= List.length A
          /\ (contains (codes "console.") A = false -> F = A))
  /\ (sub_go re_console_line []
             (end_prev None (kept_line w1 name a1 a2 w2)) [] 0 = []
      /\ forall P,
          sub_go re_console_line []
                 (end_prev None (kept_line w1 name a1 a2 w2)) (NL :: P) 0
          = NL :: sub re_console_line [] P)
  /\ (forall A,
        at_bol (end_prev None A) = true ->
        exists F,
          sub re_console_line []
              (A ++ console_call w1 name args w2 ++ NL :: V ++ post)
          = F ++ NL :: sub re_console_line [] (V ++ post)
          /\ List.length F <= List.length A
          /\ (contains (codes "console.") A = false ->
              after_full_line A = true -> F = A))
  /\ (forall A,
        at_bol (end_prev None A) = true ->
        exists F,
          sub re_console_line [] (A ++ console_call w1 name args w3) = F
          /\ List.length F <= List.length A
          /\ (contains (codes "console.") A = false ->
              after_full_line A = true -> F = A))
  /\ sub re_console_line [] console_example = console_example_after.
Proof.
  intros Hin Hw1 Hnl1 Hw2 Hnl2 Hw3 Ha1 Hargs Hnl HV HnV Hpost Hne.
  split; [exact console_line_match_inv|].
  split; [|split; [|split; [|split]]].
  - intros A P.
    exact (kept_line_scan w1 name a1 a2 w2 P Hw1 Hin Ha1 Hnl
             (List.length A) A None (le_n _)).
  - pose proof (kept_line_not_bol w1 name a1 a2 w2 Hnl) as Hb.
    split; [|intros P]; now apply sub_go_after_line.
  - intros A Hb.
    destruct (deleted_line w1 name args w2 (NL :: V ++ post) Hw1 Hnl1 Hin
                Hargs (tail_to_newline w2 V post Hw2 HV HnV Hpost Hne) A Hb)
      as (F & EF & LF & HF).
    exists F. split; [|split; assumption].
    rewrite EF. f_equal. apply sub_go_after_line.
    unfold console_call.
    replace (w1 ++ codes "console." ++ codes name ++ codes "(" ++ args
             ++ codes ");" ++ w2)
      with ((w1 ++ codes "console." ++ codes name ++ codes "(" ++ args)
            ++ codes ");" ++ w2)
      by (now rewrite <- !app_assoc).
    now apply at_bol_after_call.
  - intros A Hb.
    destruct (deleted_line w1 name args w3 [] Hw1 Hnl1 Hin Hargs
                (tail_to_end w3 Hw3) A Hb) as (F & EF & LF & HF).
    exists F. split; [|split; assumption].
    rewrite app_nil_r in EF. rewrite EF.
    cbn [sub_go]. rewrite console_line_not_empty. apply app_nil_r.
  - vm_compute. reflexivity.
Qed.

Lemma console_line_rule_witness :
  let w1 := codes "  " in
  let a1 := codes "check(" in
  let a2 := codes "" in
  let args := codes "'debug', value" in
  let w2 := codes " " in
  let w3 := codes (" " ++ lf ++ lf) in
  let V := codes "    " in
  let post := codes "next();" in
  let A := codes ("start();" ++ lf) in
  sub re_console_line [] (A ++ kept_line w1 "warn" a1 a2 w2 ++ NL :: post)
  = A ++ kept_line w1 "warn" a1 a2 w2 ++ NL :: sub re_console_line [] post
  /\ sub re_console_line []
         (A ++ console_call w1 "warn" args w2 ++ NL :: V ++ post)
     = A ++ NL :: sub re_console_line [] (V ++ post)
  /\ sub re_console_line [] (A ++ console_call w1 "warn" args w3) = A.
Proof.
  intros w1 a1 a2 args w2 w3 V post A.
  destruct (console_line_rule w1 "warn" a1 a2 args w2 w3 V post)
    as (_ & Hkept & [_ Hafter] & Hdel & Hend & _);
    try (vm_compute; reflexivity);
    [cbn; tauto | discriminate |].
  split; [|split].
  - destruct (Hkept A (NL :: post)) as (F & EF & _ & HF).
    rewrite EF, (HF eq_refl), Hafter. reflexivity.
  - destruct (Hdel A eq_refl) as (F & EF & _ & HF).
    rewrite EF, (HF eq_refl eq_refl). reflexivity.
  - destruct (Hend A eq_refl) as (F & EF & _ & HF).
    rewrite EF. exact (HF eq_refl eq_refl).
Defined.
